(** * String tension calculator: the tension engine of the front end

    A shallow embedding of [utils/tension.ts] (pitch, scale and class
    resolution, the tension formula, the gauge recommender) and of the
    inventory analysis of [pages/Summary.tsx], with the properties the
    specification states about them.

    Numbers.  The source computes with JavaScript numbers.  The model keeps
    the values that decide control flow — [NaN] and the two infinities —
    and represents every finite value by an exact rational ([Qc], rationals
    in lowest terms, so that equal values are equal terms).  Rounding,
    overflow and the sign of zero are not modelled: a property stated on
    these numbers is one that the code's own operations and comparisons
    give, never one that rests on an identity of exact arithmetic.  Where
    rounding decides, the function is also given on binary64 numbers,
    Rocq's primitive floats (see [resolveScales_binary64]). *)

From Stdlib Require Import QArith Qcanon Qround Lqa Ascii String Floats.
From stdpp Require Import base numbers list sorting strings gmap sets.

Local Open Scope Qc_scope.

(** ** JavaScript numbers *)

Inductive number : Type :=
  | NaN
  | NInf
  | Fin (q : Qc)
  | PInf.

Global Instance number_eq_dec : EqDecision number.
Proof. solve_decision. Defined.

Global Instance number_inhabited : Inhabited number := populate NaN.

Global Instance number_countable : Countable number.
Proof.
  refine (inj_countable'
    (λ x, match x with
          | NaN => inr 0%nat | NInf => inr 1%nat | PInf => inr 2%nat
          | Fin q => inl q
          end)
    (λ c, match c with
          | inl q => Fin q
          | inr 0%nat => NaN | inr 1%nat => NInf | inr _ => PInf
          end) _).
  by intros [].
Defined.

(** A decimal literal of the source, e.g. [dec 386.4]. *)
Definition dec (q : Q) : number := Fin (Q2Qc q).

(** An array index or a length used as a number. *)
Definition of_nat (n : nat) : number := Fin (Qc_of_Z (Z.of_nat n)).

(** Reading a property that may be missing and using it as a number:
    [undefined] converts to [NaN]. *)
Definition to_number (o : option Qc) : number :=
  match o with
  | Some q => Fin q
  | None => NaN
  end.

Module Num.

Definition neg (x : number) : number :=
  match x with
  | NaN => NaN
  | NInf => PInf
  | Fin a => Fin (- a)
  | PInf => NInf
  end.

Definition add (x y : number) : number :=
  match x, y with
  | NaN, _ | _, NaN => NaN
  | Fin a, Fin b => Fin (a + b)
  | PInf, NInf | NInf, PInf => NaN
  | PInf, _ | _, PInf => PInf
  | NInf, _ | _, NInf => NInf
  end.

Definition sub (x y : number) : number := add x (neg y).

(** The sign of a finite factor applied to an infinity; a zero factor
    gives [NaN]. *)
Definition scale_inf (pos : bool) (a : Qc) : number :=
  if decide (a = 0) then NaN
  else if bool_decide (0 < a) then (if pos then PInf else NInf)
  else (if pos then NInf else PInf).

Definition mul (x y : number) : number :=
  match x, y with
  | NaN, _ | _, NaN => NaN
  | Fin a, Fin b => Fin (a * b)
  | PInf, Fin a | Fin a, PInf => scale_inf true a
  | NInf, Fin a | Fin a, NInf => scale_inf false a
  | PInf, PInf | NInf, NInf => PInf
  | PInf, NInf | NInf, PInf => NInf
  end.

Definition div (x y : number) : number :=
  match x, y with
  | NaN, _ | _, NaN => NaN
  | Fin a, Fin b =>
      if decide (b = 0) then
        (if decide (a = 0) then NaN
         else if bool_decide (0 < a) then PInf else NInf)
      else Fin (a / b)
  | Fin _, (PInf | NInf) => Fin 0
  | PInf, Fin b => if bool_decide (b < 0) then NInf else PInf
  | NInf, Fin b => if bool_decide (b < 0) then PInf else NInf
  | (PInf | NInf), (PInf | NInf) => NaN
  end.

(** [Math.abs] *)
Definition abs (x : number) : number :=
  match x with
  | NaN => NaN
  | Fin a => Fin (if bool_decide (a < 0) then - a else a)
  | PInf | NInf => PInf
  end.

(** [x < y]: false as soon as one side is [NaN]. *)
Definition lt (x y : number) : bool :=
  match x, y with
  | NaN, _ | _, NaN => false
  | Fin a, Fin b => bool_decide (a < b)
  | NInf, (Fin _ | PInf) => true
  | Fin _, PInf => true
  | _, _ => false
  end.

(** [x <= y] *)
Definition le (x y : number) : bool :=
  match x, y with
  | NaN, _ | _, NaN => false
  | Fin a, Fin b => bool_decide (a ≤ b)
  | NInf, _ => true
  | _, PInf => true
  | _, _ => false
  end.

(** [x >= y] *)
Definition ge (x y : number) : bool := le y x.

(** [x > y] *)
Definition gt (x y : number) : bool := lt y x.

(** [x === y]: [NaN] is equal to nothing. *)
Definition eq (x y : number) : bool :=
  match x, y with
  | NaN, _ | _, NaN => false
  | _, _ => bool_decide (x = y)
  end.

(** Truthiness of a number: [0] and [NaN] are falsy. *)
Definition truthy (x : number) : bool :=
  match x with
  | NaN => false
  | Fin a => bool_decide (a ≠ 0)
  | PInf | NInf => true
  end.

(** [Math.floor] and [Math.ceil] *)
Definition floor (x : number) : number :=
  match x with
  | Fin a => Fin (Qc_of_Z (Qfloor a))
  | _ => x
  end.

Definition ceil (x : number) : number :=
  match x with
  | Fin a => Fin (Qc_of_Z (Qceiling a))
  | _ => x
  end.

End Num.

Declare Scope number_scope.
Delimit Scope number_scope with J.
Bind Scope number_scope with number.
Infix "+" := Num.add : number_scope.
Infix "-" := Num.sub : number_scope.
Infix "*" := Num.mul : number_scope.
Infix "/" := Num.div : number_scope.
Infix "<?" := Num.lt : number_scope.
Infix "<=?" := Num.le : number_scope.
Infix ">=?" := Num.ge : number_scope.
Infix ">?" := Num.gt : number_scope.

(** [x || d] on a property read: the value when it is there and truthy,
    [d] otherwise. *)
Definition or_default (x : option Qc) (d : number) : number :=
  match x with
  | Some q => if Num.truthy (Fin q) then Fin q else d
  | None => d
  end.

(** ** Strings: [slice] and [parseInt] *)

Module Str.

(** [s.slice(start, end)]; a negative position counts from the end, and
    [None] for [end] is an omitted argument. *)
Definition clamp (len : nat) (i : Z) : nat :=
  if (i <? 0)%Z then Z.to_nat (Z.max (Z.of_nat len + i) 0)
  else Nat.min (Z.to_nat i) len.

Definition slice (s : string) (start : Z) (stop : option Z) : string :=
  let len := String.length s in
  let from := clamp len start in
  let to := match stop with Some e => clamp len e | None => len end in
  String.substring from (to - from) s.

Definition digit (c : Ascii.ascii) : option Z :=
  let n := Z.of_nat (Ascii.nat_of_ascii c) in
  if ((48 <=? n) && (n <=? 57))%Z then Some (n - 48)%Z else None.

Definition is_space (c : Ascii.ascii) : bool :=
  let n := Ascii.nat_of_ascii c in
  bool_decide (n = 32 ∨ (9 ≤ n ∧ n ≤ 13))%nat.

Fixpoint skip_spaces (s : string) : string :=
  match s with
  | String c r => if is_space c then skip_spaces r else s
  | EmptyString => s
  end.

(** The value of the longest prefix of decimal digits, if there is one. *)
Fixpoint digits (s : string) (acc : option Z) : option Z :=
  match s with
  | String c r =>
      match digit c with
      | Some d => digits r (Some (10 * default 0%Z acc + d)%Z)
      | None => acc
      end
  | EmptyString => acc
  end.

(** [parseInt(s, 10)] *)
Definition parseInt (s : string) : number :=
  let s := skip_spaces s in
  let '(sign, s) :=
    match s with
    | String "-" r => ((-1)%Z, r)
    | String "+" r => (1%Z, r)
    | _ => (1%Z, s)
    end in
  match digits s None with
  | Some n => Fin (Qc_of_Z (sign * n))
  | None => NaN
  end.

End Str.

(** ** The data of [types.ts] *)

Inductive StringType : Type := p | w.

Global Instance StringType_eq_dec : EqDecision StringType.
Proof. solve_decision. Defined.

(** [scale: number | [number, number]] *)
Inductive Scale : Type :=
  | Single (s : number)
  | Multi (treble bass : number).

(** [target: [number, number]] *)
Definition Range : Type := (number * number)%type.

Record Guitar : Type := {
  name : string;
  n_strings : nat;
  scale : Scale;
  tuning : list string;
  string_types : option (list string);
  target_plain : Range;
  target_wound : Range;
}.

Record StringSelection : Type := {
  gauge : number;
  type : StringType;
}.

Global Instance StringSelection_eq_dec : EqDecision StringSelection.
Proof. solve_decision. Defined.

(** [GuitarSelections]: the selections of each guitar under its index; an
    array of selections may have holes. *)
Abbreviation GuitarSelections := (gmap nat (list (option StringSelection))).

(** ** The records of [pages/Summary.tsx] *)

Record UsageInfo : Type := {
  guitarIdx : nat;
  guitarName : string;
  stringIdx : nat;
  u_scale : number;
  u_freq : number;
  u_target : Range;
}.

Inductive Direction : Type := up | down.
Inductive BoundType : Type := bound_min | bound_max.

Record SwapOption : Type := {
  s_gauge : number;
  newTension : number;
  currentTension : number;
  tensionShift : number;
  direction : Direction;
  targetMin : number;
  targetMax : number;
  inRange : bool;
  requiredBound : option (BoundType * number);
}.

Record GaugeUsageWithSwap : Type := {
  g_gauge : number;
  g_type : StringType;
  count : nat;
  usages : list UsageInfo;
  swapOption : option SwapOption;
}.

(** The key of the usage map, [`${gauge}-${type}`]: two keys are the same
    string exactly when gauge and type are the same. *)
Definition usage_key (u : GaugeUsageWithSwap) : number * StringType :=
  (g_gauge u, g_type u).

Global Instance StringType_countable : Countable StringType.
Proof.
  refine (inj_countable' (λ t, match t with p => true | w => false end)
            (λ b : bool, if b then p else w) _).
  by intros [].
Defined.

(** The resolved context of one string position (the specification's
    StringContext). *)
Record StringContext : Type := {
  c_class : StringType;
  c_scale : number;
  c_freq : number;
  c_target : Range;
}.

(** The (gauge, class) pairs that occur in a selection set. *)
Definition selection_pairs
    (selections : GuitarSelections) : gset (number * StringType) :=
  list_to_set
    ((λ sel, (gauge sel, type sel)) <$>
     omap id (mjoin (snd <$> map_to_list selections))).

Definition distinct_pairs (selections : GuitarSelections) : nat :=
  size (selection_pairs selections).

(** A list with its indices, as a counting [for] loop visits it. *)
Definition indexed {A} (l : list A) : list (nat * A) :=
  zip (seq 0 (length l)) l.

(** A selection that the inventory counts: it is there and its gauge is
    truthy ([sel?.gauge]). *)
Definition has_gauge (sel : option StringSelection) : Prop :=
  match sel with
  | Some sel => Num.truthy (gauge sel) = true
  | None => False
  end.

Global Instance has_gauge_dec sel : Decision (has_gauge sel).
Proof. destruct sel; simpl; apply _. Defined.

(** The selections that the inventory counts: for each guitar, those held
    under its index that have a gauge. *)
Definition counted_selections
    (guitars : list Guitar) (selections : GuitarSelections) : nat :=
  sum_list_with
    (λ entry : nat * Guitar,
       length (filter has_gauge (default [] (selections !! entry.1))))
    (indexed guitars).

(** The number of strings of all guitars. *)
Definition total_strings (guitars : list Guitar) : nat :=
  sum_list_with n_strings guitars.

(** Every string of every guitar has a selection with a gauge, and there
    are no other selections under the guitar's index. *)
Definition complete_selections
    (guitars : list Guitar) (selections : GuitarSelections) : Prop :=
  ∀ gIdx guitar, guitars !! gIdx = Some guitar →
    ∃ guitarSel,
      selections !! gIdx = Some guitarSel
      ∧ length guitarSel = n_strings guitar
      ∧ Forall has_gauge guitarSel.


(** How a call ends: with a value, or with an error thrown to the caller. *)
Inductive Completion : Type :=
  | Returns (value : number)
  | Throws (error : string).

(** ** [utils/tension.ts] *)

(** [resolveScales]: per-string scale lengths.  A single scale is repeated
    ([Array(nStrings).fill(scale)]); a pair is interpolated for the indices
    [0 .. nStrings-1]. *)
Definition resolveScales (scale : Scale) (nStrings : nat) : list number :=
  match scale with
  | Single s => replicate nStrings s
  | Multi treble bass =>
      (λ i : nat,
         treble + (bass - treble) * of_nat i / (of_nat nStrings - dec 1))%J
      <$> seq 0 nStrings
  end.

(** An index or a count as a binary64 number. *)
Definition binary64_of_nat (n : nat) : float :=
  PrimFloat.of_uint63 (Uint63.of_Z (Z.of_nat n)).

(** [resolveScales] on a pair, on binary64 numbers: the same expression,
    each operation rounded as the machine rounds it. *)
Definition resolveScales_binary64
    (treble bass : float) (nStrings : nat) : list float :=
  (λ i : nat,
     PrimFloat.add treble
       (PrimFloat.div
          (PrimFloat.mul (PrimFloat.sub bass treble) (binary64_of_nat i))
          (PrimFloat.sub (binary64_of_nat nStrings) (binary64_of_nat 1))))
  <$> seq 0 nStrings.

(** [resolveStringTypes]: the override when there is one (an array is
    truthy whatever it holds), the positional default otherwise.  The
    source casts the override to [('p' | 'w')[]] without looking at it, so
    tags are strings here. *)
Definition resolveStringTypes
    (stringTypes : option (list string)) (nStrings : nat) : list string :=
  match stringTypes with
  | Some override => override
  | None => (λ i : nat, if (i <? 3)%nat then "p" else "w") <$> seq 0 nStrings
  end.

(** [isInRange] *)
Definition isInRange (tension : number) (target : Range) : bool :=
  (tension >=? target.1)%J && (tension <=? target.2)%J.

(** ** [pages/Editor.tsx]: the singleton gauges *)

(** The body of the counting loop: [gaugeCounts.set(key,
    (gaugeCounts.get(key) || 0) + 1)] for a selection with a gauge. *)
Definition count_gauge
    (gaugeCounts : gmap (number * StringType) nat)
    (sel : option StringSelection) : gmap (number * StringType) nat :=
  match sel with
  | None => gaugeCounts
  | Some sel =>
      if Num.truthy (gauge sel) then
        let key := (gauge sel, type sel) in
        <[key := (default 0 (gaugeCounts !! key) + 1)%nat]> gaugeCounts
      else gaugeCounts
  end.

Definition count_guitar
    (selections : GuitarSelections)
    (gaugeCounts : gmap (number * StringType) nat) (entry : nat * Guitar)
    : gmap (number * StringType) nat :=
  let guitarSel := default [] (selections !! entry.1) in
  foldl count_gauge gaugeCounts guitarSel.

(** [singletonGauges]: the keys that the count finds once.  The set is only
    asked for membership. *)
Definition singletonGauges
    (guitars : list Guitar) (selections : GuitarSelections)
    : gset (number * StringType) :=
  let gaugeCounts := foldl (count_guitar selections) ∅ (indexed guitars) in
  dom (filter (λ kv : (number * StringType) * nat, kv.2 = 1%nat) gaugeCounts).

(** A selection with a gauge that has the given key. *)
Definition uses_key
    (key : number * StringType) (sel : option StringSelection) : Prop :=
  has_gauge sel ∧ (λ s, (gauge s, type s)) <$> sel = Some key.

Global Instance uses_key_dec key sel : Decision (uses_key key sel).
Proof. unfold uses_key. apply _. Defined.

(** The number of selections, under the guitars' indices, that use a
    key. *)
Definition key_uses
    (guitars : list Guitar) (selections : GuitarSelections)
    (key : number * StringType) : nat :=
  sum_list_with
    (λ entry : nat * Guitar,
       length (filter (uses_key key) (default [] (selections !! entry.1))))
    (indexed guitars).

(** The count that a usage map holds for a key. *)
Definition count_of
    (key : number * StringType) (usageMap : list GaugeUsageWithSwap) : nat :=
  sum_list_with
    (λ u, if decide (usage_key u = key) then count u else 0%nat) usageMap.

(** The step of a search for the first entry with the smallest key: the
    best entry so far and its key are replaced when the key of the next
    entry is strictly smaller.  The two searches of [recommendGauge] are
    instances. *)
Definition scan_step {A B} (key : A → number) (out : A → B)
    (best : B * number) (x : A) : B * number :=
  if (key x <? best.2)%J then (out x, key x) else best.

(** The gauge that a search over [gauges] returns: among the gauges that
    qualify it has the smallest error, and it stands before every other
    qualifying gauge with that error. *)
Definition closest (error : Qc → number) (among : Qc → Prop)
    (gauges : list Qc) (g : Qc) : Prop :=
  ∃ pre post,
    gauges = pre ++ g :: post
    ∧ among g
    ∧ (∀ g', g' ∈ gauges → among g' → (error g <=? error g')%J = true)
    ∧ (∀ g', g' ∈ pre → among g' → (error g <? error g')%J = true).

(** The usage map after any number of recorded selections: one group per
    key, every group counts its usages and has at least one, and no swap is
    set yet. *)
Definition usageMap_wf (usageMap : list GaugeUsageWithSwap) : Prop :=
  NoDup (usage_key <$> usageMap)
  ∧ Forall
      (λ u, count u = length (usages u) ∧ (1 ≤ count u)%nat
            ∧ swapOption u = None)
      usageMap.

(** [valid.sort((a, b) => a - b)] on finite numbers: the sort is stable,
    and an element moves behind another only when the difference is a
    positive number. *)
Fixpoint insert_ascending (a : Qc) (l : list Qc) : list Qc :=
  match l with
  | [] => [a]
  | b :: l' =>
      if (Fin a - Fin b >? dec 0)%J
      then b :: insert_ascending a l'
      else a :: l
  end.

Definition sort_ascending (l : list Qc) : list Qc :=
  foldr insert_ascending [] l.

(** [s.split('.')]: the pieces of [s] between its dots; [piece] is the
    piece that is being read. *)
Fixpoint split_dots (piece s : string) : list string :=
  match s with
  | EmptyString => [piece]
  | String c r =>
      if decide (c = "."%char) then piece :: split_dots "" r
      else split_dots (piece ++ String c "") r
  end.

(** [s.padEnd(n, '0')] *)
Definition padEnd_zeros (n : nat) (s : string) : string :=
  s ++ string_of_list_ascii (replicate (n - String.length s) "0"%char).

(** [formatGauge].  [toString] is the text of a number, which the language
    defines on the binary value of the number; it is a parameter here. *)
Definition formatGauge (toString : number → string) (gauge : number) : string :=
  let str := toString gauge in
  let digits :=
    match split_dots "" str !! 1%nat with
    | Some digits => digits
    | None => ""
    end in
  "." ++ padEnd_zeros 3 digits.

(** [tuning.join('-')] *)
Fixpoint join_dash (l : list string) : string :=
  match l with
  | [] => ""
  | [x] => x
  | x :: l' => x ++ "-" ++ join_dash l'
  end.

Definition tuning_patterns : gmap string string :=
  list_to_map
    [("E4-B3-G3-D3-A2-E2", "Standard");
     ("D4-A3-F3-C3-G2-D2", "D Standard");
     ("C4-G3-Eb3-Bb2-F2-C2", "C Standard");
     ("Eb4-Bb3-Gb3-Db3-Ab2-Eb2", "Eb Standard");
     ("C#4-G#3-E3-B2-F#2-C#2", "C# Standard")].

(** [tuningName].  An empty name in the table would be falsy and fall
    through to the first and last note, as a missing one does. *)
Definition tuningName (tuning : list string) : string :=
  match tuning with
  | [] => ""
  | first :: _ =>
      let tuningStr := join_dash tuning in
      match tuning_patterns !! tuningStr with
      | Some name =>
          if decide (name = "") then first ++ "-" ++ default first (last tuning)
          else name
      | None => first ++ "-" ++ default first (last tuning)
      end
  end.

Section Engine.

(** [Math.pow].  The language leaves its values to the implementation up
    to the cases it lists.  The properties below assume two of them where
    they need them: an exponent that is [NaN] gives [NaN], and the exponent
    2 gives the square. *)
Variable Math_pow : number → number → number.

(** The tables of [constants.ts]: the reference pitch, the semitone
    offset of each sharp note name from A, the flat spellings, the unit
    weights and the gauge catalogs of the two string classes. *)
Variable A4 : number.
Variable NOTE_INDEX : gmap string Qc.
Variable FLAT_TO_SHARP : gmap string string.
Variable PLAIN_UNIT_WEIGHTS WOUND_UNIT_WEIGHTS : gmap Qc Qc.
Variable PLAIN_GAUGES WOUND_GAUGES : list Qc.

(** [table[gauge]] for a gauge that may be any number: a table has
    finite keys only. *)
Definition lookup_gauge (table : gmap Qc Qc) (gauge : number) : option Qc :=
  match gauge with
  | Fin g => table !! g
  | _ => None
  end.

Definition unit_weights (stype : StringType) : gmap Qc Qc :=
  match stype with p => PLAIN_UNIT_WEIGHTS | w => WOUND_UNIT_WEIGHTS end.

Definition catalog (stype : StringType) : list Qc :=
  match stype with p => PLAIN_GAUGES | w => WOUND_GAUGES end.

(** [noteToFreq] *)
Definition noteToFreq (note : string) : number :=
  let name := Str.slice note 0 (Some (-1)%Z) in
  let octave := Str.parseInt (Str.slice note (-1) None) in
  let name :=
    match FLAT_TO_SHARP !! name with
    | Some sharp => sharp
    | None => name
    end in
  let semitones :=
    (to_number (NOTE_INDEX !! name) + (octave - dec 4) * dec 12)%J in
  (A4 * Math_pow (dec 2) (semitones / dec 12))%J.

(** The frequency of a note name and an octave number: what the body of
    [noteToFreq] computes once the token is cut in two. *)
Definition frequency_of (name : string) (octave : number) : number :=
  let name := default name (FLAT_TO_SHARP !! name) in
  let semitones :=
    (to_number (NOTE_INDEX !! name) + (octave - dec 4) * dec 12)%J in
  (A4 * Math_pow (dec 2) (semitones / dec 12))%J.

(** A note name is recognized when, flats respelled, it has an index. *)
Definition recognized (name : string) : Prop :=
  is_Some (NOTE_INDEX !! default name (FLAT_TO_SHARP !! name)).

(** A call of [noteToFreq] as its caller sees it.  The body has no
    [throw], and [slice], [parseInt], [in], the property reads and
    [Math.pow] raise nothing on strings and numbers: the call returns. *)
Definition noteToFreq_call (note : string) : Completion :=
  Returns (noteToFreq note).

(** [tensionFromMu] *)
Definition tensionFromMu (mu scale freq : number) : number :=
  ((Math_pow (dec 2 * scale * freq) (dec 2) * mu) / dec 386.4)%J.

(** [calcTension] *)
Definition calcTension
    (gauge : number) (stype : StringType) (scale freq : number) : number :=
  let table := unit_weights stype in
  let mu := or_default (lookup_gauge table gauge) (dec 0) in
  tensionFromMu mu scale freq.

(** [gaugesInRange].  The loop visits the entries of the table in the order
    of the object; [gaugesInRange_of] is the function on the entries in a
    given order, and a finite map lists them in an order of its own.  The
    sort at the end makes the result the same for every order (see
    the properties of [gaugesInRange] below).  A key of the table is read back with
    [parseFloat] as the number it was written from. *)
Definition keep_in_range
    (scale freq minT maxT : number)
    (valid : list Qc) (entry : Qc * Qc) : list Qc :=
  let '(gauge, mu) := entry in
  let tension := tensionFromMu (Fin mu) scale freq in
  if (tension >=? minT)%J && (tension <=? maxT)%J
  then valid ++ [gauge]
  else valid.

Definition gaugesInRange_of
    (entries : list (Qc * Qc)) (scale freq : number) (targetRange : Range)
    : list Qc :=
  let '(minT, maxT) := targetRange in
  let valid := foldl (keep_in_range scale freq minT maxT) [] entries in
  sort_ascending valid.

Definition gaugesInRange
    (stype : StringType) (scale freq : number) (targetRange : Range)
    : list Qc :=
  gaugesInRange_of (map_to_list (unit_weights stype)) scale freq targetRange.

(** [recommendGauge].  The three loops of the source are the three folds;
    [None] is the [undefined] that [gauges[0]] reads from an empty
    catalog. *)
Definition collect_in_range
    (table : gmap Qc Qc) (scale freq minT maxT : number)
    (inRange : list (Qc * number)) (gauge : Qc) : list (Qc * number) :=
  let mu := to_number (table !! gauge) in
  let actual := tensionFromMu mu scale freq in
  if (actual >=? minT)%J && (actual <=? maxT)%J
  then inRange ++ [(gauge, actual)]
  else inRange.

Definition closer_in_range
    (midpoint : number) (best : Qc * number) (entry : Qc * number)
    : Qc * number :=
  let error := Num.abs (entry.2 - midpoint)%J in
  if (error <? best.2)%J then (entry.1, error) else best.

Definition closer_in_catalog
    (table : gmap Qc Qc) (scale freq midpoint : number)
    (best : option Qc * number) (gauge : Qc) : option Qc * number :=
  let mu := to_number (table !! gauge) in
  let actual := tensionFromMu mu scale freq in
  let error := Num.abs (actual - midpoint)%J in
  if (error <? best.2)%J then (Some gauge, error) else best.

Definition recommendGauge
    (stype : StringType) (scale freq : number) (target : Range)
    : option Qc :=
  let table := unit_weights stype in
  let gauges := catalog stype in
  let '(minT, maxT) := target in
  let midpoint := ((minT + maxT) / dec 2)%J in
  let inRange :=
    foldl (collect_in_range table scale freq minT maxT) [] gauges in
  match inRange with
  | first :: _ =>
      Some (foldl (closer_in_range midpoint)
              (first.1, Num.abs (first.2 - midpoint)%J) inRange).1
  | [] =>
      (foldl (closer_in_catalog table scale freq midpoint)
         (head gauges, PInf) gauges).1
  end.

(** *** The inventory analysis: [buildGaugeUsages] of [pages/Summary.tsx]

    The usage map keeps its groups in the order of their first use. *)

(** [guitar.tuning[sIdx] || 'E4'] *)
Definition note_at (tuning : list string) (sIdx : nat) : string :=
  match tuning !! sIdx with
  | Some note => if decide (note = "") then "E4" else note
  | None => "E4"
  end.

Definition usageMap_has
    (usageMap : list GaugeUsageWithSwap) (key : number * StringType) : bool :=
  bool_decide (key ∈ usage_key <$> usageMap).

(** [usageMap.get(key)!] followed by [count++] and [usages.push(info)]. *)
Definition usageMap_record
    (key : number * StringType) (info : UsageInfo)
    (usageMap : list GaugeUsageWithSwap) : list GaugeUsageWithSwap :=
  (λ usage,
     if decide (usage_key usage = key) then
       {| g_gauge := g_gauge usage; g_type := g_type usage;
          count := S (count usage); usages := usages usage ++ [info];
          swapOption := swapOption usage |}
     else usage) <$> usageMap.

(** The body of the inner loop of the first pass.  A scale read past the
    end of [scales] is [undefined]; it is only ever used as a number,
    where it is [NaN]. *)
Definition collect_usage
    (gIdx : nat) (guitar : Guitar) (scales : list number)
    (usageMap : list GaugeUsageWithSwap)
    (entry : nat * option StringSelection) : list GaugeUsageWithSwap :=
  let '(sIdx, sel) := entry in
  match sel with
  | None => usageMap
  | Some sel =>
      if negb (Num.truthy (gauge sel)) then usageMap else
      let note := note_at (tuning guitar) sIdx in
      let scale := default NaN (scales !! sIdx) in
      let freq := noteToFreq note in
      let target :=
        match type sel with
        | p => target_plain guitar
        | w => target_wound guitar
        end in
      let key := (gauge sel, type sel) in
      let usageMap :=
        if usageMap_has usageMap key then usageMap
        else usageMap ++
               [{| g_gauge := gauge sel; g_type := type sel; count := 0;
                   usages := []; swapOption := None |}] in
      usageMap_record key
        {| guitarIdx := gIdx; guitarName := name guitar; stringIdx := sIdx;
           u_scale := scale; u_freq := freq; u_target := target |}
        usageMap
  end.

Definition collect_guitar
    (selections : GuitarSelections)
    (usageMap : list GaugeUsageWithSwap) (entry : nat * Guitar)
    : list GaugeUsageWithSwap :=
  let '(gIdx, guitar) := entry in
  let guitarSel := default [] (selections !! gIdx) in
  let scales := resolveScales (scale guitar) (n_strings guitar) in
  foldl (collect_usage gIdx guitar scales) usageMap (indexed guitarSel).

(** The body of the swap search: one common group against the singleton. *)
Definition consider_swap
    (usage : GaugeUsageWithSwap) (info : UsageInfo) (currentTension : number)
    (best : option SwapOption * number) (otherUsage : GaugeUsageWithSwap)
    : option SwapOption * number :=
  let '(bestSwap, minDeviation) := best in
  let table := unit_weights (g_type usage) in
  let target := u_target info in
  if bool_decide (count otherUsage ≤ 1)%nat then best else
  if negb (bool_decide (g_type otherUsage = g_type usage)) then best else
  if Num.eq (g_gauge otherUsage) (g_gauge usage) then best else
  let swapGauge := g_gauge otherUsage in
  let mu := lookup_gauge table swapGauge in
  if negb (Num.truthy (to_number mu)) then best else
  let newTension :=
    calcTension swapGauge (g_type usage) (u_scale info) (u_freq info) in
  let tensionShift := (newTension - currentTension)%J in
  let deviation := Num.abs tensionShift in
  if (deviation <? minDeviation)%J then
    let inRange := (newTension >=? target.1)%J && (newTension <=? target.2)%J in
    let requiredBound :=
      if inRange then None
      else if (newTension <? target.1)%J then
        Some (bound_min, (Num.floor (newTension * dec 2) / dec 2)%J)
      else
        Some (bound_max, (Num.ceil (newTension * dec 2) / dec 2)%J) in
    (Some {| s_gauge := swapGauge; newTension := newTension;
             currentTension := currentTension; tensionShift := tensionShift;
             direction := if (tensionShift >? dec 0)%J then up else down;
             targetMin := target.1; targetMax := target.2;
             inRange := inRange; requiredBound := requiredBound |},
     deviation)
  else best.

(** The second pass on one group: groups that are not singletons are
    skipped; a singleton gets the best swap of the search over all groups,
    if there is one.  A singleton has one usage, which [stringUsages[0]]
    reads. *)
Definition swap_search
    (all : list GaugeUsageWithSwap) (usage : GaugeUsageWithSwap)
    (info : UsageInfo) : option SwapOption :=
  let currentTension :=
    calcTension (g_gauge usage) (g_type usage) (u_scale info) (u_freq info) in
  (foldl (consider_swap usage info currentTension) (None, PInf) all).1.

(** The groups that the swap search of a singleton goes on with: common
    groups of the same class, with another gauge, for which the table of
    the class has a truthy unit weight. *)
Definition swap_candidate (usage otherUsage : GaugeUsageWithSwap) : Prop :=
  (1 < count otherUsage)%nat
  ∧ g_type otherUsage = g_type usage
  ∧ Num.eq (g_gauge otherUsage) (g_gauge usage) = false
  ∧ Num.truthy
      (to_number (lookup_gauge (unit_weights (g_type usage))
                    (g_gauge otherUsage))) = true.

Global Instance swap_candidate_dec usage otherUsage :
  Decision (swap_candidate usage otherUsage).
Proof. unfold swap_candidate. apply _. Defined.

(** [deviation] in the swap search: how far the tension of the string
    moves when it takes the gauge of the other group. *)
Definition swap_deviation
    (usage : GaugeUsageWithSwap) (info : UsageInfo)
    (otherUsage : GaugeUsageWithSwap) : number :=
  let currentTension :=
    calcTension (g_gauge usage) (g_type usage) (u_scale info) (u_freq info) in
  let newTension :=
    calcTension (g_gauge otherUsage) (g_type usage) (u_scale info)
      (u_freq info) in
  Num.abs (newTension - currentTension)%J.

(** [bestSwap] as the swap search sets it for the gauge of another
    group. *)
Definition swap_to
    (usage : GaugeUsageWithSwap) (info : UsageInfo)
    (otherUsage : GaugeUsageWithSwap) : SwapOption :=
  let target := u_target info in
  let currentTension :=
    calcTension (g_gauge usage) (g_type usage) (u_scale info) (u_freq info) in
  let swapGauge := g_gauge otherUsage in
  let newTension :=
    calcTension swapGauge (g_type usage) (u_scale info) (u_freq info) in
  let tensionShift := (newTension - currentTension)%J in
  let inRange := (newTension >=? target.1)%J && (newTension <=? target.2)%J in
  let requiredBound :=
    if inRange then None
    else if (newTension <? target.1)%J then
      Some (bound_min, (Num.floor (newTension * dec 2) / dec 2)%J)
    else
      Some (bound_max, (Num.ceil (newTension * dec 2) / dec 2)%J) in
  {| s_gauge := swapGauge; newTension := newTension;
     currentTension := currentTension; tensionShift := tensionShift;
     direction := if (tensionShift >? dec 0)%J then up else down;
     targetMin := target.1; targetMax := target.2;
     inRange := inRange; requiredBound := requiredBound |}.

(** What the first pass records for a selection: where it is, and the
    context of its string. *)
Definition recorded_from
    (guitars : list Guitar) (selections : GuitarSelections)
    (key : number * StringType) (info : UsageInfo) : Prop :=
  ∃ guitar sel,
    guitars !! guitarIdx info = Some guitar
    ∧ default [] (selections !! guitarIdx info) !! stringIdx info
      = Some (Some sel)
    ∧ Num.truthy (gauge sel) = true
    ∧ key = (gauge sel, type sel)
    ∧ guitarName info = name guitar
    ∧ u_scale info
      = default NaN
          (resolveScales (scale guitar) (n_strings guitar) !! stringIdx info)
    ∧ u_freq info = noteToFreq (note_at (tuning guitar) (stringIdx info))
    ∧ u_target info
      = match type sel with
        | p => target_plain guitar
        | w => target_wound guitar
        end.

Definition find_swap
    (all : list GaugeUsageWithSwap) (usage : GaugeUsageWithSwap)
    : GaugeUsageWithSwap :=
  if negb (bool_decide (count usage = 1%nat)) then usage else
  match head (usages usage) with
  | None => usage
  | Some info =>
      match swap_search all usage info with
      | Some swap =>
          {| g_gauge := g_gauge usage; g_type := g_type usage;
             count := count usage; usages := usages usage;
             swapOption := Some swap |}
      | None => usage
      end
  end.

(** [usages.sort((a, b) => a.gauge - b.gauge)]: the sort is stable, and a
    comparison that is not a positive number leaves the pair in order. *)
Fixpoint insert_by_gauge
    (a : GaugeUsageWithSwap) (l : list GaugeUsageWithSwap)
    : list GaugeUsageWithSwap :=
  match l with
  | [] => [a]
  | b :: l' =>
      if (g_gauge a - g_gauge b >? dec 0)%J
      then b :: insert_by_gauge a l'
      else a :: l
  end.

Definition sort_by_gauge
    (l : list GaugeUsageWithSwap) : list GaugeUsageWithSwap :=
  foldr insert_by_gauge [] l.

(** [buildGaugeUsages], with the guitars and the selections of the page
    state as arguments.  (The set [commonGauges] that the source fills
    between the passes is never read and is left out.) *)
Definition collect_usages
    (guitars : list Guitar) (selections : GuitarSelections)
    : list GaugeUsageWithSwap :=
  foldl (collect_guitar selections) [] (indexed guitars).

Definition buildGaugeUsages
    (guitars : list Guitar) (selections : GuitarSelections)
    : list GaugeUsageWithSwap :=
  let usages := collect_usages guitars selections in
  let usages := find_swap usages <$> usages in
  sort_by_gauge usages.

(** *** The optimizer

    The front end posts guitars and selections to [/api/optimize]
    ([optimizeGauges] of [services/api.ts]) and takes the answer as the
    new selections.  The optimizer itself runs behind that call. *)

(** Modelled from the spec: the class of a resolved tag, absent from the
    sources; a class is plain or wound, and only the tag of a plain
    string says plain. *)
Definition class_of_tag (tag : option string) : StringType :=
  match tag with
  | Some tag => if decide (tag = "p") then p else w
  | None => w
  end.

(** Modelled from the spec: the StringContext of a string position,
    absent from the sources; scale, class and frequency come from the
    three resolvers, the target range is the one of the class. *)
Definition string_context (guitar : Guitar) (sIdx : nat) : StringContext :=
  let scales := resolveScales (scale guitar) (n_strings guitar) in
  let types := resolveStringTypes (string_types guitar) (n_strings guitar) in
  let class := class_of_tag (types !! sIdx) in
  {| c_class := class;
     c_scale := default NaN (scales !! sIdx);
     c_freq := noteToFreq (note_at (tuning guitar) sIdx);
     c_target :=
       match class with
       | p => target_plain guitar
       | w => target_wound guitar
       end |}.

(** Modelled from the spec: the repair pass of [optimize], absent from the
    sources; a string whose current tension is outside its target range
    (or that has no selection yet) gets the recommended gauge of its own
    context, every other string keeps its selection. *)
Definition repair_string
    (ctx : StringContext) (sel : option StringSelection)
    : option StringSelection :=
  let recommended :=
    match recommendGauge (c_class ctx) (c_scale ctx) (c_freq ctx)
            (c_target ctx) with
    | Some g => Some {| gauge := Fin g; type := c_class ctx |}
    | None => sel
    end in
  match sel with
  | Some current =>
      if isInRange
           (calcTension (gauge current) (c_class ctx) (c_scale ctx)
              (c_freq ctx))
           (c_target ctx)
      then sel
      else recommended
  | None => recommended
  end.

Definition repair_guitar
    (selections : GuitarSelections) (entry : nat * Guitar)
    : nat * list (option StringSelection) :=
  let '(gIdx, guitar) := entry in
  let guitarSel := default [] (selections !! gIdx) in
  (gIdx,
   (λ sIdx, repair_string (string_context guitar sIdx)
              (mjoin (guitarSel !! sIdx)))
   <$> seq 0 (n_strings guitar)).

Definition repair
    (guitars : list Guitar) (selections : GuitarSelections)
    : GuitarSelections :=
  list_to_map (repair_guitar selections <$> indexed guitars).

(** Modelled from the spec: the consolidation pass of [optimize], absent
    from the sources; the usage groups are recomputed, and every
    singleton whose swap suggestion keeps the string in range takes the
    suggested gauge. *)
Definition apply_swap
    (selections : GuitarSelections) (usage : GaugeUsageWithSwap)
    : GuitarSelections :=
  match swapOption usage, head (usages usage) with
  | Some swap, Some info =>
      if inRange swap then
        alter
          (λ guitarSel,
             <[stringIdx info :=
                 Some {| gauge := s_gauge swap; type := g_type usage |}]>
               guitarSel)
          (guitarIdx info) selections
      else selections
  | _, _ => selections
  end.

Definition consolidate
    (guitars : list Guitar) (selections : GuitarSelections)
    : GuitarSelections :=
  foldl apply_swap selections (buildGaugeUsages guitars selections).

(** Modelled from the spec: the minimization pass of [optimize], absent
    from the sources; consolidation is repeated until it changes
    nothing.  [rounds] bounds the number of repetitions. *)
Fixpoint minimize
    (rounds : nat) (guitars : list Guitar) (selections : GuitarSelections)
    : GuitarSelections :=
  match rounds with
  | O => selections
  | S rounds =>
      let next := consolidate guitars selections in
      if decide (next = selections) then selections
      else minimize rounds guitars next
  end.

(** Modelled from the spec: [optimize], absent from the sources; repair,
    then consolidate, then minimize.  A swap removes a singleton, and
    there are no more singletons than strings. *)
Definition optimize
    (guitars : list Guitar) (selections : GuitarSelections)
    : GuitarSelections :=
  let repaired := repair guitars selections in
  let consolidated := consolidate guitars repaired in
  minimize (total_strings guitars) guitars consolidated.

(** *** The application state: [context/AppContext.tsx]

    The state holds the guitars as an array without holes and selections
    whose type is one of the two classes.  The reducer below returns no
    state where the source builds one that is not of this form: a guitar
    written past the end of the array, a default selection for a tag that
    is no class or for a class whose catalog is empty. *)

Record AppState : Type := {
  guitars : list Guitar;
  selections : GuitarSelections;
  globalTargetPlain : Range;
  globalTargetWound : Range;
  loading : bool;
  error : option string;
}.

(** The actions; indices are array indices. *)
Inductive Action : Type :=
  | SET_GUITARS (payload : list Guitar)
  | SET_SELECTIONS (payload : GuitarSelections)
  | UPDATE_GUITAR (index : nat) (guitar : Guitar)
  | UPDATE_STRING_SELECTION
      (guitarIdx stringIdx : nat) (selection : StringSelection)
  | ADD_GUITAR (payload : Guitar)
  | DELETE_GUITAR (payload : nat)
  | SET_GLOBAL_TARGETS (plain wound : Range)
  | APPLY_GLOBAL_TARGETS
  | SET_LOADING (payload : bool)
  | SET_ERROR (payload : option string).

(** A tag of [resolveStringTypes] as the class it names. *)
Definition tag_class (tag : string) : option StringType :=
  if decide (tag = "p") then Some p
  else if decide (tag = "w") then Some w
  else None.

(** The tags of a guitar name a class for each of its strings.  The
    positional default always does. *)
Definition typed_tags (guitar : Guitar) : Prop :=
  ∀ i, (i < n_strings guitar)%nat →
    is_Some
      (resolveStringTypes (string_types guitar) (n_strings guitar) !! i
       ≫= tag_class).

(** The catalogs have a gauge for each class, and no gauge is zero. *)
Definition stocked : Prop :=
  ∀ stype, catalog stype ≠ [] ∧ (0 : Qc) ∉ catalog stype.

(** The body of the loop that [generateDefaultSelections] and the
    [ADD_GUITAR] case share: the recommended gauge for string [i]. *)
Definition default_selection
    (guitar : Guitar) (scales : list number) (types : list string) (i : nat)
    : option StringSelection :=
  let note := note_at (tuning guitar) i in
  let scale := default NaN (scales !! i) in
  stype ← types !! i ≫= tag_class;
  let freq := noteToFreq note in
  let target :=
    match stype with
    | p => target_plain guitar
    | w => target_wound guitar
    end in
  gauge ← recommendGauge stype scale freq target;
  Some {| gauge := Fin gauge; type := stype |}.

Definition default_selections
    (guitar : Guitar) : option (list (option StringSelection)) :=
  let scales := resolveScales (scale guitar) (n_strings guitar) in
  let types := resolveStringTypes (string_types guitar) (n_strings guitar) in
  fmap Some
    <$> mapM (default_selection guitar scales types)
          (seq 0 (n_strings guitar)).

(** The selection that the default loop gives string [i] of a guitar: of
    the class of the string's tag, with the gauge that [recommendGauge]
    returns for the string, a gauge of the catalog of the class. *)
Definition recommended_for
    (guitar : Guitar) (i : nat) (sel : StringSelection) : Prop :=
  resolveStringTypes (string_types guitar) (n_strings guitar) !! i
    ≫= tag_class = Some (type sel)
  ∧ ∃ g, gauge sel = Fin g
         ∧ g ∈ catalog (type sel)
         ∧ recommendGauge (type sel)
             (default NaN
                (resolveScales (scale guitar) (n_strings guitar) !! i))
             (noteToFreq (note_at (tuning guitar) i))
             (match type sel with
              | p => target_plain guitar
              | w => target_wound guitar
              end) = Some g.

(** [generateDefaultSelections] *)
Definition generateDefaultSelections
    (guitars : list Guitar) : option GuitarSelections :=
  foldl
    (λ (selections : option GuitarSelections) (entry : nat * Guitar),
       selections ← selections;
       guitarSelections ← default_selections entry.2;
       Some (<[entry.1 := guitarSelections]> selections))
    (Some ∅) (indexed guitars).

(** [array[i] = x] on a copy of an array of selections: past the end the
    array grows, and the indices in between are holes. *)
Definition write_selection
    (l : list (option StringSelection)) (i : nat) (x : StringSelection)
    : list (option StringSelection) :=
  if decide (i < length l)%nat then <[i := Some x]> l
  else l ++ replicate (i - length l) None ++ [Some x].

(** [guitars[index] = guitar] on a copy of the guitars: at the end the
    array grows by one. *)
Definition write_guitar
    (l : list Guitar) (index : nat) (guitar : Guitar) : option (list Guitar) :=
  if decide (index < length l)%nat then Some (<[index := guitar]> l)
  else if decide (index = length l) then Some (l ++ [guitar])
  else None.

(** The loop of [DELETE_GUITAR] that re-indexes the selections.  An entry
    set to [undefined] reads as a missing one. *)
Definition reindex_selection
    (payload : nat) (old : GuitarSelections)
    (acc : GuitarSelections * nat) (i : nat) : GuitarSelections * nat :=
  let '(newSelections, newIdx) := acc in
  if decide (i ≠ payload)
  then (partial_alter (λ _, old !! i) newIdx newSelections, S newIdx)
  else acc.

(** [reducer] *)
Definition reducer (state : AppState) (action : Action) : option AppState :=
  match action with
  | SET_GUITARS payload =>
      Some {| guitars := payload; selections := selections state;
              globalTargetPlain := globalTargetPlain state;
              globalTargetWound := globalTargetWound state;
              loading := false; error := error state |}
  | SET_SELECTIONS payload =>
      Some {| guitars := guitars state; selections := payload;
              globalTargetPlain := globalTargetPlain state;
              globalTargetWound := globalTargetWound state;
              loading := loading state; error := error state |}
  | UPDATE_GUITAR index guitar =>
      guitars' ← write_guitar (guitars state) index guitar;
      Some {| guitars := guitars'; selections := selections state;
              globalTargetPlain := globalTargetPlain state;
              globalTargetWound := globalTargetWound state;
              loading := loading state; error := error state |}
  | UPDATE_STRING_SELECTION guitarIdx stringIdx selection =>
      let newSelections := selections state in
      let guitarSel := default [] (newSelections !! guitarIdx) in
      let newSelections :=
        <[guitarIdx := write_selection guitarSel stringIdx selection]>
          newSelections in
      Some {| guitars := guitars state; selections := newSelections;
              globalTargetPlain := globalTargetPlain state;
              globalTargetWound := globalTargetWound state;
              loading := loading state; error := error state |}
  | ADD_GUITAR payload =>
      let guitars' := guitars state ++ [payload] in
      let idx := (length guitars' - 1)%nat in
      guitarSelections ← default_selections payload;
      Some {| guitars := guitars';
              selections := <[idx := guitarSelections]> (selections state);
              globalTargetPlain := globalTargetPlain state;
              globalTargetWound := globalTargetWound state;
              loading := loading state; error := error state |}
  | DELETE_GUITAR payload =>
      let guitars' :=
        (filter (λ entry : nat * Guitar, entry.1 ≠ payload)
           (indexed (guitars state))).*2 in
      let newSelections :=
        (foldl (reindex_selection payload (selections state)) (∅, 0%nat)
           (seq 0 (length (guitars state)))).1 in
      Some {| guitars := guitars'; selections := newSelections;
              globalTargetPlain := globalTargetPlain state;
              globalTargetWound := globalTargetWound state;
              loading := loading state; error := error state |}
  | SET_GLOBAL_TARGETS plain wound =>
      Some {| guitars := guitars state; selections := selections state;
              globalTargetPlain := plain; globalTargetWound := wound;
              loading := loading state; error := error state |}
  | APPLY_GLOBAL_TARGETS =>
      let guitars' :=
        (λ g, {| name := name g; n_strings := n_strings g; scale := scale g;
                 tuning := tuning g; string_types := string_types g;
                 target_plain := globalTargetPlain state;
                 target_wound := globalTargetWound state |})
        <$> guitars state in
      Some {| guitars := guitars'; selections := selections state;
              globalTargetPlain := globalTargetPlain state;
              globalTargetWound := globalTargetWound state;
              loading := loading state; error := error state |}
  | SET_LOADING payload =>
      Some {| guitars := guitars state; selections := selections state;
              globalTargetPlain := globalTargetPlain state;
              globalTargetWound := globalTargetWound state;
              loading := payload; error := error state |}
  | SET_ERROR payload =>
      Some {| guitars := guitars state; selections := selections state;
              globalTargetPlain := globalTargetPlain state;
              globalTargetWound := globalTargetWound state;
              loading := false; error := payload |}
  end.

(** The actions that keep a gauge on every string: a guitar replaced by one
    with as many strings, a selection with a gauge written on a string of a
    guitar, a guitar added whose tags name classes while the catalogs are
    stocked, guitars or selections loaded that fit what is there, and the
    actions that touch neither guitars nor selections. *)
Definition keeps_strings (state : AppState) (action : Action) : Prop :=
  match action with
  | SET_GUITARS payload => complete_selections payload (selections state)
  | SET_SELECTIONS payload => complete_selections (guitars state) payload
  | UPDATE_GUITAR index guitar =>
      ∃ old, guitars state !! index = Some old
             ∧ n_strings guitar = n_strings old
  | UPDATE_STRING_SELECTION guitarIdx stringIdx selection =>
      ∃ guitar, guitars state !! guitarIdx = Some guitar
                ∧ (stringIdx < n_strings guitar)%nat
                ∧ Num.truthy (gauge selection) = true
  | ADD_GUITAR payload => typed_tags payload ∧ stocked
  | _ => True
  end.

(** *** The guitar card: [components/GuitarCard.tsx] *)

(** [standardTunings], and the entry for six strings that stands in for a
    count without one. *)
Definition standard_six : list string := ["E4"; "B3"; "G3"; "D3"; "A2"; "E2"].

Definition standardTunings : gmap nat (list string) :=
  list_to_map
    [(4%nat, ["G3"; "D3"; "A2"; "E2"]);
     (5%nat, ["G3"; "D3"; "A2"; "E2"; "B1"]);
     (6%nat, standard_six);
     (7%nat, ["E4"; "B3"; "G3"; "D3"; "A2"; "E2"; "B1"]);
     (8%nat, ["E4"; "B3"; "G3"; "D3"; "A2"; "E2"; "B1"; "F#1"])].

(** [standard[newTuning.length] || 'E2'] *)
Definition standard_note (standard : list string) (i : nat) : string :=
  match standard !! i with
  | Some note => if decide (note = "") then "E2" else note
  | None => "E2"
  end.

(** [newTuning] of [handleNStringsChange]: the tuning cut to the new
    number of strings, or filled up to it from the standard tuning. *)
Definition resize_tuning
    (currentTuning : list string) (newNStrings : nat) : list string :=
  if decide (newNStrings < length currentTuning)%nat then
    take newNStrings currentTuning
  else if decide (length currentTuning < newNStrings)%nat then
    let standard := default standard_six (standardTunings !! newNStrings) in
    currentTuning ++
      (standard_note standard
       <$> seq (length currentTuning) (newNStrings - length currentTuning))
  else currentTuning.

(** [{ ...guitar, n_strings: newNStrings, tuning: newTuning }] *)
Definition resize_guitar (guitar : Guitar) (newNStrings : nat) : Guitar :=
  let newTuning := resize_tuning (tuning guitar) newNStrings in
  {| name := name guitar; n_strings := newNStrings; scale := scale guitar;
     tuning := newTuning; string_types := string_types guitar;
     target_plain := target_plain guitar;
     target_wound := target_wound guitar |}.

(** [handleNStringsChange] on the card of the guitar at [index], as the
    state after its dispatches: the guitar with the new count and tuning,
    then a selection for every index from the number of selections of the
    card up to the new count.  There is no card for an index without a
    guitar. *)
Definition handleNStringsChange
    (state : AppState) (index : nat) (newNStrings : nat) : option AppState :=
  guitar ← guitars state !! index;
  let cardSelections := default [] (selections state !! index) in
  let updated := resize_guitar guitar newNStrings in
  state ← reducer state (UPDATE_GUITAR index updated);
  let newScales := resolveScales (scale guitar) newNStrings in
  let newTypes := resolveStringTypes (string_types guitar) newNStrings in
  foldl
    (λ (state : option AppState) (i : nat),
       state ← state;
       selection ← default_selection updated newScales newTypes i;
       reducer state (UPDATE_STRING_SELECTION index i selection))
    (Some state)
    (seq (length cardSelections) (newNStrings - length cardSelections)).

(** [totalTension]: the sum over the selections of the card that have a
    gauge. *)
Definition add_tension
    (guitar : Guitar) (scales : list number)
    (sum : number) (entry : nat * option StringSelection) : number :=
  let '(i, sel) := entry in
  match sel with
  | None => sum
  | Some sel =>
      if negb (Num.truthy (gauge sel)) then sum else
      let note := note_at (tuning guitar) i in
      let scale := default NaN (scales !! i) in
      let freq := noteToFreq note in
      (sum + calcTension (gauge sel) (type sel) scale freq)%J
  end.

Definition totalTension
    (guitar : Guitar) (cardSelections : list (option StringSelection))
    : number :=
  let scales := resolveScales (scale guitar) (n_strings guitar) in
  foldl (add_tension guitar scales) (dec 0) (indexed cardSelections).

End Engine.

(** ** An instance to run the definitions on

    The tables of [constants.ts] are parameters above.  This instance gives
    every table a value so that the functions above can be evaluated: the
    pitch tables as the specification describes them, a short catalog for
    each class, and a [Math.pow] that is exact on the exponent 2 and on
    whole octaves and rounds the twelve semitone ratios to six decimals. *)

Module Sample.

Definition semitone_ratios : list Q :=
  [1; 1.059463; 1.122462; 1.189207; 1.259921; 1.334840;
   1.414214; 1.498307; 1.587401; 1.681793; 1.781797; 1.887749]%Q.

Definition semitone_ratio (k : Z) : Q :=
  default 1%Q (semitone_ratios !! Z.to_nat k).

(** [2^e] for an exponent that is a whole number of twelfths. *)
Definition pow2 (e : Qc) : number :=
  let k := Qred (e * 12)%Q in
  if decide (Qden k = 1%positive) then
    dec (Qpower 2 (Qnum k / 12) * semitone_ratio (Qnum k mod 12))%Q
  else NaN.

Definition Math_pow (x y : number) : number :=
  match y with
  | Fin e =>
      if decide (e = Q2Qc 2) then (x * x)%J
      else match x with
           | Fin b => if decide (b = Q2Qc 2) then pow2 e else NaN
           | _ => NaN
           end
  | _ => NaN
  end.

(** Modelled from the spec: [A4], absent from the sources; the reference
    pitch is 440 Hz. *)
Definition A4 : number := dec 440.

(** Modelled from the spec: [NOTE_INDEX], absent from the sources; the
    pitch class index of a sharp note name relative to A, so that "A4"
    is zero semitones away from the reference. *)
Definition NOTE_INDEX : gmap string Qc :=
  list_to_map
    ((λ e : string * Z, (e.1, Qc_of_Z e.2)) <$>
     [("C", -9); ("C#", -8); ("D", -7); ("D#", -6); ("E", -5); ("F", -4);
      ("F#", -3); ("G", -2); ("G#", -1); ("A", 0); ("A#", 1); ("B", 2)]%Z).

(** Modelled from the spec: [FLAT_TO_SHARP], absent from the sources; the
    enharmonic table that spells every flat as a sharp. *)
Definition FLAT_TO_SHARP : gmap string string :=
  list_to_map
    [("Db", "C#"); ("Eb", "D#"); ("Gb", "F#"); ("Ab", "G#"); ("Bb", "A#")].

Definition table (l : list (Q * Q)) : gmap Qc Qc :=
  list_to_map ((λ e : Q * Q, (Q2Qc e.1, Q2Qc e.2)) <$> l).

Definition plain_entries : list (Q * Q) :=
  [(0.009, 0.00001794); (0.010, 0.00002215); (0.011, 0.00002680);
   (0.013, 0.00003744); (0.017, 0.00006402)]%Q.

Definition wound_entries : list (Q * Q) :=
  [(0.026, 0.00012671); (0.036, 0.00023964); (0.046, 0.00038216)]%Q.

Definition PLAIN_UNIT_WEIGHTS : gmap Qc Qc := table plain_entries.
Definition WOUND_UNIT_WEIGHTS : gmap Qc Qc := table wound_entries.
Definition PLAIN_GAUGES : list Qc := (λ e, Q2Qc e.1) <$> plain_entries.
Definition WOUND_GAUGES : list Qc := (λ e, Q2Qc e.1) <$> wound_entries.

Definition noteToFreq : string → number :=
  noteToFreq Math_pow A4 NOTE_INDEX FLAT_TO_SHARP.

Definition noteToFreq_call : string → Completion :=
  noteToFreq_call Math_pow A4 NOTE_INDEX FLAT_TO_SHARP.

Definition frequency_of : string → number → number :=
  frequency_of Math_pow A4 NOTE_INDEX FLAT_TO_SHARP.

Definition recognized : string → Prop :=
  recognized NOTE_INDEX FLAT_TO_SHARP.

Definition calcTension : number → StringType → number → number → number :=
  calcTension Math_pow PLAIN_UNIT_WEIGHTS WOUND_UNIT_WEIGHTS.

Definition recommendGauge
    : StringType → number → number → Range → option Qc :=
  recommendGauge Math_pow PLAIN_UNIT_WEIGHTS WOUND_UNIT_WEIGHTS
    PLAIN_GAUGES WOUND_GAUGES.

Definition buildGaugeUsages
    : list Guitar → GuitarSelections → list GaugeUsageWithSwap :=
  buildGaugeUsages Math_pow A4 NOTE_INDEX FLAT_TO_SHARP
    PLAIN_UNIT_WEIGHTS WOUND_UNIT_WEIGHTS.

Definition repair : list Guitar → GuitarSelections → GuitarSelections :=
  repair Math_pow A4 NOTE_INDEX FLAT_TO_SHARP
    PLAIN_UNIT_WEIGHTS WOUND_UNIT_WEIGHTS PLAIN_GAUGES WOUND_GAUGES.

Definition optimize : list Guitar → GuitarSelections → GuitarSelections :=
  optimize Math_pow A4 NOTE_INDEX FLAT_TO_SHARP
    PLAIN_UNIT_WEIGHTS WOUND_UNIT_WEIGHTS PLAIN_GAUGES WOUND_GAUGES.

(** The six-string guitar of the specification's scenario, and a
    two-string one. *)
Definition six_string : Guitar :=
  {| name := "six"; n_strings := 6; scale := Single (dec 25.5);
     tuning := ["E4"; "B3"; "G3"; "D3"; "A2"; "E2"]; string_types := None;
     target_plain := (dec 13, dec 15.5);
     target_wound := (dec 16, dec 20) |}.

Definition two_string : Guitar :=
  {| name := "two"; n_strings := 2; scale := Single (dec 25.5);
     tuning := ["E4"; "B3"]; string_types := None;
     target_plain := (dec 13, dec 15.5);
     target_wound := (dec 16, dec 20) |}.

Definition plain (g : Q) : option StringSelection :=
  Some {| gauge := dec g; type := p |}.

Definition generateDefaultSelections
    : list Guitar → option GuitarSelections :=
  generateDefaultSelections Math_pow A4 NOTE_INDEX FLAT_TO_SHARP
    PLAIN_UNIT_WEIGHTS WOUND_UNIT_WEIGHTS PLAIN_GAUGES WOUND_GAUGES.

Definition reducer : AppState → Action → option AppState :=
  reducer Math_pow A4 NOTE_INDEX FLAT_TO_SHARP
    PLAIN_UNIT_WEIGHTS WOUND_UNIT_WEIGHTS PLAIN_GAUGES WOUND_GAUGES.

Definition handleNStringsChange : AppState → nat → nat → option AppState :=
  handleNStringsChange Math_pow A4 NOTE_INDEX FLAT_TO_SHARP
    PLAIN_UNIT_WEIGHTS WOUND_UNIT_WEIGHTS PLAIN_GAUGES WOUND_GAUGES.

Definition totalTension
    : Guitar → list (option StringSelection) → number :=
  totalTension Math_pow A4 NOTE_INDEX FLAT_TO_SHARP
    PLAIN_UNIT_WEIGHTS WOUND_UNIT_WEIGHTS.

(** A state that is loaded, with the targets of the sample guitars. *)
Definition state_of
    (guitars : list Guitar) (selections : GuitarSelections) : AppState :=
  {| guitars := guitars; selections := selections;
     globalTargetPlain := (dec 13, dec 15.5);
     globalTargetWound := (dec 16, dec 20);
     loading := false; error := None |}.

(** A guitar whose third note is no note. *)
Definition odd_note : Guitar :=
  {| name := "odd"; n_strings := 3; scale := Single (dec 25.5);
     tuning := ["E4"; "B3"; "X4"]; string_types := None;
     target_plain := (dec 13, dec 15.5);
     target_wound := (dec 16, dec 20) |}.

(** Three plain strings, two of them with the same gauge. *)
Definition two_and_one : GuitarSelections :=
  {[ 0%nat := [plain 0.010; plain 0.010; plain 0.011] ]}.

(** Two strings with a gauge each. *)
Definition one_each : GuitarSelections :=
  {[ 0%nat := [plain 0.009; plain 0.013] ]}.

(** The group at a position of an inventory, its swap and its first
    usage, for an inventory that has them. *)
Definition group_at
    (groups : list GaugeUsageWithSwap) (i : nat) : GaugeUsageWithSwap :=
  default {| g_gauge := NaN; g_type := p; count := 0; usages := [];
             swapOption := None |} (groups !! i).

Definition swap_of (u : GaugeUsageWithSwap) : SwapOption :=
  default {| s_gauge := NaN; newTension := NaN; currentTension := NaN;
             tensionShift := NaN; direction := down; targetMin := NaN;
             targetMax := NaN; inRange := false; requiredBound := None |}
    (swapOption u).

Definition usage_of (u : GaugeUsageWithSwap) : UsageInfo :=
  default {| guitarIdx := 0; guitarName := ""; stringIdx := 0;
             u_scale := NaN; u_freq := NaN; u_target := (NaN, NaN) |}
    (head (usages u)).

End Sample.

(** * Properties *)

(** ** Rationals in lowest terms, through plain rationals *)

Lemma this_Q2Qc (q : Q) : (this (Q2Qc q) == q)%Q.
Proof. apply Qred_correct. Qed.

Global Instance Q2Qc_proper : Proper (Qeq ==> eq) Q2Qc.
Proof. intros x y H. apply Qc_is_canon. by rewrite !this_Q2Qc. Qed.

Lemma Qc_eq_Qeq (a b : Qc) : a = b ↔ (this a == this b)%Q.
Proof. split; [by intros -> | apply Qc_is_canon]. Qed.

(** Turns a goal on [Qc] into one on [Q] that [lra] and [nra] read. *)
Ltac qc_unfold :=
  rewrite ?Qc_eq_Qeq in *;
  unfold Qcdiv, Qcminus, Qcinv, Qcopp, Qcmult, Qcplus, Qcle, Qclt, Qc_of_Z in *;
  repeat match goal with
  | H : context [this (Q2Qc _)] |- _ => setoid_rewrite this_Q2Qc in H
  | |- context [this (Q2Qc _)] => setoid_rewrite this_Q2Qc
  end;
  cbn [this] in *.



(** ** Numbers *)

Global Arguments Num.add : simpl never.
Global Arguments Num.sub : simpl never.
Global Arguments Num.mul : simpl never.
Global Arguments Num.div : simpl never.
Global Arguments Num.abs : simpl never.
Global Arguments Num.lt : simpl never.
Global Arguments Num.le : simpl never.

Lemma add_Fin (a b : Qc) : (Fin a + Fin b)%J = Fin (a + b).
Proof. done. Qed.

Lemma sub_Fin (a b : Qc) : (Fin a - Fin b)%J = Fin (a - b).
Proof. done. Qed.

Lemma mul_Fin (a b : Qc) : (Fin a * Fin b)%J = Fin (a * b).
Proof. done. Qed.

Lemma mul_NaN_r (x : number) : (x * NaN)%J = NaN.
Proof. by destruct x. Qed.

Lemma add_NaN_r (x : number) : (x + NaN)%J = NaN.
Proof. by destruct x. Qed.

Lemma div_Fin (a b : Qc) : b ≠ 0 → (Fin a / Fin b)%J = Fin (a / b).
Proof. intros Hb. unfold Num.div. by destruct (decide (b = 0)). Qed.

Lemma Q2Qc_ne_0 (q : Q) : ¬ (q == 0)%Q → Q2Qc q ≠ 0.
Proof. intros Hq E. apply Hq. qc_unfold. by rewrite <- E. Qed.

Lemma gravity_ne_0 : Q2Qc 386.4 ≠ 0.
Proof. by apply Q2Qc_ne_0. Qed.

Lemma two_ne_0 : Q2Qc 2 ≠ 0.
Proof. by apply Q2Qc_ne_0. Qed.

(** ** Scale resolution *)

Lemma resolveScales_length (scale : Scale) (nStrings : nat) :
  length (resolveScales scale nStrings) = nStrings.
Proof.
  destruct scale; simpl.
  - apply length_replicate.
  - by rewrite length_fmap, length_seq.
Qed.





(** The pair of the specification's example on binary64 numbers: the ends
    are 25.5 and 27, and the lengths do not decrease. *)
#[warnings="-inexact-float"]
Example resolveScales_binary64_example :
  let scales := resolveScales_binary64 25.5 27 6 in
  scales !! 0%nat = Some 25.5%float
  ∧ scales !! 5%nat = Some 27%float
  ∧ (∀ i x y, scales !! i = Some x → scales !! S i = Some y →
       PrimFloat.leb x y = true).
Proof.
  intros scales. split; [by vm_compute|]. split; [by vm_compute|].
  intros i x y Hx Hy.
  do 5 (destruct i as [|i];
        [vm_compute in Hx, Hy; injection Hx as <-; injection Hy as <-;
         by vm_compute|]).
  destruct i as [|i]; [by vm_compute in Hy | by vm_compute in Hx].
Qed.

(** C8: a pair with one string.  The interpolation divides zero by zero:
    the only length returned is [NaN], not the treble length. *)
Theorem resolveScales_pair_one_string (t b : Qc) :
  resolveScales (Multi (Fin t) (Fin b)) 1 = [NaN]
  ∧ resolveScales (Multi (Fin t) (Fin b)) 1 ≠ [Fin t].
Proof.
  assert (resolveScales (Multi (Fin t) (Fin b)) 1 = [NaN]) as E.
  { unfold resolveScales. simpl. unfold of_nat, dec.
    rewrite sub_Fin, sub_Fin, mul_Fin. unfold Num.div.
    destruct (decide (_ = 0)) as [_|Hne].
    - destruct (decide (_ = 0)) as [_|Hne]; [done|].
      exfalso. apply Hne. qc_unfold.
      change (inject_Z (Z.of_nat 0)) with 0%Q. lra.
    - exfalso. apply Hne. by apply Qc_is_canon. }
  split; [done|]. by rewrite E.
Qed.

(** ** Class resolution *)

Lemma default_tags_wound (k n : nat) :
  (3 ≤ k)%nat →
  (λ i : nat, if (i <? 3)%nat then "p" else "w") <$> seq k n
  = replicate n "w".
Proof.
  revert k. induction n as [|n IH]; intros k Hk; [done|].
  simpl. rewrite IH by lia.
  by destruct (Nat.ltb_spec k 3); [lia|].
Qed.

(** C9, as the code has it: an override is returned as it is, with the
    length it has; without one the result has exactly N tags, plain on the
    positions 0, 1, 2 and wound from position 3 on. *)
Theorem resolveStringTypes_spec (n : nat) :
  (∀ override, resolveStringTypes (Some override) n = override)
  ∧ length (resolveStringTypes None n) = n
  ∧ resolveStringTypes None n =
      replicate (n `min` 3) "p" ++ replicate (n - 3) "w".
Proof.
  split; [done|]. split.
  { unfold resolveStringTypes. by rewrite length_fmap, length_seq. }
  unfold resolveStringTypes.
  destruct n as [|[|[|n]]]; try done. simpl. do 3 f_equal.
  rewrite Nat.sub_0_r, Nat.min_0_r. apply default_tags_wound. lia.
Qed.

(** An override shorter than the string count comes back as it is: the
    result does not have N tags. *)
Lemma resolveStringTypes_short_override :
  length (resolveStringTypes (Some ["p"]) 6) ≠ 6%nat.
Proof. by compute. Qed.

(** ** Strings *)

Lemma substring_prefix (s t : string) :
  String.substring 0 (String.length s) (s ++ t) = s.
Proof. induction s as [|c s IH]; simpl; [by destruct t | by rewrite IH]. Qed.

Lemma substring_all (t : string) :
  String.substring 0 (String.length t) t = t.
Proof. induction t as [|c t IH]; simpl; [done | by rewrite IH]. Qed.

Lemma substring_suffix (s t : string) :
  String.substring (String.length s) (String.length t) (s ++ t) = t.
Proof. induction s as [|c s IH]; simpl; [apply substring_all | done]. Qed.

Lemma length_snoc (s : string) (c : Ascii.ascii) :
  String.length (s ++ String c "") = S (String.length s).
Proof. induction s as [|c' s IH]; simpl; [done | by rewrite IH]. Qed.

Lemma clamp_last (n : nat) : Str.clamp (S n) (-1) = n.
Proof. unfold Str.clamp. change (-1 <? 0)%Z with true. cbv iota. lia. Qed.

(** [note.slice(0, -1)] is the token without its last character. *)
Lemma slice_init (s : string) (c : Ascii.ascii) :
  Str.slice (s ++ String c "") 0 (Some (-1)%Z) = s.
Proof.
  unfold Str.slice. rewrite length_snoc, clamp_last.
  change (Str.clamp _ 0) with 0%nat. rewrite Nat.sub_0_r.
  apply substring_prefix.
Qed.

(** [note.slice(-1)] is the last character of the token. *)
Lemma slice_last (s : string) (c : Ascii.ascii) :
  Str.slice (s ++ String c "") (-1) None = String c "".
Proof.
  unfold Str.slice. rewrite length_snoc, clamp_last.
  replace (S (String.length s) - String.length s)%nat
    with (String.length (String c "")) by (simpl; lia).
  apply substring_suffix.
Qed.

(** [parseInt] of one character: the digit it is, or [NaN]. *)
Lemma parseInt_char (c : Ascii.ascii) :
  Str.parseInt (String c "") =
    match Str.digit c with
    | Some d => Fin (Qc_of_Z d)
    | None => NaN
    end.
Proof. by destruct c as [[] [] [] [] [] [] [] []]. Qed.

Lemma sample_pow_NaN (x : number) : Sample.Math_pow x NaN = NaN.
Proof. done. Qed.

Lemma sample_pow_square (x : number) : Sample.Math_pow x (dec 2) = (x * x)%J.
Proof. unfold Sample.Math_pow, dec. by destruct (decide _). Qed.

(** ** The order of numbers away from [NaN] *)

Lemma lt_false_le (x y : number) :
  x ≠ NaN → y ≠ NaN → (x <? y)%J = false → (y <=? x)%J = true.
Proof.
  destruct x, y; try done; unfold Num.lt, Num.le; intros _ _.
  rewrite bool_decide_eq_false, bool_decide_eq_true. apply Qcnot_lt_le.
Qed.

Lemma lt_le_trans (x y z : number) :
  (x <? y)%J = true → (y <=? z)%J = true → (x <? z)%J = true.
Proof.
  destruct x, y, z; try done; unfold Num.lt, Num.le.
  rewrite !bool_decide_eq_true. apply Qclt_le_trans.
Qed.

Lemma le_trans (x y z : number) :
  (x <=? y)%J = true → (y <=? z)%J = true → (x <=? z)%J = true.
Proof.
  destruct x, y, z; try done; unfold Num.le.
  rewrite !bool_decide_eq_true. apply Qcle_trans.
Qed.

Lemma le_refl (x : number) : x ≠ NaN → (x <=? x)%J = true.
Proof.
  destruct x; try done; unfold Num.le. intros _.
  rewrite bool_decide_eq_true. apply Qcle_refl.
Qed.

Lemma lt_le (x y : number) : (x <? y)%J = true → (x <=? y)%J = true.
Proof.
  destruct x, y; try done; unfold Num.lt, Num.le.
  rewrite !bool_decide_eq_true. apply Qclt_le_weak.
Qed.

Lemma lt_irrefl (x : number) : (x <? x)%J = false.
Proof.
  destruct x; try done; unfold Num.lt.
  rewrite bool_decide_eq_false. intros H. by apply Qclt_not_eq in H.
Qed.

Lemma lt_not_NaN (x y : number) : (x <? y)%J = true → x ≠ NaN.
Proof. by destruct x. Qed.

(** ** Scanning a list for the first strictly smallest key

    Both searches of [recommendGauge] keep a best entry and its error, and
    replace them when an entry has a strictly smaller error. *)

Section Scan.

Context {A B : Type} (key : A → number) (out : A → B).

(** The result of a scan is the start value when no key is below the start
    error; otherwise it is the first entry whose key is strictly below the
    start error and below or equal to every key, strictly so for the keys
    before it. *)
Lemma scan_first_min (l : list A) (b0 : B) (e0 : number) :
  e0 ≠ NaN → (∀ x, x ∈ l → key x ≠ NaN) →
  let r := foldl (scan_step key out) (b0, e0) l in
  (r.2 <=? e0)%J = true
  ∧ (∀ x, x ∈ l → (r.2 <=? key x)%J = true)
  ∧ ((r = (b0, e0) ∧ ∀ x, x ∈ l → (key x <? e0)%J = false)
     ∨ (∃ pre x post,
          l = pre ++ x :: post ∧ r = (out x, key x)
          ∧ (key x <? e0)%J = true
          ∧ ∀ y, y ∈ pre → (key x <? key y)%J = true)).
Proof.
  intros He0. induction l as [|x l IH] using rev_ind; intros Hkeys r.
  { split; [by apply le_refl|]. split; [by intros x Hx%elem_of_nil|].
    left. split; [done|]. by intros x Hx%elem_of_nil. }
  assert (∀ y, y ∈ l → key y ≠ NaN) as Hl.
  { intros y Hy. apply Hkeys. apply elem_of_app. by left. }
  assert (key x ≠ NaN) as Hx.
  { apply Hkeys. apply elem_of_app. right. by apply list_elem_of_singleton. }
  destruct (IH Hl) as (Hle0 & Hmin & Hcases). clear IH.
  subst r. rewrite foldl_app. simpl.
  set (r := foldl (scan_step key out) (b0, e0) l) in *.
  assert (r.2 ≠ NaN) as Hr.
  { destruct Hcases as [[-> _] | (pre & y & post & _ & -> & Hy & _)];
      [done | by apply lt_not_NaN in Hy]. }
  destruct (key x <? r.2)%J eqn:Hlt.
  - assert (scan_step key out r x = (out x, key x)) as ->
      by (unfold scan_step; by rewrite Hlt).
    simpl. split; [apply lt_le; eapply lt_le_trans; [exact Hlt | exact Hle0]|]. split.
    + intros y [Hy | ->%list_elem_of_singleton]%elem_of_app.
      * apply lt_le. eapply lt_le_trans; [exact Hlt | by apply Hmin].
      * by apply le_refl.
    + right. exists l, x, []. split; [done|]. split; [done|].
      split; [eapply lt_le_trans; [exact Hlt | exact Hle0]|].
      intros y Hy. eapply lt_le_trans; [exact Hlt | by apply Hmin].
  - assert (scan_step key out r x = r) as ->
      by (unfold scan_step; by rewrite Hlt).
    apply lt_false_le in Hlt; [|done..].
    split; [done|]. split.
    + intros y [Hy | ->%list_elem_of_singleton]%elem_of_app;
        [by apply Hmin | done].
    + destruct Hcases as [[Hr0 Hnone] | (pre & y & post & -> & Hry & Hy & Hpre)].
      * left. split; [done|].
        intros y [Hy | ->%list_elem_of_singleton]%elem_of_app;
          [by apply Hnone|].
        rewrite Hr0 in Hlt. simpl in Hlt.
        destruct (key x <? e0)%J eqn:E; [|done].
        pose proof (lt_le_trans _ _ _ E Hlt) as Hxx.
        by rewrite lt_irrefl in Hxx.
      * right. exists pre, y, (post ++ [x]).
        by rewrite <- app_assoc.
Qed.

End Scan.

(** A split of a filtered list comes from a split of the list. *)
Lemma filter_split_lists {A} (P : A → Prop) `{!∀ x, Decision (P x)}
    (l pre post : list A) (x : A) :
  filter P l = pre ++ x :: post →
  ∃ pre' post',
    l = pre' ++ x :: post' ∧ filter P pre' = pre ∧ filter P post' = post.
Proof.
  revert pre. induction l as [|y l IH]; intros pre Hl.
  { by destruct pre. }
  rewrite filter_cons in Hl. destruct (decide (P y)) as [Hy|Hy].
  - destruct pre as [|z pre]; simpl in Hl; injection Hl as <- Hl.
    + exists [], l. by rewrite filter_nil.
    + destruct (IH pre Hl) as (pre' & post' & -> & <- & <-).
      exists (y :: pre'), post'. by rewrite filter_cons_True.
  - destruct (IH pre Hl) as (pre' & post' & -> & <- & <-).
    exists (y :: pre'), post'. by rewrite filter_cons_False.
Qed.

Lemma filter_split {A} (P : A → Prop) `{!∀ x, Decision (P x)}
    (l pre post : list A) (x : A) :
  filter P l = pre ++ x :: post →
  ∃ pre' post',
    l = pre' ++ x :: post' ∧ filter P pre' = pre ∧ filter P post' = post
    ∧ P x.
Proof.
  intros Hl. assert (P x) as Hx.
  { assert (x ∈ filter P l) as Hin.
    { rewrite Hl. apply elem_of_app. right. apply list_elem_of_here. }
    by apply list_elem_of_filter in Hin as [? _]. }
  apply filter_split_lists in Hl as (pre' & post' & ? & ? & ?).
  by exists pre', post'.
Qed.

Lemma filter_none {A} (P : A → Prop) `{!∀ x, Decision (P x)} (l : list A) :
  (∀ x, x ∈ l → ¬ P x) → filter P l = [].
Proof.
  induction l as [|x l IH]; intros Hl; [done|].
  rewrite filter_cons_False by (apply Hl, list_elem_of_here).
  apply IH. intros y Hy. by apply Hl, list_elem_of_further.
Qed.

Lemma filter_all {A} (P : A → Prop) `{!∀ x, Decision (P x)} (l : list A) :
  (∀ x, x ∈ l → P x) → filter P l = l.
Proof.
  induction l as [|x l IH]; intros Hl; [done|].
  rewrite filter_cons_True by (apply Hl, list_elem_of_here).
  f_equal. apply IH. intros y Hy. by apply Hl, list_elem_of_further.
Qed.

Lemma foldl_ext {A B} (f g : A → B → A) (a : A) (l : list B) :
  (∀ a x, f a x = g a x) → foldl f a l = foldl g a l.
Proof.
  intros Hfg. revert a. induction l as [|x l IH]; intros a; [done|].
  simpl. by rewrite Hfg, IH.
Qed.

Section EngineFacts.

Variable Math_pow : number → number → number.
Hypothesis Math_pow_NaN : ∀ x, Math_pow x NaN = NaN.
Hypothesis Math_pow_square : ∀ x, Math_pow x (dec 2) = (x * x)%J.

Variable A4 : number.
Variable NOTE_INDEX : gmap string Qc.
Variable FLAT_TO_SHARP : gmap string string.
Variable PLAIN_UNIT_WEIGHTS WOUND_UNIT_WEIGHTS : gmap Qc Qc.
Variable PLAIN_GAUGES WOUND_GAUGES : list Qc.

Local Abbreviation noteToFreq :=
  (noteToFreq Math_pow A4 NOTE_INDEX FLAT_TO_SHARP).
Local Abbreviation noteToFreq_call :=
  (noteToFreq_call Math_pow A4 NOTE_INDEX FLAT_TO_SHARP).
Local Abbreviation frequency_of :=
  (frequency_of Math_pow A4 NOTE_INDEX FLAT_TO_SHARP).
Local Abbreviation recognized := (recognized NOTE_INDEX FLAT_TO_SHARP).
Local Abbreviation unit_weights :=
  (unit_weights PLAIN_UNIT_WEIGHTS WOUND_UNIT_WEIGHTS).
Local Abbreviation catalog := (catalog PLAIN_GAUGES WOUND_GAUGES).
Local Abbreviation tensionFromMu := (tensionFromMu Math_pow).
Local Abbreviation calcTension :=
  (calcTension Math_pow PLAIN_UNIT_WEIGHTS WOUND_UNIT_WEIGHTS).

(** *** Pitch *)

Lemma noteToFreq_cut (note : string) :
  noteToFreq note =
    frequency_of (Str.slice note 0 (Some (-1)%Z))
      (Str.parseInt (Str.slice note (-1) None)).
Proof.
  unfold noteToFreq, frequency_of.
  by destruct (FLAT_TO_SHARP !! _).
Qed.

Lemma frequency_of_NaN (name : string) : frequency_of name NaN = NaN.
Proof.
  unfold frequency_of. cbv zeta.
  change (NaN - dec 4)%J with NaN. change (NaN * dec 12)%J with NaN.
  rewrite add_NaN_r. change (NaN / dec 12)%J with NaN.
  by rewrite Math_pow_NaN, mul_NaN_r.
Qed.

Lemma frequency_of_unrecognized (name : string) (octave : number) :
  ¬ recognized name → frequency_of name octave = NaN.
Proof.
  unfold recognized, frequency_of. cbv zeta.
  intros Hname. apply eq_None_not_Some in Hname. rewrite Hname.
  change (to_number None) with NaN.
  assert (∀ x y, (NaN + x) / y = NaN)%J as -> by (by intros [] []).
  by rewrite Math_pow_NaN, mul_NaN_r.
Qed.

(** C4, as the code has it: a token whose name part is not recognized,
    or whose octave part does not parse as an integer, is no error.  The
    call returns, and the value it returns is [NaN]. *)
Theorem noteToFreq_invalid_note (note : string) :
  ¬ recognized (Str.slice note 0 (Some (-1)%Z))
  ∨ Str.parseInt (Str.slice note (-1) None) = NaN →
  noteToFreq_call note = Returns NaN.
Proof.
  unfold noteToFreq_call. rewrite noteToFreq_cut.
  intros [Hname | ->]; f_equal.
  - by apply frequency_of_unrecognized.
  - apply frequency_of_NaN.
Qed.

(** C10: the octave of a token is its last character alone, and the note
    name is everything before it.  The frequency of a token [name c] is
    the frequency of the name [name] at the octave that the one
    character [c] spells: the digit it is, or [NaN]. *)
Theorem noteToFreq_octave_is_last_char (name : string) (c : Ascii.ascii) :
  noteToFreq (name ++ String c "") =
    frequency_of name (Str.parseInt (String c ""))
  ∧ Str.parseInt (String c "") =
      match Str.digit c with
      | Some d => Fin (Qc_of_Z d)
      | None => NaN
      end.
Proof.
  split; [|apply parseInt_char].
  by rewrite noteToFreq_cut, slice_init, slice_last.
Qed.

(** *** Tension *)

Lemma tensionFromMu_Fin (mu s f : Qc) :
  tensionFromMu (Fin mu) (Fin s) (Fin f) =
    Fin ((Q2Qc 2 * s * f) ^ 2 * mu / Q2Qc 386.4).
Proof.
  unfold tensionFromMu. rewrite Math_pow_square. unfold dec.
  rewrite !mul_Fin, div_Fin by apply gravity_ne_0.
  f_equal. unfold Qcpower. by rewrite Qcmult_1_r.
Qed.

Lemma or_default_zero (mu : Qc) : or_default (Some mu) (dec 0) = Fin mu.
Proof.
  unfold or_default, Num.truthy. case_bool_decide as Hmu; [done|].
  destruct (decide (mu = 0)) as [->|]; [done | by destruct Hmu].
Qed.

(** C2: for a gauge of the class's table, [calcTension] is the formula
    (2 * scale * freq)^2 * mu / 386.4 on the unit weight mu that the
    table holds for the gauge — as an expression on numbers, and as a
    value when scale and frequency are finite. *)
Theorem calcTension_formula (stype : StringType) (g mu : Qc) :
  unit_weights stype !! g = Some mu →
  (∀ scale freq : number,
     calcTension (Fin g) stype scale freq =
       ((dec 2 * scale * freq) * (dec 2 * scale * freq) * Fin mu
        / dec 386.4)%J)
  ∧ (∀ s f : Qc,
       calcTension (Fin g) stype (Fin s) (Fin f) =
         Fin ((Q2Qc 2 * s * f) ^ 2 * mu / Q2Qc 386.4)).
Proof.
  intros Hmu. unfold calcTension. cbv zeta.
  unfold lookup_gauge. rewrite Hmu, or_default_zero. split.
  - intros scale freq. unfold tensionFromMu.
    by rewrite Math_pow_square.
  - intros s f. apply tensionFromMu_Fin.
Qed.



(** A frequency that is not a number makes the tension [NaN], for any
    gauge: the zero of a missing gauge is the zero of a product. *)
Remark calcTension_NaN_freq
    (gauge : number) (stype : StringType) (scale : number) :
  calcTension gauge stype scale NaN = NaN.
Proof.
  unfold calcTension, tensionFromMu.
  by rewrite mul_NaN_r, Math_pow_square.
Qed.

(** *** The recommender *)

Local Abbreviation recommendGauge :=
  (recommendGauge Math_pow PLAIN_UNIT_WEIGHTS WOUND_UNIT_WEIGHTS
     PLAIN_GAUGES WOUND_GAUGES).

Section Recommend.

Variable stype : StringType.
Variables scale freq : number.
Variables minT maxT : Qc.

(** The tension of a catalog gauge in the context of the call, its distance
    to the midpoint of the target, and whether it is in the target. *)
Let tension (g : Qc) : number :=
  tensionFromMu (to_number (unit_weights stype !! g)) scale freq.
Let midpoint : number := ((Fin minT + Fin maxT) / dec 2)%J.
Let error (g : Qc) : number := Num.abs (tension g - midpoint)%J.
Let in_range (g : Qc) : bool := isInRange (tension g) (Fin minT, Fin maxT).

Lemma midpoint_Fin : midpoint = Fin ((minT + maxT) / Q2Qc 2).
Proof.
  unfold midpoint, dec. rewrite add_Fin. apply div_Fin, two_ne_0.
Qed.

Lemma in_range_finite (g : Qc) :
  in_range g = true → ∃ t, tension g = Fin t.
Proof.
  unfold in_range, isInRange, Num.ge. simpl.
  destruct (tension g); try done. by eexists.
Qed.

Lemma error_not_NaN (g : Qc) : (∃ t, tension g = Fin t) → error g ≠ NaN.
Proof. intros [t Ht]. unfold error. by rewrite Ht, midpoint_Fin. Qed.

(** The first loop keeps, in catalog order, the gauges that are in range. *)
Lemma collect_in_range_filter (acc : list (Qc * number)) (gauges : list Qc) :
  foldl (collect_in_range Math_pow (unit_weights stype) scale freq
           (Fin minT) (Fin maxT)) acc gauges
  = acc ++ ((λ g, (g, tension g)) <$> filter (λ g, in_range g = true) gauges).
Proof.
  revert acc. induction gauges as [|g gauges IH]; intros acc.
  { by rewrite filter_nil, app_nil_r. }
  cbn [foldl]. rewrite IH, filter_cons. unfold collect_in_range. cbv zeta.
  fold (tension g). change (_ && _) with (in_range g).
  destruct (decide (in_range g = true)) as [Hg|Hg].
  - by rewrite Hg, <- app_assoc.
  - by apply not_true_is_false in Hg as ->.
Qed.

(** A split of the scanned list gives the gauge its place in the catalog. *)
Lemma closest_of_scan
    (among : Qc → Prop) `{!∀ g, Decision (among g)}
    (gauges pre post : list Qc) (g : Qc) :
  filter among gauges = pre ++ g :: post →
  (∀ g', g' ∈ filter among gauges → (error g <=? error g')%J = true) →
  (∀ g', g' ∈ pre → (error g <? error g')%J = true) →
  closest error among gauges g.
Proof.
  intros Hsplit Hmin Hpre.
  apply filter_split in Hsplit as (cpre & cpost & -> & <- & _ & Hg).
  exists cpre, cpost. split; [done|]. split; [done|]. split.
  - intros g' Hg' Ha. apply Hmin. by apply list_elem_of_filter.
  - intros g' Hg' Ha. apply Hpre. by apply list_elem_of_filter.
Qed.

Lemma recommendGauge_in_range_closest :
  (∃ g, g ∈ catalog stype ∧ in_range g = true) →
  ∃ g, recommendGauge stype scale freq (Fin minT, Fin maxT) = Some g
       ∧ closest error (λ g, in_range g = true) (catalog stype) g.
Proof.
  intros (g1 & Hg1 & Hin1).
  unfold recommendGauge. cbv zeta.
  fold midpoint. rewrite collect_in_range_filter, app_nil_l.
  set (key := λ e : Qc * number, Num.abs (e.2 - midpoint)%J).
  assert (∀ g, g ∈ filter (λ g, in_range g = true) (catalog stype)
               → in_range g = true) as Hkept.
  { intros g Hg. by apply list_elem_of_filter in Hg as [? _]. }
  assert (g1 ∈ filter (λ g, in_range g = true) (catalog stype)) as Hne
    by (by apply list_elem_of_filter).
  destruct (filter (λ g, in_range g = true) (catalog stype))
    as [|g0 rest] eqn:Ekept; [by apply elem_of_nil in Hne|].
  rewrite fmap_cons. cbv beta iota.
  change ((g0, tension g0) :: ((λ g, (g, tension g)) <$> rest))
    with ((λ g, (g, tension g)) <$> g0 :: rest).
  change (closer_in_range midpoint) with (scan_step key fst).
  change (Num.abs ((g0, tension g0).2 - midpoint)%J)
    with (key (g0, tension g0)).
  set (l := (λ g, (g, tension g)) <$> g0 :: rest).
  assert (∀ e, e ∈ l → key e ≠ NaN) as Hkeys.
  { intros e (g & -> & Hg)%list_elem_of_fmap.
    by apply error_not_NaN, in_range_finite, Hkept. }
  assert (key (g0, tension g0) ≠ NaN) as Hkey0.
  { apply Hkeys. unfold l. rewrite fmap_cons. apply list_elem_of_here. }
  destruct (scan_first_min key fst l (g0, tension g0).1 (key (g0, tension g0))
              Hkey0 Hkeys) as (_ & Hmin & Hcases).
  assert (∃ pre e post,
            l = pre ++ e :: post
            ∧ foldl (scan_step key fst) ((g0, tension g0).1,
                                         key (g0, tension g0)) l
              = (e.1, key e)
            ∧ ∀ y, y ∈ pre → (key e <? key y)%J = true)
    as (pre & e & post & Hl & Hr & Hpre).
  { destruct Hcases as [[Hr _] | (pre & e & post & Hl & Hr & _ & Hpre)].
    - exists [], (g0, tension g0), ((λ g, (g, tension g)) <$> rest).
      split; [done|]. split; [done|]. by intros y Hy%elem_of_nil.
    - by exists pre, e, post. }
  rewrite Hr in Hmin |- *. simpl in Hmin |- *.
  unfold l in Hl, Hmin.
  apply fmap_app_inv in Hl as (kpre & ktail & -> & Htail & Hsplit).
  symmetry in Htail.
  apply fmap_cons_inv in Htail as (g & kpost & -> & -> & ->).
  exists g. split; [done|].
  apply (closest_of_scan _ _ kpre kpost).
  - by rewrite Ekept.
  - rewrite Ekept. intros g' Hg'. apply (Hmin (g', tension g')).
    apply list_elem_of_fmap. by exists g'.
  - intros g' Hg'. apply (Hpre (g', tension g')).
    apply list_elem_of_fmap. by exists g'.
Qed.

Lemma recommendGauge_fallback_closest :
  (∀ g, g ∈ catalog stype → in_range g = false) →
  catalog stype ≠ [] →
  (∀ g, g ∈ catalog stype → ∃ t, tension g = Fin t) →
  ∃ g, recommendGauge stype scale freq (Fin minT, Fin maxT) = Some g
       ∧ closest error (λ _, True) (catalog stype) g.
Proof.
  intros Hnone Hne Hfin.
  unfold recommendGauge. cbv zeta.
  fold midpoint. rewrite collect_in_range_filter, app_nil_l.
  assert (filter (λ g, in_range g = true) (catalog stype) = []) as ->.
  { apply filter_none. intros g Hg. by rewrite Hnone. }
  rewrite fmap_nil. cbv iota.
  change (closer_in_catalog Math_pow (unit_weights stype) scale freq midpoint)
    with (scan_step error (@Some Qc)).
  assert (∀ g, g ∈ catalog stype → error g ≠ NaN) as Hkeys.
  { intros g Hg. by apply error_not_NaN, Hfin. }
  destruct (scan_first_min error Some (catalog stype) (head (catalog stype))
              PInf ltac:(done) Hkeys) as (_ & Hmin & Hcases).
  destruct Hcases as [[_ Hall] | (pre & g & post & Hl & Hr & _ & Hpre)].
  { exfalso. destruct (catalog stype) as [|g l] eqn:E; [done|].
    specialize (Hall g (list_elem_of_here _ _)).
    destruct (Hfin g (list_elem_of_here _ _)) as [t Ht].
    unfold error in Hall. by rewrite Ht, midpoint_Fin in Hall. }
  rewrite Hr in Hmin |- *. simpl in Hmin |- *.
  exists g. split; [done|].
  apply (closest_of_scan (λ _, True) _ pre post).
  - by rewrite filter_all.
  - intros g'. rewrite filter_all by done. apply Hmin.
  - done.
Qed.

End Recommend.

(** C1: the gauge that [recommendGauge] returns, for a finite scale,
    frequency and target [min, max] and a catalog whose gauges all have a
    unit weight.  If some catalog gauge of the class has its tension in
    [min, max], the result is a catalog gauge in range, no farther from the
    midpoint (min + max) / 2 than any in-range catalog gauge, and strictly
    closer than every in-range gauge that stands before it in the catalog;
    in an ascending catalog it is the smallest gauge among the closest.  If
    no catalog gauge is in range, the result is a catalog gauge no farther
    from the midpoint than any catalog gauge (and the first such). *)
Theorem recommendGauge_closest_to_midpoint
    (stype : StringType) (s f minT maxT : Qc) :
  let target : Range := (Fin minT, Fin maxT) in
  let tension (g : Qc) : number :=
    tensionFromMu (to_number (unit_weights stype !! g)) (Fin s) (Fin f) in
  let midpoint : number := ((Fin minT + Fin maxT) / dec 2)%J in
  let error (g : Qc) : number := Num.abs (tension g - midpoint)%J in
  let in_range (g : Qc) : Prop := isInRange (tension g) target = true in
  catalog stype ≠ [] →
  (∀ g, g ∈ catalog stype → is_Some (unit_weights stype !! g)) →
  ((∃ g, g ∈ catalog stype ∧ in_range g) →
   ∃ g, recommendGauge stype (Fin s) (Fin f) target = Some g
        ∧ closest error in_range (catalog stype) g
        ∧ (StronglySorted Qclt (catalog stype) →
           ∀ g', g' ∈ catalog stype → in_range g' → error g' = error g →
             g ≤ g'))
  ∧ ((∀ g, g ∈ catalog stype → ¬ in_range g) →
     ∃ g, recommendGauge stype (Fin s) (Fin f) target = Some g
          ∧ closest error (λ _, True) (catalog stype) g).
Proof.
  intros target tension midpoint error in_range Hne Htable. split.
  - intros Hsome.
    destruct (recommendGauge_in_range_closest stype (Fin s) (Fin f) minT maxT
                Hsome) as (g & Hg & Hclosest).
    exists g. split; [done|]. split; [done|].
    intros Hsorted g' Hg' Hin' Herr.
    destruct Hclosest as (pre & post & Hcat & Hin & _ & Hpre).
    rewrite Hcat in Hg', Hsorted.
    apply elem_of_app in Hg' as [Hg'|Hg'].
    { assert ((error g <? error g')%J = true) as Hlt
        by exact (Hpre g' Hg' Hin').
      by rewrite Herr, lt_irrefl in Hlt. }
    apply elem_of_cons in Hg' as [->|Hg']; [apply Qcle_refl|].
    apply Qclt_le_weak.
    change (pre ++ g :: post) with (pre ++ [g] ++ post) in Hsorted.
    rewrite app_assoc in Hsorted.
    apply (StronglySorted_app_1_elem_of _ _ _ _ _ Hsorted); [|done].
    apply elem_of_app. right. apply list_elem_of_here.
  - intros Hnone.
    apply recommendGauge_fallback_closest; [|done|].
    + intros g Hg. apply not_true_is_false. by apply Hnone.
    + intros g Hg. destruct (Htable g Hg) as [mu ->].
      eexists. apply tensionFromMu_Fin.
Qed.

(** *** The inventory *)

Local Abbreviation collect_usage :=
  (collect_usage Math_pow A4 NOTE_INDEX FLAT_TO_SHARP).
Local Abbreviation collect_guitar :=
  (collect_guitar Math_pow A4 NOTE_INDEX FLAT_TO_SHARP).
Local Abbreviation collect_usages :=
  (collect_usages Math_pow A4 NOTE_INDEX FLAT_TO_SHARP).
Local Abbreviation consider_swap :=
  (consider_swap Math_pow PLAIN_UNIT_WEIGHTS WOUND_UNIT_WEIGHTS).
Local Abbreviation swap_search :=
  (swap_search Math_pow PLAIN_UNIT_WEIGHTS WOUND_UNIT_WEIGHTS).
Local Abbreviation find_swap :=
  (find_swap Math_pow PLAIN_UNIT_WEIGHTS WOUND_UNIT_WEIGHTS).
Local Abbreviation buildGaugeUsages :=
  (buildGaugeUsages Math_pow A4 NOTE_INDEX FLAT_TO_SHARP
     PLAIN_UNIT_WEIGHTS WOUND_UNIT_WEIGHTS).

Lemma usageMap_record_keys key info (usageMap : list GaugeUsageWithSwap) :
  usage_key <$> usageMap_record key info usageMap = usage_key <$> usageMap.
Proof.
  unfold usageMap_record. rewrite <- list_fmap_compose.
  apply list_fmap_ext. intros _ u _. simpl. by destruct (decide _).
Qed.

Lemma usageMap_record_other key info (usageMap : list GaugeUsageWithSwap) :
  key ∉ usage_key <$> usageMap → usageMap_record key info usageMap = usageMap.
Proof.
  induction usageMap as [|u m IH]; [done|]. rewrite fmap_cons, not_elem_of_cons.
  intros [Hu Hm]. unfold usageMap_record in *. rewrite fmap_cons, IH by done.
  by destruct (decide (usage_key u = key)) as [E|].
Qed.

(** Recording a usage under a key of the map adds one to the counts. *)
Lemma usageMap_record_sum key info (usageMap : list GaugeUsageWithSwap) :
  NoDup (usage_key <$> usageMap) → key ∈ usage_key <$> usageMap →
  sum_list_with count (usageMap_record key info usageMap)
  = S (sum_list_with count usageMap).
Proof.
  induction usageMap as [|u m IH]; [by intros _ ?%elem_of_nil|].
  rewrite fmap_cons, NoDup_cons, elem_of_cons. intros [Hu Hm] Hkey.
  change (usageMap_record key info (u :: m))
    with ((if decide (usage_key u = key)
           then {| g_gauge := g_gauge u; g_type := g_type u;
                   count := S (count u); usages := usages u ++ [info];
                   swapOption := swapOption u |}
           else u) :: usageMap_record key info m).
  destruct (decide (usage_key u = key)) as [E|E]; simpl.
  - rewrite usageMap_record_other; [done | by rewrite <- E].
  - destruct Hkey as [Hkey|Hkey]; [done|]. rewrite IH by done. lia.
Qed.

Lemma usageMap_record_wf key info (usageMap : list GaugeUsageWithSwap) :
  NoDup (usage_key <$> usageMap) →
  Forall (λ u, count u = length (usages u) ∧ swapOption u = None
               ∧ (usage_key u ≠ key → (1 ≤ count u)%nat)) usageMap →
  usageMap_wf (usageMap_record key info usageMap).
Proof.
  intros Hnd Hall. split; [by rewrite usageMap_record_keys|].
  unfold usageMap_record. apply Forall_fmap. eapply Forall_impl; [done|].
  intros u (Hc & Hs & Hpos). simpl. destruct (decide _) as [E|E]; simpl.
  - rewrite length_app. simpl. split; [lia|]. split; [lia | done].
  - auto.
Qed.

(** The body of the inner loop: a selection with a gauge adds one to the
    counts, any other entry leaves the map as it is. *)
Lemma collect_usage_counted gIdx guitar scales usageMap sIdx sel :
  usageMap_wf usageMap → has_gauge sel →
  usageMap_wf (collect_usage gIdx guitar scales usageMap (sIdx, sel))
  ∧ sum_list_with count
      (collect_usage gIdx guitar scales usageMap (sIdx, sel))
    = S (sum_list_with count usageMap).
Proof.
  intros [Hnd Hall] Hsel. destruct sel as [sel|]; [|done]. simpl in Hsel.
  unfold collect_usage. rewrite Hsel. cbn [negb]. cbv zeta.
  unfold usageMap_has. case_bool_decide as Hkey.
  - split.
    + apply usageMap_record_wf; [done|].
      eapply Forall_impl; [done|]. by intros u (? & ? & ?).
    + by apply usageMap_record_sum.
  - assert (NoDup (usage_key <$>
              usageMap ++ [{| g_gauge := gauge sel; g_type := type sel;
                              count := 0; usages := [];
                              swapOption := None |}])) as Hnd'.
    { rewrite fmap_app. apply NoDup_app. split; [done|]. split.
      - intros k Hk ->%list_elem_of_singleton. done.
      - apply NoDup_singleton. }
    split.
    + apply usageMap_record_wf; [done|].
      apply Forall_app. split.
      * eapply Forall_impl; [done|]. by intros u (? & ? & ?).
      * by apply Forall_singleton.
    + rewrite usageMap_record_sum; [|done|].
      * rewrite sum_list_with_app. simpl. lia.
      * rewrite fmap_app. apply elem_of_app. right.
        by apply list_elem_of_singleton.
Qed.

Lemma collect_usage_skipped gIdx guitar scales usageMap sIdx sel :
  ¬ has_gauge sel →
  collect_usage gIdx guitar scales usageMap (sIdx, sel) = usageMap.
Proof.
  destruct sel as [sel|]; [|done]. simpl. intros Hsel%not_true_is_false.
  unfold collect_usage. by rewrite Hsel.
Qed.

Lemma collect_strings_sum gIdx guitar scales entries usageMap :
  usageMap_wf usageMap →
  usageMap_wf (foldl (collect_usage gIdx guitar scales) usageMap entries)
  ∧ sum_list_with count
      (foldl (collect_usage gIdx guitar scales) usageMap entries)
    = (sum_list_with count usageMap
       + length (filter has_gauge entries.*2))%nat.
Proof.
  revert usageMap. induction entries as [|[sIdx sel] entries IH];
    intros usageMap Hwf.
  { simpl. split; [done | lia]. }
  cbn [foldl]. rewrite fmap_cons, filter_cons. cbn [snd].
  destruct (decide (has_gauge sel)) as [Hsel|Hsel].
  - destruct (collect_usage_counted gIdx guitar scales usageMap sIdx sel
                Hwf Hsel) as [Hwf' Hsum].
    destruct (IH _ Hwf') as [Hwf'' ->]. split; [done|].
    rewrite Hsum. simpl. lia.
  - rewrite collect_usage_skipped by done. by apply IH.
Qed.

Lemma indexed_snd {A} (l : list A) : (indexed l).*2 = l.
Proof. unfold indexed. apply snd_zip. by rewrite length_seq. Qed.

Lemma collect_guitars_sum selections entries usageMap :
  usageMap_wf usageMap →
  usageMap_wf (foldl (collect_guitar selections) usageMap entries)
  ∧ sum_list_with count (foldl (collect_guitar selections) usageMap entries)
    = (sum_list_with count usageMap
       + sum_list_with
           (λ entry : nat * Guitar,
              length (filter has_gauge (default [] (selections !! entry.1))))
           entries)%nat.
Proof.
  revert usageMap. induction entries as [|[gIdx guitar] entries IH];
    intros usageMap Hwf.
  { simpl. split; [done | lia]. }
  cbn [foldl]. unfold collect_guitar at 2 4. cbv zeta.
  destruct (collect_strings_sum gIdx guitar
              (resolveScales (scale guitar) (n_strings guitar))
              (indexed (default [] (selections !! gIdx))) usageMap Hwf)
    as [Hwf' Hsum].
  destruct (IH _ Hwf') as [Hwf'' ->]. split; [done|].
  rewrite Hsum, indexed_snd. simpl. lia.
Qed.

Lemma collect_usages_wf guitars selections :
  usageMap_wf (collect_usages guitars selections)
  ∧ sum_list_with count (collect_usages guitars selections)
    = counted_selections guitars selections.
Proof.
  unfold collect_usages, counted_selections.
  destruct (collect_guitars_sum selections (indexed guitars) [])
    as [Hwf ->]; [|done].
  split; [apply NoDup_nil_2 | apply Forall_nil_2].
Qed.

(** The second pass changes nothing but the swap of a group. *)
Lemma find_swap_fields all u :
  g_gauge (find_swap all u) = g_gauge u
  ∧ g_type (find_swap all u) = g_type u
  ∧ count (find_swap all u) = count u
  ∧ usages (find_swap all u) = usages u.
Proof.
  unfold find_swap. destruct (negb _); [done|].
  destruct (head _); [|done]. by destruct (swap_search _ _ _).
Qed.

Lemma find_swap_sum all (usageMap : list GaugeUsageWithSwap) :
  sum_list_with count (find_swap all <$> usageMap)
  = sum_list_with count usageMap.
Proof.
  induction usageMap as [|u m IH]; [done|]. rewrite fmap_cons. simpl.
  rewrite IH. by destruct (find_swap_fields all u) as (_ & _ & -> & _).
Qed.

(** The swap search reads the gauge and the class of the singleton only. *)
Lemma swap_search_ext all u u' info :
  g_gauge u = g_gauge u' → g_type u = g_type u' →
  swap_search all u info = swap_search all u' info.
Proof.
  intros Hg Ht. unfold swap_search. cbv zeta. rewrite Hg, Ht. f_equal.
  apply foldl_ext. intros [bestSwap minDeviation] other.
  unfold consider_swap. by rewrite Hg, Ht.
Qed.

Lemma find_swap_singleton all u :
  count u = length (usages u) → swapOption u = None →
  (count u ≠ 1%nat → swapOption (find_swap all u) = None)
  ∧ (count u = 1%nat →
     ∃ info, usages u = [info]
             ∧ swapOption (find_swap all u)
               = swap_search all (find_swap all u) info).
Proof.
  intros Hlen Hnone. split.
  - intros Hc. unfold find_swap. by rewrite bool_decide_eq_false_2.
  - intros Hc.
    destruct (usages u) as [|info [|? ?]] eqn:Hu; simpl in Hlen; try lia.
    exists info. split; [done|].
    rewrite (swap_search_ext all (find_swap all u) u)
      by (by destruct (find_swap_fields all u) as (? & ? & _)).
    unfold find_swap. rewrite bool_decide_eq_true_2 by done. cbn [negb].
    rewrite Hu. simpl. by destruct (swap_search all u info).
Qed.

(** The sort moves the groups around and changes none. *)
Lemma insert_by_gauge_Permutation a l : insert_by_gauge a l ≡ₚ a :: l.
Proof.
  induction l as [|b l IH]; [done|]. simpl.
  case_match; [|done]. by rewrite IH, Permutation_swap.
Qed.

Lemma sort_by_gauge_Permutation l : sort_by_gauge l ≡ₚ l.
Proof.
  induction l as [|a l IH]; [done|].
  unfold sort_by_gauge in *. simpl.
  by rewrite insert_by_gauge_Permutation, IH.
Qed.

Lemma indexed_lookup {A} (l : list A) (i : nat) (x : A) :
  (i, x) ∈ indexed l → l !! i = Some x.
Proof.
  unfold indexed. intros (j & Hj)%list_elem_of_lookup_1.
  apply lookup_zip_with_Some in Hj as (i' & x' & [= -> ->] & Hi & Hx).
  apply lookup_seq in Hi as [-> _]. done.
Qed.

Lemma sum_list_with_ext_in {A} (f g : A → nat) (l : list A) :
  (∀ x, x ∈ l → f x = g x) → sum_list_with f l = sum_list_with g l.
Proof.
  induction l as [|x l IH]; intros Hfg; [done|]. simpl.
  rewrite (Hfg x) by apply list_elem_of_here.
  rewrite IH; [done|]. intros y Hy. by apply Hfg, list_elem_of_further.
Qed.

Lemma sum_list_with_snd {A B} (f : B → nat) (l : list (A * B)) :
  sum_list_with (λ e, f e.2) l = sum_list_with f l.*2.
Proof. induction l as [|[a b] l IH]; simpl; [done | by rewrite IH]. Qed.

Lemma counted_complete guitars selections :
  complete_selections guitars selections →
  counted_selections guitars selections = total_strings guitars.
Proof.
  intros Hall. unfold counted_selections, total_strings.
  rewrite <- (indexed_snd guitars) at 2. rewrite <- sum_list_with_snd.
  apply sum_list_with_ext_in. intros [gIdx guitar] Hin%indexed_lookup.
  simpl. destruct (Hall gIdx guitar Hin) as (guitarSel & -> & <- & Hgauges).
  simpl. by rewrite filter_all by (by apply Forall_forall).
Qed.

Lemma buildGaugeUsages_sum guitars selections :
  sum_list_with count (buildGaugeUsages guitars selections)
  = counted_selections guitars selections.
Proof.
  destruct (collect_usages_wf guitars selections) as [_ Hsum].
  unfold buildGaugeUsages. cbv zeta.
  by rewrite sort_by_gauge_Permutation, find_swap_sum.
Qed.

Lemma buildGaugeUsages_group guitars selections u :
  u ∈ buildGaugeUsages guitars selections →
  count u = length (usages u)
  ∧ (count u ≠ 1%nat → swapOption u = None)
  ∧ (count u = 1%nat →
     ∃ info, usages u = [info]
             ∧ swapOption u
               = swap_search (collect_usages guitars selections) u info).
Proof.
  destruct (collect_usages_wf guitars selections) as [[Hnd Hall] _].
  intros Hu. unfold buildGaugeUsages in Hu. cbv zeta in Hu.
  rewrite sort_by_gauge_Permutation in Hu.
  apply list_elem_of_fmap in Hu as (u0 & -> & Hu0).
  rewrite Forall_forall in Hall.
  destruct (Hall u0 Hu0) as (Hlen & _ & Hnone).
  destruct (find_swap_fields (collect_usages guitars selections) u0)
    as (_ & _ & -> & ->).
  split; [done|]. by apply find_swap_singleton.
Qed.

(** C5, as the code has it: the counts of the groups add up to the number
    of selections with a gauge held under the guitars' indices — the
    number of strings of all guitars when the selections are complete —
    and a group is a singleton, searched for a swap, exactly when its count
    is 1: a group with another count has no swap, a group with count 1 has
    one usage and the swap that the search finds for it. *)
Theorem buildGaugeUsages_counts
    (guitars : list Guitar) (selections : GuitarSelections) :
  let groups := buildGaugeUsages guitars selections in
  sum_list_with count groups = counted_selections guitars selections
  ∧ (complete_selections guitars selections →
     sum_list_with count groups = total_strings guitars)
  ∧ (∀ u, u ∈ groups →
       count u = length (usages u)
       ∧ (count u ≠ 1%nat → swapOption u = None)
       ∧ (count u = 1%nat →
          ∃ info, usages u = [info]
                  ∧ swapOption u
                    = swap_search (collect_usages guitars selections) u info)).
Proof.
  intros groups. split; [apply buildGaugeUsages_sum|]. split.
  - intros Hcomplete. unfold groups.
    by rewrite buildGaugeUsages_sum, counted_complete.
  - intros u Hu. by apply buildGaugeUsages_group.
Qed.

(** *** The optimizer *)

Local Abbreviation consolidate :=
  (consolidate Math_pow A4 NOTE_INDEX FLAT_TO_SHARP
     PLAIN_UNIT_WEIGHTS WOUND_UNIT_WEIGHTS).
Local Abbreviation minimize :=
  (minimize Math_pow A4 NOTE_INDEX FLAT_TO_SHARP
     PLAIN_UNIT_WEIGHTS WOUND_UNIT_WEIGHTS).
Local Abbreviation repair :=
  (repair Math_pow A4 NOTE_INDEX FLAT_TO_SHARP
     PLAIN_UNIT_WEIGHTS WOUND_UNIT_WEIGHTS PLAIN_GAUGES WOUND_GAUGES).
Local Abbreviation optimize :=
  (optimize Math_pow A4 NOTE_INDEX FLAT_TO_SHARP
     PLAIN_UNIT_WEIGHTS WOUND_UNIT_WEIGHTS PLAIN_GAUGES WOUND_GAUGES).

(** Every key of the usage map is the pair of a selection. *)
Lemma collect_usage_keys gIdx guitar scales usageMap sIdx sel key :
  key ∈ usage_key <$> collect_usage gIdx guitar scales usageMap (sIdx, sel) →
  key ∈ usage_key <$> usageMap
  ∨ ∃ s, sel = Some s ∧ key = (gauge s, type s).
Proof.
  unfold collect_usage. destruct sel as [s|]; [|by left].
  destruct (negb _); [by left|]. cbv zeta.
  rewrite usageMap_record_keys. destruct (usageMap_has _ _); [by left|].
  rewrite fmap_app, elem_of_app.
  intros [? | ->%list_elem_of_singleton]; [by left | right; by exists s].
Qed.

Lemma collect_strings_keys gIdx guitar scales entries usageMap key :
  key ∈ usage_key <$>
          foldl (collect_usage gIdx guitar scales) usageMap entries →
  key ∈ usage_key <$> usageMap
  ∨ ∃ sIdx s, (sIdx, Some s) ∈ entries ∧ key = (gauge s, type s).
Proof.
  revert usageMap. induction entries as [|[sIdx sel] entries IH];
    intros usageMap; [by left|].
  cbn [foldl]. intros [Hkey | (sIdx' & s & Hin & ->)]%IH.
  - apply collect_usage_keys in Hkey as [?|(s & -> & ->)]; [by left|].
    right. exists sIdx, s. split; [apply list_elem_of_here | done].
  - right. exists sIdx', s. split; [by apply list_elem_of_further | done].
Qed.

Lemma elem_of_selection_pairs
    (selections : GuitarSelections) (pair : number * StringType) :
  pair ∈ selection_pairs selections ↔
  ∃ gIdx guitarSel sIdx sel,
    selections !! gIdx = Some guitarSel
    ∧ guitarSel !! sIdx = Some (Some sel)
    ∧ pair = (gauge sel, type sel).
Proof.
  unfold selection_pairs.
  rewrite elem_of_list_to_set, list_elem_of_fmap. split.
  - intros (sel & -> & Hsel). apply list_elem_of_omap in Hsel as (o & Ho & Hid).
    simpl in Hid. subst o. apply list_elem_of_join in Ho as (l & Hsel & Hl).
    apply list_elem_of_fmap in Hl as ([gIdx l'] & -> & Hl).
    apply elem_of_map_to_list in Hl. simpl in Hsel.
    apply list_elem_of_lookup in Hsel as [sIdx Hsel].
    by exists gIdx, l', sIdx, sel.
  - intros (gIdx & l & sIdx & sel & Hl & Hsel & ->). exists sel.
    split; [done|]. apply list_elem_of_omap. exists (Some sel).
    split; [|done]. apply list_elem_of_join. exists l. split.
    + apply list_elem_of_lookup. by exists sIdx.
    + apply list_elem_of_fmap. exists (gIdx, l). split; [done|].
      by apply elem_of_map_to_list.
Qed.

Lemma collect_guitars_keys selections entries usageMap key :
  key ∈ usage_key <$> foldl (collect_guitar selections) usageMap entries →
  key ∈ usage_key <$> usageMap ∨ key ∈ selection_pairs selections.
Proof.
  revert usageMap. induction entries as [|[gIdx guitar] entries IH];
    intros usageMap; [by left|].
  cbn [foldl]. intros [Hkey | ?]%IH; [|by right].
  unfold collect_guitar in Hkey. cbv zeta in Hkey.
  apply collect_strings_keys in Hkey as [?|(sIdx & s & Hin & ->)]; [by left|].
  right. apply indexed_lookup in Hin.
  apply elem_of_selection_pairs.
  destruct (selections !! gIdx) as [guitarSel|] eqn:Hsel; [|done].
  by exists gIdx, guitarSel, sIdx, s.
Qed.

Lemma collect_usages_keys guitars selections u :
  u ∈ collect_usages guitars selections →
  usage_key u ∈ selection_pairs selections.
Proof.
  intros Hu. destruct (collect_guitars_keys selections (indexed guitars) []
                         (usage_key u)) as [Hnil|?]; [|by apply elem_of_nil in Hnil|done].
  apply list_elem_of_fmap. by exists u.
Qed.

(** A swap that the search finds is to the gauge of a group of the same
    class. *)
Lemma consider_swap_gauge
    (all : list GaugeUsageWithSwap) u info current best other :
  other ∈ all →
  (∀ swap, best.1 = Some swap →
     ∃ o, o ∈ all ∧ s_gauge swap = g_gauge o ∧ g_type o = g_type u) →
  ∀ swap, (consider_swap u info current best other).1 = Some swap →
    ∃ o, o ∈ all ∧ s_gauge swap = g_gauge o ∧ g_type o = g_type u.
Proof.
  intros Hother Hbest swap. unfold consider_swap.
  destruct best as [bestSwap minDeviation]. cbv zeta.
  repeat (case_match; [by apply Hbest|]).
  case_match; [|by apply Hbest].
  simpl. intros [= <-]. simpl. exists other. split; [done|]. split; [done|].
  match goal with
  | H : negb (bool_decide (g_type other = g_type u)) = false |- _ =>
      apply negb_false_iff, bool_decide_eq_true in H; exact H
  end.
Qed.

Lemma swap_search_gauge (all : list GaugeUsageWithSwap) u info swap :
  swap_search all u info = Some swap →
  ∃ o, o ∈ all ∧ s_gauge swap = g_gauge o ∧ g_type o = g_type u.
Proof.
  unfold swap_search. cbv zeta.
  set (current := calcTension _ _ _ _).
  assert (∀ l best,
            (∀ x, x ∈ l → x ∈ all) →
            (∀ swap, best.1 = Some swap →
               ∃ o, o ∈ all ∧ s_gauge swap = g_gauge o ∧ g_type o = g_type u) →
            ∀ swap, (foldl (consider_swap u info current) best l).1 = Some swap →
              ∃ o, o ∈ all ∧ s_gauge swap = g_gauge o ∧ g_type o = g_type u)
    as Hfold.
  { induction l as [|x l IH]; intros best Hl Hbest; [done|].
    cbn [foldl]. apply IH.
    - intros y Hy. by apply Hl, list_elem_of_further.
    - apply consider_swap_gauge; [apply Hl, list_elem_of_here | done]. }
  apply (Hfold all (None, PInf)); [done | done].
Qed.

(** The swap of a group of the inventory is to a pair of the selections. *)
Lemma buildGaugeUsages_swap_pair guitars selections u swap :
  u ∈ buildGaugeUsages guitars selections → swapOption u = Some swap →
  (s_gauge swap, g_type u) ∈ selection_pairs selections.
Proof.
  intros Hu Hswap.
  destruct (buildGaugeUsages_group guitars selections u Hu)
    as (_ & Hnot1 & Hone).
  destruct (decide (count u = 1%nat)) as [Hc|Hc];
    [|by rewrite Hnot1 in Hswap].
  destruct (Hone Hc) as (info & _ & Hsearch). rewrite Hswap in Hsearch.
  symmetry in Hsearch.
  apply swap_search_gauge in Hsearch as (o & Ho & Hgauge & Htype).
  apply collect_usages_keys in Ho. unfold usage_key in Ho.
  by rewrite Hgauge, <- Htype.
Qed.

(** Applying a swap adds at most the pair of the swap. *)
Lemma apply_swap_pairs (selections : GuitarSelections) u pairs :
  selection_pairs selections ⊆ pairs →
  (∀ swap, swapOption u = Some swap → (s_gauge swap, g_type u) ∈ pairs) →
  selection_pairs (apply_swap selections u) ⊆ pairs.
Proof.
  intros Hsub Hswap. unfold apply_swap.
  destruct (swapOption u) as [swap|]; [|done].
  destruct (head (usages u)) as [info|]; [|done].
  destruct (inRange swap); [|done].
  intros pair (gIdx & l & sIdx & sel & Hl & Hsel & ->)%elem_of_selection_pairs.
  destruct (decide (guitarIdx info = gIdx)) as [<-|Hne].
  - rewrite lookup_alter_eq in Hl.
    destruct (selections !! guitarIdx info) as [l0|] eqn:Hl0; [|done].
    injection Hl as <-.
    destruct (decide (stringIdx info = sIdx)) as [<-|Hne'].
    + apply list_lookup_insert_Some in Hsel as [(_ & [= <-] & _) | [? _]];
        [|done].
      by apply Hswap.
    + rewrite list_lookup_insert_ne in Hsel by done.
      apply Hsub, elem_of_selection_pairs.
      by exists (guitarIdx info), l0, sIdx, sel.
  - rewrite lookup_alter_ne in Hl by done.
    apply Hsub, elem_of_selection_pairs. by exists gIdx, l, sIdx, sel.
Qed.

(** A consolidation pass adds no pair. *)
Lemma consolidate_pairs guitars (selections : GuitarSelections) :
  selection_pairs (consolidate guitars selections)
  ⊆ selection_pairs selections.
Proof.
  unfold consolidate.
  assert (∀ groups (current : GuitarSelections),
            (∀ u, u ∈ groups → u ∈ buildGaugeUsages guitars selections) →
            selection_pairs current ⊆ selection_pairs selections →
            selection_pairs (foldl apply_swap current groups)
            ⊆ selection_pairs selections) as Hfold.
  { induction groups as [|u groups IH]; intros current Hgroups Hcur; [done|].
    cbn [foldl]. apply IH.
    - intros u' Hu'. by apply Hgroups, list_elem_of_further.
    - apply apply_swap_pairs; [done|]. intros swap Hswap.
      eapply buildGaugeUsages_swap_pair; [|done].
      apply Hgroups, list_elem_of_here. }
  by apply Hfold.
Qed.

Lemma minimize_pairs rounds guitars (selections : GuitarSelections) :
  selection_pairs (minimize rounds guitars selections)
  ⊆ selection_pairs selections.
Proof.
  revert selections. induction rounds as [|rounds IH]; intros selections;
    [done|].
  simpl. destruct (decide _); [done|].
  etrans; [apply IH | apply consolidate_pairs].
Qed.

(** C3, as the optimizer of the specification has it: the consolidation and
    minimization passes add no (gauge, class) pair, however many rounds the
    minimization takes, so the output has no more distinct pairs than the
    selections have after the repair pass — and no more than the input
    when the repair pass leaves the input as it is. *)
Theorem optimize_distinct_pairs
    (guitars : list Guitar) (selections : GuitarSelections) :
  (∀ rounds,
     distinct_pairs
       (minimize rounds guitars
          (consolidate guitars (repair guitars selections)))
     ≤ distinct_pairs (repair guitars selections))%nat
  ∧ (distinct_pairs (optimize guitars selections)
     ≤ distinct_pairs (repair guitars selections))%nat
  ∧ (repair guitars selections = selections →
     (distinct_pairs (optimize guitars selections)
      ≤ distinct_pairs selections)%nat).
Proof.
  assert (∀ rounds,
            distinct_pairs
              (minimize rounds guitars
                 (consolidate guitars (repair guitars selections)))
            ≤ distinct_pairs (repair guitars selections))%nat as Hrounds.
  { intros rounds. unfold distinct_pairs. apply subseteq_size.
    etrans; [apply minimize_pairs | apply consolidate_pairs]. }
  split; [done|].
  assert (distinct_pairs (optimize guitars selections)
          ≤ distinct_pairs (repair guitars selections))%nat as Hle
    by apply Hrounds.
  split; [done|]. intros Hrepair. by rewrite Hrepair in Hle.
Qed.

End EngineFacts.

(** "X4" has no recognized name. *)
Lemma noteToFreq_invalid_note_witness :
  ¬ Sample.recognized "X" ∧ Sample.noteToFreq_call "X4" = Returns NaN.
Proof.
  assert (¬ Sample.recognized "X") as HX.
  { intros [x Hx]. vm_compute in Hx. discriminate Hx. }
  split; [exact HX|].
  apply (noteToFreq_invalid_note Sample.Math_pow sample_pow_NaN).
  left. exact HX.
Defined.

(** The claim fails on "X4": the call does not end in an error. *)
Lemma noteToFreq_invalid_note_no_error :
  ¬ Sample.recognized "X"
  ∧ Sample.noteToFreq_call "X4" = Returns NaN
  ∧ ¬ ∃ error, Sample.noteToFreq_call "X4" = Throws error.
Proof.
  split; [|split].
  - intros [x Hx]. vm_compute in Hx. discriminate Hx.
  - by vm_compute.
  - by intros [error Herr].
Qed.

(** "E10" is read as the name "E1" at octave 0, which is no note. *)
Example noteToFreq_E10 :
  Sample.noteToFreq "E10" = Sample.frequency_of "E1" (dec 0)
  ∧ Sample.noteToFreq "E10" = NaN.
Proof. split; by vm_compute. Qed.

Lemma calcTension_formula_witness :
  Sample.PLAIN_UNIT_WEIGHTS !! Q2Qc 0.010 = Some (Q2Qc 0.00002215)
  ∧ Sample.calcTension (dec 0.010) p (dec 25.5) (dec 330) =
      Fin ((Q2Qc 2 * Q2Qc 25.5 * Q2Qc 330) ^ 2 * Q2Qc 0.00002215
           / Q2Qc 386.4).
Proof.
  assert (Sample.PLAIN_UNIT_WEIGHTS !! Q2Qc 0.010 = Some (Q2Qc 0.00002215))
    as Hmu by (by vm_compute).
  split; [exact Hmu|].
  apply (calcTension_formula Sample.Math_pow sample_pow_square
           Sample.PLAIN_UNIT_WEIGHTS Sample.WOUND_UNIT_WEIGHTS p
           (Q2Qc 0.010) (Q2Qc 0.00002215) Hmu).
Defined.



(** The sample catalog has a unit weight for each of its gauges. *)
Lemma sample_catalog_in_table (stype : StringType) (g : Qc) :
  g ∈ catalog Sample.PLAIN_GAUGES Sample.WOUND_GAUGES stype →
  is_Some
    (unit_weights Sample.PLAIN_UNIT_WEIGHTS Sample.WOUND_UNIT_WEIGHTS stype
       !! g).
Proof.
  destruct stype; cbn; intros Hg;
    repeat (apply elem_of_cons in Hg as [-> | Hg];
            [eexists; by vm_compute|]);
    by apply elem_of_nil in Hg.
Qed.

(** On the sample catalog: a plain string at 25.5 inches and 330 Hz with
    the target [13, 15.5] has the gauge .009 in range, and the target
    [100, 150] is out of reach. *)
Lemma recommendGauge_closest_to_midpoint_witness :
  let tension (g : Qc) : number :=
    tensionFromMu Sample.Math_pow
      (to_number (Sample.PLAIN_UNIT_WEIGHTS !! g)) (dec 25.5) (dec 330) in
  Sample.PLAIN_GAUGES ≠ []
  ∧ (∃ g, g ∈ Sample.PLAIN_GAUGES
          ∧ isInRange (tension g) (dec 13, dec 15.5) = true)
  ∧ (∀ g, g ∈ Sample.PLAIN_GAUGES
          → ¬ isInRange (tension g) (dec 100, dec 150) = true)
  ∧ (∃ g, Sample.recommendGauge p (dec 25.5) (dec 330) (dec 13, dec 15.5)
          = Some g)
  ∧ (∃ g, Sample.recommendGauge p (dec 25.5) (dec 330) (dec 100, dec 150)
          = Some g).
Proof.
  intros tension.
  assert (Sample.PLAIN_GAUGES ≠ []) as Hne by done.
  assert (∃ g, g ∈ Sample.PLAIN_GAUGES
               ∧ isInRange (tension g) (dec 13, dec 15.5) = true) as Hsome.
  { exists (Q2Qc 0.009). split; [apply list_elem_of_here | by vm_compute]. }
  assert (∀ g, g ∈ Sample.PLAIN_GAUGES
               → ¬ isInRange (tension g) (dec 100, dec 150) = true) as Hnone.
  { intros g Hg. cbn in Hg.
    repeat (apply elem_of_cons in Hg as [-> | Hg]; [by vm_compute|]).
    by apply elem_of_nil in Hg. }
  split; [exact Hne|]. split; [exact Hsome|]. split; [exact Hnone|]. split.
  - destruct (proj1 (recommendGauge_closest_to_midpoint
                       Sample.Math_pow sample_pow_square
                       Sample.PLAIN_UNIT_WEIGHTS Sample.WOUND_UNIT_WEIGHTS
                       Sample.PLAIN_GAUGES Sample.WOUND_GAUGES
                       p (Q2Qc 25.5) (Q2Qc 330) (Q2Qc 13) (Q2Qc 15.5)
                       Hne (sample_catalog_in_table p)) Hsome)
      as (g & Hg & _).
    by exists g.
  - destruct (proj2 (recommendGauge_closest_to_midpoint
                       Sample.Math_pow sample_pow_square
                       Sample.PLAIN_UNIT_WEIGHTS Sample.WOUND_UNIT_WEIGHTS
                       Sample.PLAIN_GAUGES Sample.WOUND_GAUGES
                       p (Q2Qc 25.5) (Q2Qc 330) (Q2Qc 100) (Q2Qc 150)
                       Hne (sample_catalog_in_table p)) Hnone)
      as (g & Hg & _).
    by exists g.
Defined.

(** A guitar loaded before any selection is there: six strings, and an
    inventory without a group. *)
Lemma buildGaugeUsages_counts_no_selections :
  sum_list_with count (Sample.buildGaugeUsages [Sample.six_string] ∅) = 0%nat
  ∧ total_strings [Sample.six_string] = 6%nat
  ∧ sum_list_with count (Sample.buildGaugeUsages [Sample.six_string] ∅)
    ≠ total_strings [Sample.six_string].
Proof. split; [by vm_compute|]. split; [by vm_compute|]. by vm_compute. Qed.

(** Two strings, both with a selection. *)
Lemma buildGaugeUsages_counts_witness :
  let selections : GuitarSelections :=
    {[ 0%nat := [Sample.plain 0.010; Sample.plain 0.010] ]} in
  complete_selections [Sample.two_string] selections
  ∧ sum_list_with count
      (Sample.buildGaugeUsages [Sample.two_string] selections)
    = total_strings [Sample.two_string].
Proof.
  intros selections.
  assert (complete_selections [Sample.two_string] selections) as Hcomplete.
  { intros [|gIdx] guitar Hguitar; [|done]. injection Hguitar as <-.
    exists [Sample.plain 0.010; Sample.plain 0.010].
    split; [done|]. split; [done|].
    repeat constructor; by vm_compute. }
  split; [exact Hcomplete|].
  apply (buildGaugeUsages_counts Sample.Math_pow Sample.A4 Sample.NOTE_INDEX
           Sample.FLAT_TO_SHARP Sample.PLAIN_UNIT_WEIGHTS
           Sample.WOUND_UNIT_WEIGHTS [Sample.two_string] selections).
  exact Hcomplete.
Defined.

(** Two plain strings that share the gauge .010, both out of their target:
    the repair gives each the gauge of its own pitch, and no consolidation
    brings them together again.  One pair goes in, two come out. *)
Lemma optimize_adds_pairs :
  let selections : GuitarSelections :=
    {[ 0%nat := [Sample.plain 0.010; Sample.plain 0.010] ]} in
  distinct_pairs selections = 1%nat
  ∧ distinct_pairs (Sample.optimize [Sample.two_string] selections) = 2%nat
  ∧ ¬ (distinct_pairs (Sample.optimize [Sample.two_string] selections)
       ≤ distinct_pairs selections)%nat.
Proof.
  intros selections.
  assert (distinct_pairs selections = 1%nat) as H1 by (by vm_compute).
  assert (distinct_pairs (Sample.optimize [Sample.two_string] selections)
          = 2%nat) as H2 by (by vm_compute).
  split; [done|]. split; [done|]. rewrite H1, H2. lia.
Qed.

(** Two strings that are in their targets: the repair changes nothing. *)
Lemma optimize_distinct_pairs_witness :
  let selections : GuitarSelections :=
    {[ 0%nat := [Sample.plain 0.009; Sample.plain 0.013] ]} in
  Sample.repair [Sample.two_string] selections = selections
  ∧ (distinct_pairs (Sample.optimize [Sample.two_string] selections)
     ≤ distinct_pairs selections)%nat.
Proof.
  intros selections.
  assert (Sample.repair [Sample.two_string] selections = selections)
    as Hrepair by (by vm_compute).
  split; [exact Hrepair|].
  apply (optimize_distinct_pairs Sample.Math_pow Sample.A4 Sample.NOTE_INDEX
           Sample.FLAT_TO_SHARP Sample.PLAIN_UNIT_WEIGHTS
           Sample.WOUND_UNIT_WEIGHTS Sample.PLAIN_GAUGES Sample.WOUND_GAUGES
           [Sample.two_string] selections).
  exact Hrepair.
Defined.

(** The pitches that the specification lists, on the sample tables. *)
Example noteToFreq_reference_pitches :
  Sample.noteToFreq "A4" = dec 440
  ∧ Sample.noteToFreq "A5" = dec 880
  ∧ Sample.noteToFreq "Bb3" = Sample.noteToFreq "A#3".
Proof. repeat split; by vm_compute. Qed.

(** The scenario of the specification: a six-string guitar and no selection
    yet.  No pair goes in, and every string comes out with a gauge. *)
Example optimize_from_empty :
  distinct_pairs (∅ : GuitarSelections) = 0%nat
  ∧ length <$> Sample.optimize [Sample.six_string] ∅ !! 0%nat = Some 6%nat
  ∧ distinct_pairs (Sample.optimize [Sample.six_string] ∅) = 6%nat.
Proof. repeat split; by vm_compute. Qed.

(** * Further properties of the engine *)

(** ** Sorting numbers *)

Lemma gt_sub_Fin (a b : Qc) :
  (Fin a - Fin b >? dec 0)%J = bool_decide (b < a).
Proof.
  rewrite sub_Fin. unfold Num.gt, Num.lt, dec.
  apply bool_decide_ext. split; intros H; qc_unfold; lra.
Qed.

Lemma insert_ascending_Permutation (a : Qc) (l : list Qc) :
  insert_ascending a l ≡ₚ a :: l.
Proof.
  induction l as [|b l IH]; [done|]. cbn [insert_ascending].
  case_match; [|done]. by rewrite IH, Permutation_swap.
Qed.

Lemma sort_ascending_Permutation (l : list Qc) : sort_ascending l ≡ₚ l.
Proof.
  induction l as [|a l IH]; [done|]. unfold sort_ascending in *. simpl.
  by rewrite insert_ascending_Permutation, IH.
Qed.

Lemma insert_ascending_Sorted (a : Qc) (l : list Qc) :
  Sorted Qcle l → Sorted Qcle (insert_ascending a l).
Proof.
  induction l as [|b l IH]; intros Hl.
  { repeat constructor. }
  cbn [insert_ascending]. rewrite gt_sub_Fin.
  apply Sorted_inv in Hl as [Hl Hb]. case_bool_decide as Hab.
  - constructor; [by apply IH|].
    destruct l as [|c l]; cbn [insert_ascending].
    + constructor. by apply Qclt_le_weak.
    + rewrite gt_sub_Fin. case_bool_decide.
      * constructor. by apply HdRel_inv in Hb.
      * constructor. by apply Qclt_le_weak.
  - constructor; [by constructor|]. constructor. by apply Qcnot_lt_le.
Qed.

Lemma sort_ascending_Sorted (l : list Qc) : Sorted Qcle (sort_ascending l).
Proof.
  induction l as [|a l IH]; [constructor|].
  unfold sort_ascending in *. simpl. by apply insert_ascending_Sorted.
Qed.

Lemma Sorted_NoDup_strict (l : list Qc) :
  Sorted Qcle l → NoDup l → StronglySorted Qclt l.
Proof.
  intros Hs%Sorted_StronglySorted; [|apply _].
  induction Hs as [|a l Hl IH Ha]; intros Hnd; [constructor|].
  apply NoDup_cons in Hnd as [Hal Hnd]. constructor; [by apply IH|].
  rewrite Forall_forall in Ha |- *. intros b Hb.
  destruct (Qcle_lt_or_eq _ _ (Ha b Hb)) as [?| ->]; [done|].
  by destruct Hal.
Qed.

Section MoreEngineFacts.

Variable Math_pow : number → number → number.
Hypothesis Math_pow_NaN : ∀ x, Math_pow x NaN = NaN.
Hypothesis Math_pow_square : ∀ x, Math_pow x (dec 2) = (x * x)%J.

Variable A4 : number.
Variable NOTE_INDEX : gmap string Qc.
Variable FLAT_TO_SHARP : gmap string string.
Variable PLAIN_UNIT_WEIGHTS WOUND_UNIT_WEIGHTS : gmap Qc Qc.
Variable PLAIN_GAUGES WOUND_GAUGES : list Qc.

Local Abbreviation noteToFreq :=
  (noteToFreq Math_pow A4 NOTE_INDEX FLAT_TO_SHARP).
Local Abbreviation frequency_of :=
  (frequency_of Math_pow A4 NOTE_INDEX FLAT_TO_SHARP).
Local Abbreviation recognized := (recognized NOTE_INDEX FLAT_TO_SHARP).
Local Abbreviation unit_weights :=
  (unit_weights PLAIN_UNIT_WEIGHTS WOUND_UNIT_WEIGHTS).
Local Abbreviation catalog := (catalog PLAIN_GAUGES WOUND_GAUGES).
Local Abbreviation tensionFromMu := (tensionFromMu Math_pow).
Local Abbreviation calcTension :=
  (calcTension Math_pow PLAIN_UNIT_WEIGHTS WOUND_UNIT_WEIGHTS).
Local Abbreviation recommendGauge :=
  (recommendGauge Math_pow PLAIN_UNIT_WEIGHTS WOUND_UNIT_WEIGHTS
     PLAIN_GAUGES WOUND_GAUGES).
Local Abbreviation keep_in_range := (keep_in_range Math_pow).
Local Abbreviation gaugesInRange_of := (gaugesInRange_of Math_pow).
Local Abbreviation gaugesInRange :=
  (gaugesInRange Math_pow PLAIN_UNIT_WEIGHTS WOUND_UNIT_WEIGHTS).

(** *** The gauges in range *)

Lemma keep_in_range_filter scale freq minT maxT
    (entries : list (Qc * Qc)) (valid : list Qc) :
  foldl (keep_in_range scale freq minT maxT) valid entries
  = valid ++
    (filter
       (λ e : Qc * Qc,
          isInRange (tensionFromMu (Fin e.2) scale freq) (minT, maxT) = true)
       entries).*1.
Proof.
  revert valid. induction entries as [|[g mu] entries IH]; intros valid.
  { by rewrite filter_nil, app_nil_r. }
  cbn [foldl]. rewrite IH, filter_cons. unfold keep_in_range.
  unfold isInRange. cbn [fst snd].
  destruct (decide _) as [Hin|Hin].
  - by rewrite Hin, fmap_cons, <- app_assoc.
  - by apply not_true_is_false in Hin as ->.
Qed.

Lemma gaugesInRange_of_Permutation
    (entries : list (Qc * Qc)) scale freq (targetRange : Range) :
  gaugesInRange_of entries scale freq targetRange
  ≡ₚ (filter
        (λ e : Qc * Qc,
           isInRange (tensionFromMu (Fin e.2) scale freq) targetRange = true)
        entries).*1.
Proof.
  unfold gaugesInRange_of. destruct targetRange as [minT maxT].
  by rewrite sort_ascending_Permutation, keep_in_range_filter.
Qed.

Lemma gaugesInRange_of_Sorted
    (entries : list (Qc * Qc)) scale freq (targetRange : Range) :
  Sorted Qcle (gaugesInRange_of entries scale freq targetRange).
Proof.
  unfold gaugesInRange_of. destruct targetRange as [minT maxT].
  apply sort_ascending_Sorted.
Qed.

Lemma gaugesInRange_elem
    (stype : StringType) (scale freq : number) (targetRange : Range) (g : Qc) :
  g ∈ gaugesInRange stype scale freq targetRange ↔
  ∃ mu, unit_weights stype !! g = Some mu
        ∧ isInRange (tensionFromMu (Fin mu) scale freq) targetRange = true.
Proof.
  unfold gaugesInRange.
  rewrite gaugesInRange_of_Permutation, list_elem_of_fmap. split.
  - intros ([g' mu] & -> & [Hin Hmu%elem_of_map_to_list]%list_elem_of_filter).
    by exists mu.
  - intros (mu & Hmu & Hin). exists (g, mu). split; [done|].
    apply list_elem_of_filter. split; [done|]. by apply elem_of_map_to_list.
Qed.

(** X1. [gaugesInRange] returns exactly the gauges of the class's table whose
    tension is in the target, each once, in strictly ascending order; the
    order in which the loop meets the entries of the table does not matter. *)
Theorem gaugesInRange_spec
    (stype : StringType) (scale freq : number) (targetRange : Range) :
  let result := gaugesInRange stype scale freq targetRange in
  (∀ g, g ∈ result ↔
        ∃ mu, unit_weights stype !! g = Some mu
              ∧ isInRange (tensionFromMu (Fin mu) scale freq) targetRange
                = true)
  ∧ StronglySorted Qclt result
  ∧ (∀ entries, entries ≡ₚ map_to_list (unit_weights stype) →
       gaugesInRange_of entries scale freq targetRange = result).
Proof.
  intros result. split; [|split].
  - intros g. apply gaugesInRange_elem.
  - apply Sorted_NoDup_strict; [apply gaugesInRange_of_Sorted|].
    unfold result, gaugesInRange. rewrite gaugesInRange_of_Permutation.
    apply (sublist_NoDup _ (map_to_list (unit_weights stype)).*1);
      [apply NoDup_fst_map_to_list|].
    apply fmap_sublist, sublist_filter.
  - intros entries Hentries.
    apply (Sorted_unique Qcle); [apply gaugesInRange_of_Sorted..|].
    unfold result, gaugesInRange.
    by rewrite !gaugesInRange_of_Permutation, Hentries.
Qed.

(** X2. When some catalog gauge is in a finite target, the gauge that
    [recommendGauge] returns is one of the gauges that [gaugesInRange] lists
    for the same string. *)
Theorem recommendGauge_in_gaugesInRange
    (stype : StringType) (scale freq : number) (minT maxT : Qc) (g0 : Qc) :
  g0 ∈ catalog stype →
  isInRange (tensionFromMu (to_number (unit_weights stype !! g0)) scale freq)
    (Fin minT, Fin maxT) = true →
  ∃ g, recommendGauge stype scale freq (Fin minT, Fin maxT) = Some g
       ∧ g ∈ gaugesInRange stype scale freq (Fin minT, Fin maxT).
Proof.
  intros Hg0 Hin0.
  destruct (recommendGauge_in_range_closest Math_pow
              PLAIN_UNIT_WEIGHTS WOUND_UNIT_WEIGHTS PLAIN_GAUGES WOUND_GAUGES
              stype scale freq minT maxT) as (g & Hg & Hclosest);
    [by exists g0|].
  exists g. split; [done|].
  destruct Hclosest as (_ & _ & _ & Hin & _).
  apply gaugesInRange_elem.
  destruct (unit_weights stype !! g) as [mu|] eqn:Hmu; [by exists mu|].
  exfalso. revert Hin. unfold isInRange, tensionFromMu. simpl.
  by rewrite mul_NaN_r.
Qed.

(** *** What the recommender returns on any input *)

Lemma collect_in_range_members table scale freq minT maxT
    (gauges : list Qc) (acc : list (Qc * number)) (e : Qc * number) :
  e ∈ foldl (collect_in_range Math_pow table scale freq minT maxT) acc gauges →
  e ∈ acc ∨ e.1 ∈ gauges.
Proof.
  revert acc. induction gauges as [|g gauges IH]; intros acc; [by left|].
  cbn [foldl]. intros [He|He]%IH; [|right; by apply list_elem_of_further].
  unfold collect_in_range in He. destruct (_ && _); [|by left].
  apply elem_of_app in He as [?| ->%list_elem_of_singleton]; [by left|].
  right. apply list_elem_of_here.
Qed.

Lemma closer_in_range_member midpoint
    (l : list (Qc * number)) (best : Qc * number) :
  (foldl (closer_in_range midpoint) best l).1 = best.1
  ∨ (foldl (closer_in_range midpoint) best l).1 ∈ l.*1.
Proof.
  revert best. induction l as [|e l IH]; intros best; [by left|].
  cbn [foldl]. rewrite fmap_cons.
  destruct (IH (closer_in_range midpoint best e)) as [->|?];
    [|right; by apply list_elem_of_further].
  unfold closer_in_range. destruct (_ <? _)%J; [|by left].
  right. apply list_elem_of_here.
Qed.

Lemma closer_in_catalog_member table scale freq midpoint
    (gauges : list Qc) (best : option Qc * number) :
  (foldl (closer_in_catalog Math_pow table scale freq midpoint) best gauges).1
  = best.1
  ∨ ∃ g, g ∈ gauges
         ∧ (foldl (closer_in_catalog Math_pow table scale freq midpoint)
              best gauges).1 = Some g.
Proof.
  revert best. induction gauges as [|g gauges IH]; intros best; [by left|].
  cbn [foldl].
  destruct (IH (closer_in_catalog Math_pow table scale freq midpoint best g))
    as [->|(g' & Hg' & ->)].
  - unfold closer_in_catalog. destruct (_ <? _)%J; [|by left].
    right. exists g. split; [apply list_elem_of_here | done].
  - right. exists g'. split; [by apply list_elem_of_further | done].
Qed.

Lemma recommendGauge_cases
    (stype : StringType) (scale freq : number) (target : Range) :
  match recommendGauge stype scale freq target with
  | Some g => g ∈ catalog stype
  | None => catalog stype = []
  end.
Proof.
  unfold recommendGauge. destruct target as [minT maxT]. cbv zeta.
  set (midpoint := ((minT + maxT) / dec 2)%J).
  set (inRange := foldl _ [] (catalog stype)).
  assert (∀ e, e ∈ inRange → e.1 ∈ catalog stype) as Hin.
  { intros e [He%elem_of_nil|He]%collect_in_range_members; done. }
  destruct inRange as [|first rest] eqn:E.
  - destruct (closer_in_catalog_member (unit_weights stype) scale freq
                midpoint (catalog stype) (head (catalog stype), PInf))
      as [->|(g & Hg & ->)]; [|done].
    simpl. destruct (catalog stype) as [|g l]; [done|]. apply list_elem_of_here.
  - destruct (closer_in_range_member midpoint (first :: rest)
                (first.1, Num.abs (first.2 - midpoint)%J)) as [->|Hmem].
    + simpl. apply (Hin first), list_elem_of_here.
    + apply list_elem_of_fmap in Hmem as (e & -> & He). by apply Hin.
Qed.

(** X3. Whatever the scale, the frequency and the target are — [NaN] and
    infinities included — [recommendGauge] returns a gauge of the class's
    catalog; it returns [undefined] only when the catalog is empty. *)
Theorem recommendGauge_in_catalog
    (stype : StringType) (scale freq : number) (target : Range) :
  match recommendGauge stype scale freq target with
  | Some g => g ∈ catalog stype
  | None => catalog stype = []
  end.
Proof. apply recommendGauge_cases. Qed.

Lemma tensionFromMu_NaN_freq (mu scale : number) :
  tensionFromMu mu scale NaN = NaN.
Proof. unfold tensionFromMu. by rewrite mul_NaN_r, Math_pow_square. Qed.

Lemma recommendGauge_NaN_freq
    (stype : StringType) (scale : number) (target : Range) :
  recommendGauge stype scale NaN target = head (catalog stype).
Proof.
  unfold recommendGauge. destruct target as [minT maxT]. cbv zeta.
  assert (∀ gauges acc,
            foldl (collect_in_range Math_pow (unit_weights stype) scale NaN
                     minT maxT) acc gauges = acc) as ->.
  { induction gauges as [|g gauges IH]; intros acc; [done|].
    cbn [foldl]. rewrite IH. unfold collect_in_range.
    rewrite tensionFromMu_NaN_freq. by destruct minT. }
  assert (∀ gauges best,
            foldl (closer_in_catalog Math_pow (unit_weights stype) scale NaN
                     ((minT + maxT) / dec 2)%J) best gauges = best) as ->; [|done].
  induction gauges as [|g gauges IH]; intros best; [done|].
  cbn [foldl]. rewrite IH. unfold closer_in_catalog.
  by rewrite tensionFromMu_NaN_freq.
Qed.

(** X4. A string whose note is not a valid token gets the first gauge of the
    class's catalog, whatever its scale and target: the frequency is [NaN], no
    tension compares with anything, and the search keeps its start value. *)
Theorem recommendGauge_invalid_note
    (stype : StringType) (scale : number) (target : Range) (note : string) :
  ¬ recognized (Str.slice note 0 (Some (-1)%Z))
  ∨ Str.parseInt (Str.slice note (-1) None) = NaN →
  recommendGauge stype scale (noteToFreq note) target = head (catalog stype).
Proof.
  intros Hnote.
  assert (noteToFreq note = NaN) as ->.
  { rewrite (noteToFreq_cut Math_pow A4 NOTE_INDEX FLAT_TO_SHARP).
    destruct Hnote as [Hname | ->].
    - by apply frequency_of_unrecognized.
    - by apply frequency_of_NaN. }
  apply recommendGauge_NaN_freq.
Qed.

(** *** Range membership *)

(** A tension that is in a target is a number, and the target's bounds are
    in order. *)
Lemma isInRange_le (tension lo hi : number) :
  isInRange tension (lo, hi) = true →
  tension ≠ NaN ∧ (lo <=? hi)%J = true.
Proof.
  unfold isInRange, Num.ge. simpl. intros [Hlo Hhi]%andb_true_iff.
  split; [by destruct tension|]. by eapply le_trans.
Qed.

(** X5. With a target whose min is above its max, nothing is in range and
    [recommendGauge] is its fallback: the first catalog gauge among those
    closest to the midpoint of the two bounds. *)
Theorem recommendGauge_inverted_target
    (stype : StringType) (s f minT maxT : Qc) :
  let tension (g : Qc) : number :=
    tensionFromMu (to_number (unit_weights stype !! g)) (Fin s) (Fin f) in
  let midpoint : number := ((Fin minT + Fin maxT) / dec 2)%J in
  let error (g : Qc) : number := Num.abs (tension g - midpoint)%J in
  maxT < minT →
  catalog stype ≠ [] →
  (∀ g, g ∈ catalog stype → is_Some (unit_weights stype !! g)) →
  ∃ g, recommendGauge stype (Fin s) (Fin f) (Fin minT, Fin maxT) = Some g
       ∧ closest error (λ _, True) (catalog stype) g.
Proof.
  intros tension midpoint error Hinv Hne Htable.
  apply (recommendGauge_fallback_closest Math_pow PLAIN_UNIT_WEIGHTS
           WOUND_UNIT_WEIGHTS PLAIN_GAUGES WOUND_GAUGES); [|done|].
  - intros g _. apply not_true_is_false.
    intros [_ Hle]%isInRange_le. unfold Num.le in Hle.
    apply bool_decide_eq_true in Hle. by apply Qcle_not_lt in Hle.
  - intros g Hg. destruct (Htable g Hg) as [mu ->].
    eexists. by apply tensionFromMu_Fin.
Qed.

(** *** The tension formula *)

Lemma calcTension_Fin (gauge : number) (stype : StringType) (s f : Qc) :
  ∃ mu, or_default (lookup_gauge (unit_weights stype) gauge) (dec 0) = Fin mu
        ∧ calcTension gauge stype (Fin s) (Fin f)
          = Fin ((Q2Qc 2 * s * f) ^ 2 * mu / Q2Qc 386.4).
Proof.
  unfold calcTension. cbv zeta.
  assert (∃ mu, or_default (lookup_gauge (unit_weights stype) gauge) (dec 0)
                = Fin mu) as [mu Hmu].
  { unfold or_default. destruct (lookup_gauge _ _) as [mu|]; [|by eexists].
    destruct (Num.truthy _); by eexists. }
  exists mu. split; [done|]. rewrite Hmu. by apply tensionFromMu_Fin.
Qed.


(** X7. A heavier string is tighter: on one string, of two gauges of the table
    the one with the larger unit weight has the larger tension, and a unit
    weight that is not negative gives a tension that is not negative. *)
Theorem calcTension_monotone
    (stype : StringType) (g1 g2 mu1 mu2 s f : Qc) :
  unit_weights stype !! g1 = Some mu1 →
  unit_weights stype !! g2 = Some mu2 →
  0 ≤ mu1 → mu1 ≤ mu2 →
  (dec 0 <=? calcTension (Fin g1) stype (Fin s) (Fin f))%J = true
  ∧ (calcTension (Fin g1) stype (Fin s) (Fin f)
     <=? calcTension (Fin g2) stype (Fin s) (Fin f))%J = true.
Proof.
  intros H1 H2 Hpos Hle.
  destruct (calcTension_Fin (Fin g1) stype s f) as (m1 & Hm1 & ->).
  destruct (calcTension_Fin (Fin g2) stype s f) as (m2 & Hm2 & ->).
  simpl in Hm1, Hm2. rewrite H1 in Hm1. rewrite H2 in Hm2.
  rewrite or_default_zero in Hm1, Hm2.
  injection Hm1 as <-. injection Hm2 as <-.
  unfold Num.le, dec. rewrite !bool_decide_eq_true.
  set (x := Q2Qc 2 * s * f). unfold Qcdiv, Qcpower.
  assert (0 ≤ x * (x * 1)) as Hx by (qc_unfold; nra).
  assert (0 < / Q2Qc 386.4) as Hg by (by qc_unfold).
  set (y := x * (x * 1)) in *. set (i := / Q2Qc 386.4) in *.
  clearbody y i. clear x.
  assert (0 ≤ y * mu1) as Hy1 by (qc_unfold; nra).
  assert (y * mu1 ≤ y * mu2) as Hy2 by (qc_unfold; nra).
  split; qc_unfold; nra.
Qed.

(** *** Pitch *)

(** X8. A note spelled with a flat sounds as the sharp it is respelled to: the
    two tokens have the same frequency in every octave. *)
Theorem noteToFreq_enharmonic (flat sharp : string) (c : Ascii.ascii) :
  FLAT_TO_SHARP !! flat = Some sharp →
  FLAT_TO_SHARP !! sharp = None →
  noteToFreq (flat ++ String c "") = noteToFreq (sharp ++ String c "").
Proof.
  intros Hflat Hsharp.
  rewrite !(noteToFreq_cut Math_pow A4 NOTE_INDEX FLAT_TO_SHARP),
    !slice_init, !slice_last.
  unfold frequency_of. by rewrite Hflat, Hsharp.
Qed.

End MoreEngineFacts.

(** ** Names and labels *)

Lemma append_empty (s t : string) : (s ++ t)%string = "" → s = "" ∧ t = "".
Proof. by destruct s. Qed.

(** X9. [tuningName] gives the empty name to the empty tuning and to no other. *)
Theorem tuningName_empty (tuning : list string) :
  tuningName tuning = "" ↔ tuning = [].
Proof.
  split; [|by intros ->]. destruct tuning as [|first rest]; [done|].
  unfold tuningName. cbv zeta.
  destruct (tuning_patterns !! _) as [name|].
  - destruct (decide (name = "")); [|done]. by intros [_ [=]]%append_empty.
  - by intros [_ [=]]%append_empty.
Qed.

Lemma append_nil_r (s : string) : (s ++ "")%string = s.
Proof.
  induction s as [|c s IH]; [done|]. exact (f_equal (String c) IH).
Qed.

Lemma append_assoc (s t u : string) :
  (s ++ (t ++ u))%string = ((s ++ t) ++ u)%string.
Proof.
  induction s as [|c s IH]; [done|]. exact (f_equal (String c) IH).
Qed.

Lemma split_dots_no_dot (piece s : string) :
  "."%char ∉ list_ascii_of_string s → split_dots piece s = [(piece ++ s)%string].
Proof.
  revert piece. induction s as [|c s IH]; intros piece Hs; simpl.
  { by rewrite append_nil_r. }
  simpl in Hs. apply not_elem_of_cons in Hs as [Hc Hs].
  destruct (decide (c = "."%char)); [done|].
  rewrite IH by done. by rewrite <- append_assoc.
Qed.

Lemma split_dots_first_dot (piece s t : string) :
  "."%char ∉ list_ascii_of_string s →
  split_dots piece (s ++ "." ++ t)%string
  = (piece ++ s)%string :: split_dots "" t.
Proof.
  revert piece. induction s as [|c s IH]; intros piece Hs; simpl.
  { by rewrite append_nil_r. }
  simpl in Hs. apply not_elem_of_cons in Hs as [Hc Hs].
  destruct (decide (c = "."%char)); [done|].
  rewrite IH by done. by rewrite <- append_assoc.
Qed.

Lemma length_append (s t : string) :
  String.length (s ++ t)%string = (String.length s + String.length t)%nat.
Proof. induction s as [|c s IH]; simpl; [done | by rewrite IH]. Qed.

Lemma length_string_of_list (l : list Ascii.ascii) :
  String.length (string_of_list_ascii l) = length l.
Proof. induction l as [|c l IH]; simpl; [done | by rewrite IH]. Qed.

Lemma length_padEnd_zeros (n : nat) (s : string) :
  String.length (padEnd_zeros n s) = (n `max` String.length s)%nat.
Proof.
  unfold padEnd_zeros.
  rewrite length_append, length_string_of_list, length_replicate. lia.
Qed.

(** X10. [formatGauge] keeps the digits after the dot of the number's text and
    fills them up with zeros to three: the label is a dot followed by at least
    three characters, and the part before the dot is not in it.  A text
    without a dot — a whole number, or a number written with an exponent — is
    labelled ".000". *)
Theorem formatGauge_digits
    (toString : number → string) (gauge : number) (whole digits : string) :
  "."%char ∉ list_ascii_of_string whole →
  "."%char ∉ list_ascii_of_string digits →
  (toString gauge = (whole ++ "." ++ digits)%string →
   formatGauge toString gauge = ("." ++ padEnd_zeros 3 digits)%string
   ∧ String.length (formatGauge toString gauge)
     = S (3 `max` String.length digits))
  ∧ (toString gauge = whole → formatGauge toString gauge = ".000").
Proof.
  intros Hwhole Hdigits. unfold formatGauge. cbv zeta. split.
  - intros ->. rewrite split_dots_first_dot, split_dots_no_dot by done.
    simpl (_ !! _). change ("" ++ digits)%string with digits.
    split; [done|]. by rewrite length_append, length_padEnd_zeros.
  - intros ->. by rewrite split_dots_no_dot.
Qed.

(** The text "0.01" is labelled ".010". *)
Lemma formatGauge_digits_witness :
  let toString : number → string := λ _, "0.01" in
  ("."%char ∉ list_ascii_of_string "0")
  ∧ ("."%char ∉ list_ascii_of_string "01")
  ∧ formatGauge toString (dec 0.01) = ".010".
Proof.
  intros toString.
  assert ("."%char ∉ list_ascii_of_string "0") as H0
    by (intros [[=]|[]%elem_of_nil]%elem_of_cons).
  assert ("."%char ∉ list_ascii_of_string "01") as H1
    by (intros [[=]|[[=]|[]%elem_of_nil]%elem_of_cons]%elem_of_cons).
  split; [exact H0|]. split; [exact H1|].
  apply (proj1 (formatGauge_digits toString (dec 0.01) "0" "01" H0 H1)).
  reflexivity.
Defined.

(** * Further properties of the inventory *)

Lemma foldl_elem_ind {A B} (f : B → A → B) (I : B → Prop) (l : list A) (b : B) :
  I b → (∀ b x, x ∈ l → I b → I (f b x)) → I (foldl f b l).
Proof.
  revert b. induction l as [|x l IH]; intros b Hb Hstep; [done|].
  cbn [foldl]. apply IH.
  - apply Hstep; [apply list_elem_of_here | done].
  - intros b' y Hy. apply Hstep. by apply list_elem_of_further.
Qed.

Lemma foldl_filter {A B} (f g : B → A → B) (P : A → Prop)
    `{!∀ x, Decision (P x)} (l : list A) (b : B) :
  (∀ b x, f b x = if decide (P x) then g b x else b) →
  foldl f b l = foldl g b (filter P l).
Proof.
  intros Hfg. revert b. induction l as [|x l IH]; intros b; [done|].
  cbn [foldl]. rewrite filter_cons, Hfg.
  destruct (decide (P x)); [cbn [foldl]|]; apply IH.
Qed.

(** [a - b > 0] is [b < a], whatever the numbers. *)
Lemma gt_sub (x y : number) : (x - y >? dec 0)%J = (y <? x)%J.
Proof.
  destruct x as [| |a|], y as [| |b|]; try done.
  unfold Num.gt. rewrite sub_Fin. unfold Num.lt, dec.
  apply bool_decide_ext. split; intros H; qc_unfold; lra.
Qed.

Lemma truthy_not_NaN (x : number) : Num.truthy x = true → x ≠ NaN.
Proof. by destruct x. Qed.

Section InventoryFacts.

Variable Math_pow : number → number → number.
Variable A4 : number.
Variable NOTE_INDEX : gmap string Qc.
Variable FLAT_TO_SHARP : gmap string string.
Variable PLAIN_UNIT_WEIGHTS WOUND_UNIT_WEIGHTS : gmap Qc Qc.

Local Abbreviation noteToFreq :=
  (noteToFreq Math_pow A4 NOTE_INDEX FLAT_TO_SHARP).
Local Abbreviation unit_weights :=
  (unit_weights PLAIN_UNIT_WEIGHTS WOUND_UNIT_WEIGHTS).
Local Abbreviation calcTension :=
  (calcTension Math_pow PLAIN_UNIT_WEIGHTS WOUND_UNIT_WEIGHTS).
Local Abbreviation collect_usage :=
  (collect_usage Math_pow A4 NOTE_INDEX FLAT_TO_SHARP).
Local Abbreviation collect_guitar :=
  (collect_guitar Math_pow A4 NOTE_INDEX FLAT_TO_SHARP).
Local Abbreviation collect_usages :=
  (collect_usages Math_pow A4 NOTE_INDEX FLAT_TO_SHARP).
Local Abbreviation consider_swap :=
  (consider_swap Math_pow PLAIN_UNIT_WEIGHTS WOUND_UNIT_WEIGHTS).
Local Abbreviation swap_search :=
  (swap_search Math_pow PLAIN_UNIT_WEIGHTS WOUND_UNIT_WEIGHTS).
Local Abbreviation find_swap :=
  (find_swap Math_pow PLAIN_UNIT_WEIGHTS WOUND_UNIT_WEIGHTS).
Local Abbreviation buildGaugeUsages :=
  (buildGaugeUsages Math_pow A4 NOTE_INDEX FLAT_TO_SHARP
     PLAIN_UNIT_WEIGHTS WOUND_UNIT_WEIGHTS).
Local Abbreviation swap_candidate :=
  (swap_candidate PLAIN_UNIT_WEIGHTS WOUND_UNIT_WEIGHTS).
Local Abbreviation swap_deviation :=
  (swap_deviation Math_pow PLAIN_UNIT_WEIGHTS WOUND_UNIT_WEIGHTS).
Local Abbreviation recorded_from :=
  (recorded_from Math_pow A4 NOTE_INDEX FLAT_TO_SHARP).

(** ** The first pass, one selection at a time *)

(** What holds of the empty map and is kept by every step of the inner loop
    holds of the map that the first pass builds. *)
Lemma collect_usages_ind
    (I : list GaugeUsageWithSwap → Prop) guitars selections :
  I [] →
  (∀ gIdx guitar sIdx sel usageMap,
     guitars !! gIdx = Some guitar →
     default [] (selections !! gIdx) !! sIdx = Some sel →
     I usageMap →
     I (collect_usage gIdx guitar
          (resolveScales (scale guitar) (n_strings guitar)) usageMap
          (sIdx, sel))) →
  I (collect_usages guitars selections).
Proof.
  intros Hnil Hstep. unfold collect_usages.
  apply foldl_elem_ind; [done|].
  intros usageMap [gIdx guitar] Hguitar%indexed_lookup HI.
  unfold collect_guitar. cbv zeta.
  apply foldl_elem_ind; [done|].
  intros usageMap' [sIdx sel] Hsel%indexed_lookup HI'.
  by apply Hstep.
Qed.

Lemma elem_of_usageMap_record key info (usageMap : list GaugeUsageWithSwap) u :
  u ∈ usageMap_record key info usageMap →
  u ∈ usageMap
  ∨ ∃ u0, u0 ∈ usageMap ∧ usage_key u0 = key ∧ usage_key u = key
          ∧ usages u = usages u0 ++ [info].
Proof.
  unfold usageMap_record. intros (u0 & -> & Hu0)%list_elem_of_fmap.
  destruct (decide (usage_key u0 = key)) as [E|E]; [|by left].
  right. exists u0. by repeat split.
Qed.

(** The usages of a group come from selections with the key of the group. *)
Lemma collect_usages_recorded guitars selections u info :
  u ∈ collect_usages guitars selections → info ∈ usages u →
  recorded_from guitars selections (usage_key u) info.
Proof.
  revert u info. apply collect_usages_ind.
  { by intros u info Hu%elem_of_nil. }
  intros gIdx guitar sIdx sel usageMap Hguitar Hsel IH u info.
  unfold collect_usage. destruct sel as [sel|]; [|by apply IH].
  destruct (Num.truthy (gauge sel)) eqn:Hgauge; [|by apply IH].
  cbn [negb]. cbv zeta.
  set (new := {| g_gauge := gauge sel; g_type := type sel; count := 0%nat;
                 usages := []; swapOption := None |}).
  assert (∀ u info, u ∈ (if usageMap_has usageMap (gauge sel, type sel)
                          then usageMap else usageMap ++ [new]) →
                    info ∈ usages u →
                    recorded_from guitars selections (usage_key u) info)
    as IH'.
  { intros u' info'. destruct (usageMap_has _ _); [by apply IH|].
    intros [? | ->%list_elem_of_singleton]%elem_of_app; [by apply IH|].
    by intros ?%elem_of_nil. }
  intros [Hu | (u0 & Hu0 & Hkey0 & Hkey & ->)]%elem_of_usageMap_record;
    [by apply IH'|].
  intros [Hinfo | ->%list_elem_of_singleton]%elem_of_app.
  - rewrite Hkey, <- Hkey0. by apply IH'.
  - rewrite Hkey. exists guitar, sel. by repeat split.
Qed.

(** A recorded usage stays in its group. *)
Lemma collect_usage_keeps gIdx guitar scales usageMap entry key info :
  (∃ u, u ∈ usageMap ∧ usage_key u = key ∧ info ∈ usages u) →
  ∃ u, u ∈ collect_usage gIdx guitar scales usageMap entry
       ∧ usage_key u = key ∧ info ∈ usages u.
Proof.
  intros (u & Hu & Hkey & Hinfo). destruct entry as [sIdx sel].
  unfold collect_usage. destruct sel as [sel|]; [|by exists u].
  destruct (negb _); [by exists u|]. cbv zeta.
  set (m := if usageMap_has _ _ then _ else _).
  assert (u ∈ m) as Hm.
  { unfold m. destruct (usageMap_has _ _); [done|].
    apply elem_of_app. by left. }
  unfold usageMap_record.
  eexists. split; [apply list_elem_of_fmap; by exists u|].
  destruct (decide _); simpl; [|done].
  split; [done|]. apply elem_of_app. by left.
Qed.

(** A selection with a gauge is recorded in the group of its key. *)
Lemma collect_usage_adds gIdx guitar scales usageMap sIdx sel :
  Num.truthy (gauge sel) = true →
  ∃ u info,
    u ∈ collect_usage gIdx guitar scales usageMap (sIdx, Some sel)
    ∧ usage_key u = (gauge sel, type sel) ∧ info ∈ usages u
    ∧ guitarIdx info = gIdx ∧ stringIdx info = sIdx.
Proof.
  intros Hgauge. unfold collect_usage. rewrite Hgauge. cbn [negb]. cbv zeta.
  set (new := {| g_gauge := gauge sel; g_type := type sel; count := 0%nat;
                 usages := []; swapOption := None |}).
  set (m := if usageMap_has _ _ then _ else _).
  assert (∃ u0, u0 ∈ m ∧ usage_key u0 = (gauge sel, type sel))
    as (u0 & Hu0 & Hkey0).
  { unfold m, usageMap_has. case_bool_decide as Hkey.
    - apply list_elem_of_fmap in Hkey as (u0 & ? & ?). by exists u0.
    - exists new. split; [|done]. apply elem_of_app. right.
      by apply list_elem_of_singleton. }
  unfold usageMap_record.
  eexists _, _. split; [apply list_elem_of_fmap; by exists u0|].
  rewrite decide_True by done. simpl.
  split; [exact Hkey0|]. split.
  - apply elem_of_app. right. by apply list_elem_of_singleton.
  - done.
Qed.

Lemma collect_strings_complete gIdx guitar scales entries usageMap sIdx sel :
  (sIdx, Some sel) ∈ entries → Num.truthy (gauge sel) = true →
  ∃ u info,
    u ∈ foldl (collect_usage gIdx guitar scales) usageMap entries
    ∧ usage_key u = (gauge sel, type sel) ∧ info ∈ usages u
    ∧ guitarIdx info = gIdx ∧ stringIdx info = sIdx.
Proof.
  intros Hin Hgauge. revert usageMap.
  induction entries as [|entry entries IH]; intros usageMap.
  { by apply elem_of_nil in Hin. }
  cbn [foldl]. apply elem_of_cons in Hin as [<- | Hin]; [|by apply IH].
  destruct (collect_usage_adds gIdx guitar scales usageMap sIdx sel Hgauge)
    as (u & info & Hu & Hkey & Hinfo & Hg & Hs).
  assert (∃ u, u ∈ foldl (collect_usage gIdx guitar scales)
                     (collect_usage gIdx guitar scales usageMap
                        (sIdx, Some sel)) entries
               ∧ usage_key u = (gauge sel, type sel) ∧ info ∈ usages u)
    as (u' & ? & ? & ?).
  { apply (foldl_elem_ind _
             (λ m, ∃ u, u ∈ m ∧ usage_key u = (gauge sel, type sel)
                        ∧ info ∈ usages u)).
    - by exists u.
    - intros m entry _ Hm. by apply collect_usage_keeps. }
  by exists u', info.
Qed.

Lemma indexed_elem_of {A} (l : list A) (i : nat) (x : A) :
  l !! i = Some x → (i, x) ∈ indexed l.
Proof.
  intros Hi. unfold indexed. apply list_elem_of_lookup. exists i.
  apply lookup_zip_with_Some. exists i, x. split; [done|]. split; [|done].
  apply lookup_seq. split; [done|]. by apply lookup_lt_Some in Hi.
Qed.

Lemma collect_usages_complete guitars selections gIdx guitar sIdx sel :
  guitars !! gIdx = Some guitar →
  default [] (selections !! gIdx) !! sIdx = Some (Some sel) →
  Num.truthy (gauge sel) = true →
  ∃ u info,
    u ∈ collect_usages guitars selections
    ∧ usage_key u = (gauge sel, type sel) ∧ info ∈ usages u
    ∧ guitarIdx info = gIdx ∧ stringIdx info = sIdx.
Proof.
  intros Hguitar%indexed_elem_of Hsel%indexed_elem_of Hgauge.
  unfold collect_usages. generalize (@nil GaugeUsageWithSwap) as usageMap.
  induction (indexed guitars) as [|entry entries IH]; intros usageMap.
  { by apply elem_of_nil in Hguitar. }
  cbn [foldl]. apply elem_of_cons in Hguitar as [<- | Hin]; [|by apply IH].
  unfold collect_guitar at 2. cbv zeta.
  destruct (collect_strings_complete gIdx guitar
              (resolveScales (scale guitar) (n_strings guitar))
              _ usageMap sIdx sel Hsel Hgauge)
    as (u & info & Hu & Hkey & Hinfo & Hg & Hs).
  assert (∃ u', u' ∈ foldl (collect_guitar selections)
                       (foldl (collect_usage gIdx guitar
                                 (resolveScales (scale guitar)
                                    (n_strings guitar)))
                          usageMap
                          (indexed (default [] (selections !! gIdx))))
                       entries
                ∧ usage_key u' = (gauge sel, type sel) ∧ info ∈ usages u')
    as (u' & ? & ? & ?).
  { apply (foldl_elem_ind _
             (λ m, ∃ u, u ∈ m ∧ usage_key u = (gauge sel, type sel)
                        ∧ info ∈ usages u)).
    - by exists u.
    - intros m [gIdx' guitar'] _ Hm. unfold collect_guitar. cbv zeta.
      apply (foldl_elem_ind _
               (λ m, ∃ u, u ∈ m ∧ usage_key u = (gauge sel, type sel)
                          ∧ info ∈ usages u)); [done|].
      intros m' entry _ Hm'. by apply collect_usage_keeps. }
  by exists u', info.
Qed.

(** The groups of the result are the groups of the first pass with their
    swaps. *)
Lemma elem_of_buildGaugeUsages guitars selections u :
  u ∈ buildGaugeUsages guitars selections ↔
  ∃ u0, u0 ∈ collect_usages guitars selections
        ∧ u = find_swap (collect_usages guitars selections) u0.
Proof.
  unfold buildGaugeUsages. cbv zeta.
  rewrite sort_by_gauge_Permutation, list_elem_of_fmap.
  split; intros (u0 & ? & ?); by exists u0.
Qed.

(** X11. The usages of the inventory are the selections with a gauge: every
    usage of a group is the record of a selection with the key of the group,
    at a string of a guitar, with the context of that string; and every
    selection with a gauge under the index of a guitar has its usage in the
    group of its key. *)
Theorem buildGaugeUsages_usages
    (guitars : list Guitar) (selections : GuitarSelections) :
  let groups := buildGaugeUsages guitars selections in
  (∀ u info, u ∈ groups → info ∈ usages u →
     recorded_from guitars selections (usage_key u) info)
  ∧ (∀ gIdx guitar sIdx sel,
       guitars !! gIdx = Some guitar →
       default [] (selections !! gIdx) !! sIdx = Some (Some sel) →
       Num.truthy (gauge sel) = true →
       ∃ u info,
         u ∈ groups ∧ usage_key u = (gauge sel, type sel)
         ∧ info ∈ usages u
         ∧ guitarIdx info = gIdx ∧ stringIdx info = sIdx).
Proof.
  intros groups. split.
  - intros u info (u0 & Hu0 & ->)%elem_of_buildGaugeUsages.
    destruct (find_swap_fields Math_pow PLAIN_UNIT_WEIGHTS WOUND_UNIT_WEIGHTS
                (collect_usages guitars selections) u0)
      as (Hg & Ht & _ & Hus).
    unfold usage_key. rewrite Hg, Ht, Hus. by apply collect_usages_recorded.
  - intros gIdx guitar sIdx sel Hguitar Hsel Hgauge.
    destruct (collect_usages_complete guitars selections gIdx guitar sIdx sel
                Hguitar Hsel Hgauge)
      as (u0 & info & Hu0 & Hkey & Hinfo & Hg & Hs).
    exists (find_swap (collect_usages guitars selections) u0), info.
    destruct (find_swap_fields Math_pow PLAIN_UNIT_WEIGHTS WOUND_UNIT_WEIGHTS
                (collect_usages guitars selections) u0)
      as (Hg' & Ht' & _ & Hus).
    split; [apply elem_of_buildGaugeUsages; by exists u0|].
    unfold usage_key. rewrite Hg', Ht', Hus. by repeat split.
Qed.

(** ** The order of the groups *)

Lemma insert_by_gauge_sorted a (l : list GaugeUsageWithSwap) :
  g_gauge a ≠ NaN → Forall (λ b, g_gauge b ≠ NaN) l →
  StronglySorted (λ u v, (g_gauge u <=? g_gauge v)%J = true) l →
  StronglySorted (λ u v, (g_gauge u <=? g_gauge v)%J = true)
    (insert_by_gauge a l).
Proof.
  intros Ha. induction l as [|b l IH]; intros Hl Hs.
  { repeat constructor. }
  apply Forall_cons in Hl as [Hb Hl].
  apply StronglySorted_inv in Hs as [Hs Hbl].
  cbn [insert_by_gauge]. rewrite gt_sub.
  destruct (g_gauge b <? g_gauge a)%J eqn:Hlt.
  - constructor; [by apply IH|].
    rewrite insert_by_gauge_Permutation. constructor; [by apply lt_le | done].
  - apply lt_false_le in Hlt; [|done..].
    constructor; [by constructor|]. constructor; [done|].
    eapply Forall_impl; [exact Hbl|]. intros c Hc. simpl in *.
    eapply le_trans; [exact Hlt | exact Hc].
Qed.

Lemma sort_by_gauge_sorted (l : list GaugeUsageWithSwap) :
  Forall (λ b, g_gauge b ≠ NaN) l →
  StronglySorted (λ u v, (g_gauge u <=? g_gauge v)%J = true)
    (sort_by_gauge l).
Proof.
  induction l as [|a l IH]; intros Hl; [constructor|].
  apply Forall_cons in Hl as [Ha Hl]. unfold sort_by_gauge in *. simpl.
  apply insert_by_gauge_sorted; [done| |by apply IH].
  fold (sort_by_gauge l). by rewrite sort_by_gauge_Permutation.
Qed.

Lemma find_swap_keys all (usageMap : list GaugeUsageWithSwap) :
  usage_key <$> (find_swap all <$> usageMap) = usage_key <$> usageMap.
Proof.
  rewrite <- list_fmap_compose. apply list_fmap_ext. intros _ u _. simpl.
  destruct (find_swap_fields Math_pow PLAIN_UNIT_WEIGHTS WOUND_UNIT_WEIGHTS
              all u) as (Hg & Ht & _).
  unfold usage_key. by rewrite Hg, Ht.
Qed.

(** Every group of the first pass has a truthy gauge. *)
Lemma collect_usages_truthy guitars selections u :
  u ∈ collect_usages guitars selections → Num.truthy (g_gauge u) = true.
Proof.
  intros Hu.
  destruct (collect_usages_wf Math_pow A4 NOTE_INDEX FLAT_TO_SHARP
              guitars selections) as [[_ Hall] _].
  rewrite Forall_forall in Hall. destruct (Hall u Hu) as (Hlen & Hpos & _).
  destruct (usages u) as [|info ?] eqn:Hus; [simpl in Hlen; lia|].
  destruct (collect_usages_recorded guitars selections u info Hu)
    as (guitar & sel & _ & _ & Hgauge & Hkey & _).
  { rewrite Hus. apply list_elem_of_here. }
  injection Hkey as -> _. done.
Qed.

(** X12. The inventory lists its groups by ascending gauge, there is one group
    for a gauge and a class, and no group has a gauge that is zero or not a
    number. *)
Theorem buildGaugeUsages_sorted
    (guitars : list Guitar) (selections : GuitarSelections) :
  let groups := buildGaugeUsages guitars selections in
  StronglySorted (λ u v, (g_gauge u <=? g_gauge v)%J = true) groups
  ∧ NoDup (usage_key <$> groups)
  ∧ Forall (λ u, Num.truthy (g_gauge u) = true) groups.
Proof.
  intros groups. unfold groups, buildGaugeUsages. cbv zeta.
  set (all := collect_usages guitars selections).
  assert (Forall (λ u, Num.truthy (g_gauge u) = true) (find_swap all <$> all))
    as Htruthy.
  { apply Forall_fmap, Forall_forall. intros u Hu. simpl.
    destruct (find_swap_fields Math_pow PLAIN_UNIT_WEIGHTS WOUND_UNIT_WEIGHTS
                all u) as (-> & _).
    by apply (collect_usages_truthy guitars selections). }
  split; [|split].
  - apply sort_by_gauge_sorted. eapply Forall_impl; [exact Htruthy|].
    intros u. apply truthy_not_NaN.
  - rewrite sort_by_gauge_Permutation, find_swap_keys.
    by destruct (collect_usages_wf Math_pow A4 NOTE_INDEX FLAT_TO_SHARP
                   guitars selections) as [[? _] _].
  - by rewrite sort_by_gauge_Permutation.
Qed.

(** ** Counts by key *)

Lemma count_of_absent key (usageMap : list GaugeUsageWithSwap) :
  key ∉ usage_key <$> usageMap → count_of key usageMap = 0%nat.
Proof.
  induction usageMap as [|u m IH]; [done|].
  rewrite fmap_cons, not_elem_of_cons. intros [Hu Hm].
  unfold count_of in *. simpl. rewrite IH by done.
  by rewrite decide_False by done.
Qed.

Lemma count_of_elem (usageMap : list GaugeUsageWithSwap) u :
  NoDup (usage_key <$> usageMap) → u ∈ usageMap →
  count_of (usage_key u) usageMap = count u.
Proof.
  induction usageMap as [|u0 m IH]; [by intros _ ?%elem_of_nil|].
  rewrite fmap_cons, NoDup_cons. intros [Hu0 Hm] [-> | Hu]%elem_of_cons.
  - unfold count_of. simpl. rewrite decide_True by done.
    fold (count_of (usage_key u0) m). rewrite count_of_absent by done. lia.
  - unfold count_of. simpl. fold (count_of (usage_key u) m).
    rewrite IH by done. rewrite decide_False; [done|].
    intros E. apply Hu0. rewrite E. apply list_elem_of_fmap. by exists u.
Qed.

Lemma count_of_positive key (usageMap : list GaugeUsageWithSwap) :
  (0 < count_of key usageMap)%nat →
  ∃ u, u ∈ usageMap ∧ usage_key u = key.
Proof.
  intros Hpos. destruct (decide (key ∈ usage_key <$> usageMap)) as [Hin|Hout].
  - apply list_elem_of_fmap in Hin as (u & ? & ?). by exists u.
  - rewrite count_of_absent in Hpos by done. lia.
Qed.

Lemma usageMap_record_count_of key' info (usageMap : list GaugeUsageWithSwap) key :
  NoDup (usage_key <$> usageMap) → key' ∈ usage_key <$> usageMap →
  count_of key (usageMap_record key' info usageMap)
  = (count_of key usageMap + if decide (key' = key) then 1 else 0)%nat.
Proof.
  induction usageMap as [|u m IH]; [by intros _ ?%elem_of_nil|].
  rewrite fmap_cons, NoDup_cons, elem_of_cons. intros [Hu Hm] Hkey.
  change (usageMap_record key' info (u :: m))
    with ((if decide (usage_key u = key')
           then {| g_gauge := g_gauge u; g_type := g_type u;
                   count := S (count u); usages := usages u ++ [info];
                   swapOption := swapOption u |}
           else u) :: usageMap_record key' info m).
  unfold count_of in *. cbn [sum_list_with].
  destruct (decide (usage_key u = key')) as [E|E].
  - rewrite usageMap_record_other by (by rewrite <- E). subst key'.
    change (usage_key
              {| g_gauge := g_gauge u; g_type := g_type u;
                 count := S (count u); usages := usages u ++ [info];
                 swapOption := swapOption u |}) with (usage_key u).
    destruct (decide (usage_key u = key)); simpl; lia.
  - destruct Hkey as [Hkey|Hkey]; [done|]. rewrite IH by done. lia.
Qed.

(** The body of the inner loop adds one to the count of the key of a
    selection with a gauge, and nothing otherwise. *)
Lemma collect_usage_count_of gIdx guitar scales usageMap sIdx sel key :
  usageMap_wf usageMap →
  count_of key (collect_usage gIdx guitar scales usageMap (sIdx, sel))
  = (count_of key usageMap + if decide (uses_key key sel) then 1 else 0)%nat.
Proof.
  intros [Hnd Hall]. destruct sel as [sel|].
  2:{ destruct (decide (uses_key key None)) as [[[] _]|]. simpl. lia. }
  unfold collect_usage. destruct (Num.truthy (gauge sel)) eqn:Hgauge; cbn [negb].
  2:{ destruct (decide (uses_key key (Some sel))) as [[Hg _]|]; [|lia].
      simpl in Hg. congruence. }
  cbv zeta. unfold usageMap_has. case_bool_decide as Hkey.
  - rewrite usageMap_record_count_of by done. f_equal.
    destruct (decide ((gauge sel, type sel) = key)) as [E|E].
    + rewrite decide_True; [done|]. split; [done|]. simpl. by rewrite E.
    + rewrite decide_False; [done|]. intros [_ [=]]. done.
  - rewrite usageMap_record_count_of.
    + unfold count_of. rewrite sum_list_with_app. simpl.
      destruct (decide ((gauge sel, type sel) = key)) as [E|E].
      * rewrite (decide_True (P := uses_key key (Some sel)));
          [|split; [done | simpl; by rewrite E]].
        destruct (decide (usage_key _ = key)); lia.
      * rewrite (decide_False (P := uses_key key (Some sel)));
          [|by intros [_ [=]]].
        destruct (decide (usage_key _ = key)); lia.
    + rewrite fmap_app. apply NoDup_app. split; [done|]. split.
      * intros k Hk ->%list_elem_of_singleton. done.
      * apply NoDup_singleton.
    + rewrite fmap_app. apply elem_of_app. right.
      by apply list_elem_of_singleton.
Qed.

Lemma collect_usage_wf gIdx guitar scales usageMap entry :
  usageMap_wf usageMap →
  usageMap_wf (collect_usage gIdx guitar scales usageMap entry).
Proof.
  intros Hwf. destruct entry as [sIdx sel].
  destruct (decide (has_gauge sel)) as [Hsel|Hsel].
  - by apply (collect_usage_counted Math_pow A4 NOTE_INDEX FLAT_TO_SHARP).
  - by rewrite (collect_usage_skipped Math_pow A4 NOTE_INDEX FLAT_TO_SHARP).
Qed.

Lemma collect_strings_count_of gIdx guitar scales entries usageMap key :
  usageMap_wf usageMap →
  usageMap_wf (foldl (collect_usage gIdx guitar scales) usageMap entries)
  ∧ count_of key (foldl (collect_usage gIdx guitar scales) usageMap entries)
    = (count_of key usageMap
       + length (filter (uses_key key) entries.*2))%nat.
Proof.
  revert usageMap. induction entries as [|[sIdx sel] entries IH];
    intros usageMap Hwf.
  { simpl. split; [done | lia]. }
  cbn [foldl]. rewrite fmap_cons, filter_cons. cbn [snd].
  pose proof (collect_usage_wf gIdx guitar scales usageMap (sIdx, sel) Hwf)
    as Hwf'.
  destruct (IH _ Hwf') as [Hwf'' ->]. split; [done|].
  rewrite collect_usage_count_of by done.
  destruct (decide (uses_key key sel)); simpl; lia.
Qed.

Lemma collect_guitars_count_of selections entries usageMap key :
  usageMap_wf usageMap →
  usageMap_wf (foldl (collect_guitar selections) usageMap entries)
  ∧ count_of key (foldl (collect_guitar selections) usageMap entries)
    = (count_of key usageMap
       + sum_list_with
           (λ entry : nat * Guitar,
              length (filter (uses_key key)
                        (default [] (selections !! entry.1))))
           entries)%nat.
Proof.
  revert usageMap. induction entries as [|[gIdx guitar] entries IH];
    intros usageMap Hwf.
  { simpl. split; [done | lia]. }
  cbn [foldl]. unfold collect_guitar at 2 4. cbv zeta.
  destruct (collect_strings_count_of gIdx guitar
              (resolveScales (scale guitar) (n_strings guitar))
              (indexed (default [] (selections !! gIdx))) usageMap key Hwf)
    as [Hwf' Hsum].
  destruct (IH _ Hwf') as [Hwf'' ->]. split; [done|].
  rewrite Hsum, indexed_snd. simpl. lia.
Qed.

Lemma collect_usages_count_of guitars selections key :
  count_of key (collect_usages guitars selections)
  = key_uses guitars selections key.
Proof.
  unfold collect_usages, key_uses.
  destruct (collect_guitars_count_of selections (indexed guitars) [] key)
    as [_ ->]; [|done].
  split; [apply NoDup_nil_2 | apply Forall_nil_2].
Qed.

(** The groups of the inventory by key: the group of a key counts the
    selections with a gauge that have the key. *)
Lemma buildGaugeUsages_key guitars selections key n :
  (∃ u, u ∈ buildGaugeUsages guitars selections
        ∧ usage_key u = key ∧ count u = n)
  ↔ key_uses guitars selections key = n ∧ (0 < n)%nat.
Proof.
  destruct (collect_usages_wf Math_pow A4 NOTE_INDEX FLAT_TO_SHARP
              guitars selections) as [[Hnd Hall] _].
  rewrite Forall_forall in Hall.
  rewrite <- collect_usages_count_of.
  assert (∀ u0, usage_key (find_swap (collect_usages guitars selections) u0)
                = usage_key u0
                ∧ count (find_swap (collect_usages guitars selections) u0)
                  = count u0) as Hfields.
  { intros u0.
    destruct (find_swap_fields Math_pow PLAIN_UNIT_WEIGHTS WOUND_UNIT_WEIGHTS
                (collect_usages guitars selections) u0) as (Hg & Ht & Hc & _).
    unfold usage_key. by rewrite Hg, Ht, Hc. }
  split.
  - intros (u & (u0 & Hu0 & ->)%elem_of_buildGaugeUsages & <- & <-).
    destruct (Hfields u0) as [-> ->].
    rewrite count_of_elem by done. split; [done|].
    destruct (Hall u0 Hu0) as (_ & ? & _). lia.
  - intros [Hcount Hpos]. rewrite <- Hcount in Hpos.
    apply count_of_positive in Hpos as (u0 & Hu0 & <-).
    exists (find_swap (collect_usages guitars selections) u0).
    split; [apply elem_of_buildGaugeUsages; by exists u0|].
    destruct (Hfields u0) as [-> ->]. split; [done|].
    by rewrite <- Hcount, count_of_elem.
Qed.

(** X13. The count of a group is the number of selections with a gauge that
    have its gauge and class, over the selections held under the guitars'
    indices; and every gauge and class in use has its group. *)
Theorem buildGaugeUsages_count_by_key
    (guitars : list Guitar) (selections : GuitarSelections) :
  let groups := buildGaugeUsages guitars selections in
  (∀ u, u ∈ groups → count u = key_uses guitars selections (usage_key u))
  ∧ (∀ key, (0 < key_uses guitars selections key)%nat →
       ∃ u, u ∈ groups ∧ usage_key u = key).
Proof.
  intros groups. split.
  - intros u Hu.
    destruct (proj1 (buildGaugeUsages_key guitars selections (usage_key u)
                       (count u))) as [-> _]; [by exists u | done].
  - intros key Hpos.
    destruct (proj2 (buildGaugeUsages_key guitars selections key
                       (key_uses guitars selections key)))
      as (u & ? & ? & _); [done | by exists u].
Qed.

(** ** The singletons of the editor *)

Lemma count_gauge_lookup gaugeCounts sel key :
  default 0%nat (count_gauge gaugeCounts sel !! key)
  = (default 0%nat (gaugeCounts !! key)
     + if decide (uses_key key sel) then 1 else 0)%nat.
Proof.
  destruct sel as [sel|].
  2:{ destruct (decide (uses_key key None)) as [[[] _]|]. simpl. lia. }
  unfold count_gauge. destruct (Num.truthy (gauge sel)) eqn:Hgauge.
  2:{ destruct (decide (uses_key key (Some sel))) as [[Hg _]|]; [|lia].
      simpl in Hg. congruence. }
  cbv zeta.
  destruct (decide ((gauge sel, type sel) = key)) as [E|E].
  - rewrite decide_True by (split; [done | simpl; by rewrite E]).
    rewrite <- E. by rewrite lookup_insert_eq.
  - rewrite decide_False by (by intros [_ [=]]).
    rewrite lookup_insert_ne by done. lia.
Qed.

Lemma count_guitars_lookup selections entries gaugeCounts key :
  default 0%nat (foldl (count_guitar selections) gaugeCounts entries !! key)
  = (default 0%nat (gaugeCounts !! key)
     + sum_list_with
         (λ entry : nat * Guitar,
            length (filter (uses_key key)
                      (default [] (selections !! entry.1))))
         entries)%nat.
Proof.
  revert gaugeCounts. induction entries as [|entry entries IH];
    intros gaugeCounts.
  { simpl. lia. }
  cbn [foldl]. rewrite IH. cbn [sum_list_with]. unfold count_guitar at 1.
  cbv zeta. generalize (default [] (selections !! entry.1)) as guitarSel.
  intros guitarSel.
  assert (default 0%nat (foldl count_gauge gaugeCounts guitarSel !! key)
          = (default 0%nat (gaugeCounts !! key)
             + length (filter (uses_key key) guitarSel))%nat) as ->; [|lia].
  revert gaugeCounts. induction guitarSel as [|sel guitarSel IHs];
    intros gaugeCounts.
  { simpl. lia. }
  cbn [foldl]. rewrite IHs, count_gauge_lookup, filter_cons.
  destruct (decide (uses_key key sel)); simpl; lia.
Qed.

Lemma singletonGauges_key_uses guitars selections key :
  key ∈ singletonGauges guitars selections
  ↔ key_uses guitars selections key = 1%nat.
Proof.
  unfold singletonGauges. cbv zeta.
  pose proof (count_guitars_lookup selections (indexed guitars) ∅ key) as Hc.
  rewrite lookup_empty in Hc. change (default 0%nat None) with 0%nat in Hc.
  fold (key_uses guitars selections key) in Hc. rewrite Nat.add_0_l in Hc.
  rewrite <- Hc, elem_of_dom. unfold is_Some.
  setoid_rewrite map_lookup_filter_Some. cbn [snd].
  destruct (foldl _ _ _ !! key) as [n|]; simpl.
  - split; [by intros (? & [= <-] & ?) | intros ->; by exists 1%nat].
  - split; [by intros (? & ? & _) | done].
Qed.

(** X14. The editor and the summary agree on the singletons: a gauge and class
    is in [singletonGauges] exactly when the inventory has its group with
    count 1, the groups that are searched for a swap. *)
Theorem singletonGauges_inventory
    (guitars : list Guitar) (selections : GuitarSelections)
    (key : number * StringType) :
  key ∈ singletonGauges guitars selections
  ↔ ∃ u, u ∈ buildGaugeUsages guitars selections
         ∧ usage_key u = key ∧ count u = 1%nat.
Proof.
  rewrite singletonGauges_key_uses, buildGaugeUsages_key.
  split; [intros ->; split; [done | lia] | by intros [? _]].
Qed.

(** ** The swap search *)

Local Abbreviation swap_to :=
  (swap_to Math_pow PLAIN_UNIT_WEIGHTS WOUND_UNIT_WEIGHTS).

(** One step of the swap search is a step of a scan for the smallest
    deviation, over the candidates whose deviation is a number. *)
Lemma consider_swap_scan u info best o :
  consider_swap u info
    (calcTension (g_gauge u) (g_type u) (u_scale info) (u_freq info)) best o
  = if decide (swap_candidate u o ∧ swap_deviation u info o ≠ NaN)
    then scan_step (swap_deviation u info) (λ o, Some (swap_to u info o))
           best o
    else best.
Proof.
  destruct best as [bestSwap minDeviation]. unfold consider_swap.
  destruct (decide (swap_candidate u o ∧ swap_deviation u info o ≠ NaN))
    as [[(Hc & Ht & Hg & Hmu) Hdev]|Hno].
  - rewrite (bool_decide_eq_false_2 (count o ≤ 1)%nat) by lia.
    rewrite (bool_decide_eq_true_2 (g_type o = g_type u)) by done.
    cbn [negb]. rewrite Hg, Hmu. cbn [negb]. done.
  - case_bool_decide as Hc; [done|].
    case_bool_decide as Ht; [|done]. cbn [negb].
    destruct (Num.eq (g_gauge o) (g_gauge u)) eqn:Hg; [done|].
    destruct (Num.truthy _) eqn:Hmu; [|done]. cbn [negb]. cbv zeta.
    match goal with
    | |- (if ?c then _ else _) = _ => destruct c eqn:Hlt; [|done]
    end.
    exfalso. apply Hno. split.
    + split; [lia|]. by repeat split.
    + by apply lt_not_NaN in Hlt.
Qed.

Lemma swap_search_scan all u info :
  swap_search all u info
  = (foldl (scan_step (swap_deviation u info) (λ o, Some (swap_to u info o)))
       (None, PInf)
       (filter (λ o, swap_candidate u o ∧ swap_deviation u info o ≠ NaN)
          all)).1.
Proof.
  unfold swap_search. cbv zeta. f_equal.
  apply foldl_filter. intros best o. apply consider_swap_scan.
Qed.

(** The swap that the search finds is to a candidate whose deviation is
    finite and the smallest among the candidates; without a swap, no
    candidate has a finite deviation. *)
Lemma swap_search_cases all u info :
  match swap_search all u info with
  | Some swap =>
      ∃ o, o ∈ all ∧ swap_candidate u o ∧ swap = swap_to u info o
           ∧ (swap_deviation u info o <? PInf)%J = true
           ∧ ∀ o', o' ∈ all → swap_candidate u o' →
               swap_deviation u info o' ≠ NaN →
               (swap_deviation u info o <=? swap_deviation u info o')%J = true
  | None =>
      ∀ o, o ∈ all → swap_candidate u o →
        (swap_deviation u info o <? PInf)%J = false
  end.
Proof.
  rewrite swap_search_scan.
  set (P := λ o, swap_candidate u o ∧ swap_deviation u info o ≠ NaN).
  destruct (scan_first_min (swap_deviation u info)
              (λ o, Some (swap_to u info o)) (filter P all) None PInf)
    as (_ & Hmin & [[Hr Hnone] | (pre & o & post & Hl & Hr & Hlt & _)]).
  { done. }
  { by intros o [[_ ?] _]%list_elem_of_filter. }
  - rewrite Hr. simpl. intros o Ho Hc.
    destruct (decide (swap_deviation u info o = NaN)) as [-> | Hdev]; [done|].
    apply Hnone. by apply list_elem_of_filter.
  - rewrite Hr in Hmin |- *. simpl in *.
    assert (o ∈ filter P all) as [[Hc _] Ho]%list_elem_of_filter.
    { rewrite Hl. apply elem_of_app. right. apply list_elem_of_here. }
    exists o. split; [done|]. split; [done|]. split; [done|]. split; [done|].
    intros o' Ho' Hc' Hdev. apply Hmin. by apply list_elem_of_filter.
Qed.

(** The search reads the count, the class and the gauge of a group only;
    the second pass changes none of them. *)
Lemma swap_candidate_ext u u' o o' :
  g_gauge u = g_gauge u' → g_type u = g_type u' →
  g_gauge o = g_gauge o' → g_type o = g_type o' → count o = count o' →
  swap_candidate u o → swap_candidate u' o'.
Proof.
  unfold swap_candidate. intros <- <- <- <- <-. done.
Qed.

Lemma swap_deviation_ext u u' info o o' :
  g_gauge u = g_gauge u' → g_type u = g_type u' → g_gauge o = g_gauge o' →
  swap_deviation u info o = swap_deviation u' info o'.
Proof. unfold swap_deviation. by intros <- <- <-. Qed.

Lemma eq_false_ne (x y : number) :
  x ≠ NaN → Num.eq x y = false → x ≠ y.
Proof.
  intros Hx Heq ->. unfold Num.eq in Heq. destruct y; try done;
    by rewrite bool_decide_eq_true_2 in Heq.
Qed.

(** The swap of a group of the inventory, as the search finds it in the
    map of the first pass. *)
Lemma buildGaugeUsages_swap guitars selections u swap :
  u ∈ buildGaugeUsages guitars selections → swapOption u = Some swap →
  count u = 1%nat
  ∧ ∃ info, usages u = [info]
            ∧ swap_search (collect_usages guitars selections) u info
              = Some swap.
Proof.
  intros Hu Hswap.
  destruct (buildGaugeUsages_group Math_pow A4 NOTE_INDEX FLAT_TO_SHARP
              PLAIN_UNIT_WEIGHTS WOUND_UNIT_WEIGHTS guitars selections u Hu)
    as (_ & Hnot1 & Hone).
  destruct (decide (count u = 1%nat)) as [Hc|Hc];
    [|by rewrite Hnot1 in Hswap].
  split; [done|]. destruct (Hone Hc) as (info & Hus & Hsearch).
  exists info. split; [done|]. by rewrite <- Hsearch.
Qed.

(** X15. The swap offered for a singleton: it is to the gauge of another group
    of the inventory that is common, of the same class and known to the table
    of the class with a unit weight that is not zero; the shift of tension is
    finite, and no other such group with a shift that is a number is closer in
    tension to the singleton's gauge. *)
Theorem buildGaugeUsages_swap_target
    (guitars : list Guitar) (selections : GuitarSelections)
    (u : GaugeUsageWithSwap) (swap : SwapOption) :
  let groups := buildGaugeUsages guitars selections in
  u ∈ groups → swapOption u = Some swap →
  ∃ info other,
    usages u = [info]
    ∧ other ∈ groups
    ∧ (1 < count other)%nat
    ∧ g_type other = g_type u
    ∧ g_gauge other ≠ g_gauge u
    ∧ s_gauge swap = g_gauge other
    ∧ (∃ g mu, g_gauge other = Fin g ∧ unit_weights (g_type u) !! g = Some mu
               ∧ mu ≠ 0)
    ∧ Num.abs (tensionShift swap) = swap_deviation u info other
    ∧ (Num.abs (tensionShift swap) <? PInf)%J = true
    ∧ ∀ other', other' ∈ groups → swap_candidate u other' →
        swap_deviation u info other' ≠ NaN →
        (Num.abs (tensionShift swap) <=? swap_deviation u info other')%J
        = true.
Proof.
  intros groups Hu Hswap.
  destruct (buildGaugeUsages_swap guitars selections u swap Hu Hswap)
    as (_ & info & Hus & Hsearch).
  pose proof (swap_search_cases (collect_usages guitars selections) u info)
    as Hcases.
  rewrite Hsearch in Hcases.
  destruct Hcases as (o & Ho & Hcand & -> & Hfin & Hmin).
  set (all := collect_usages guitars selections) in *.
  destruct (find_swap_fields Math_pow PLAIN_UNIT_WEIGHTS WOUND_UNIT_WEIGHTS
              all o) as (Hg & Ht & Hc & _).
  exists info, (find_swap all o).
  assert (swap_deviation u info (find_swap all o) = swap_deviation u info o)
    as Hdev by (by apply swap_deviation_ext).
  destruct Hcand as (Hcount & Htype & Hgauge & Hmu).
  split; [done|].
  split; [apply elem_of_buildGaugeUsages; by exists o|].
  split; [by rewrite Hc|]. split; [by rewrite Ht|]. split.
  { rewrite Hg. apply eq_false_ne; [|done].
    apply truthy_not_NaN. by apply (collect_usages_truthy guitars selections). }
  split; [by rewrite Hg|]. split.
  { rewrite Hg. destruct (g_gauge o) as [| |g|]; try done. simpl in Hmu.
    destruct (unit_weights (g_type u) !! g) as [mu|] eqn:Hlook; [|done].
    exists g, mu. split; [done|]. split; [done|].
    simpl in Hmu. by apply bool_decide_eq_true in Hmu. }
  rewrite Hdev. split; [done|]. split; [done|].
  intros other' (o' & Ho' & ->)%elem_of_buildGaugeUsages Hcand' Hdev'.
  fold all in Ho', Hcand', Hdev' |- *.
  destruct (find_swap_fields Math_pow PLAIN_UNIT_WEIGHTS WOUND_UNIT_WEIGHTS
              all o') as (Hg' & Ht' & Hc' & _).
  rewrite (swap_deviation_ext u u info (find_swap all o') o') in * by done.
  change (Num.abs (tensionShift (swap_to u info o)))
    with (swap_deviation u info o).
  apply Hmin; [done| |done].
  by apply (swap_candidate_ext u u (find_swap all o') o').
Qed.

(** X16. A singleton that is left without a swap: no common group of its class
    with another gauge and a unit weight gives a finite shift of tension. *)
Theorem buildGaugeUsages_no_swap
    (guitars : list Guitar) (selections : GuitarSelections)
    (u other : GaugeUsageWithSwap) (info : UsageInfo) :
  let groups := buildGaugeUsages guitars selections in
  u ∈ groups → usages u = [info] → swapOption u = None →
  other ∈ groups → swap_candidate u other →
  (swap_deviation u info other <? PInf)%J = false.
Proof.
  intros groups Hu Hus Hswap (o & Ho & ->)%elem_of_buildGaugeUsages Hcand.
  destruct (buildGaugeUsages_group Math_pow A4 NOTE_INDEX FLAT_TO_SHARP
              PLAIN_UNIT_WEIGHTS WOUND_UNIT_WEIGHTS guitars selections u Hu)
    as (Hlen & _ & Hone).
  destruct Hone as (info' & Hus' & Hsearch); [by rewrite Hlen, Hus|].
  rewrite Hus in Hus'. injection Hus' as <-. rewrite Hswap in Hsearch.
  pose proof (swap_search_cases (collect_usages guitars selections) u info)
    as Hcases.
  rewrite <- Hsearch in Hcases.
  set (all := collect_usages guitars selections) in *.
  destruct (find_swap_fields Math_pow PLAIN_UNIT_WEIGHTS WOUND_UNIT_WEIGHTS
              all o) as (Hg & Ht & Hc & _).
  rewrite (swap_deviation_ext u u info (find_swap all o) o) by done.
  apply Hcases; [done|].
  by apply (swap_candidate_ext u u (find_swap all o) o).
Qed.

(** ** The required bound of a swap *)

Lemma abs_lt_PInf (x : number) :
  (Num.abs x <? PInf)%J = true → ∃ q, x = Fin q.
Proof. destruct x as [| |q|]; try done. by exists q. Qed.

Lemma sub_Fin_inv (x y : number) (q : Qc) :
  (x - y)%J = Fin q → ∃ a b, x = Fin a ∧ y = Fin b.
Proof. destruct x as [| |a|], y as [| |b|]; try done. by exists a, b. Qed.

(** Rounding down to half a unit: at most the number, and less than half
    a unit below it. *)
Lemma floor_half (t : Qc) :
  ((Num.floor (Fin t * dec 2) / dec 2 <=? Fin t)%J = true)
  ∧ ((Fin t - dec 0.5 <? Num.floor (Fin t * dec 2) / dec 2)%J = true).
Proof.
  unfold dec. rewrite mul_Fin. unfold Num.floor.
  rewrite div_Fin by apply two_ne_0. rewrite sub_Fin.
  unfold Num.le, Num.lt. rewrite !bool_decide_eq_true.
  pose proof (Qfloor_le (this (t * Q2Qc 2)%Qc)) as Hlo.
  pose proof (Qlt_floor (this (t * Q2Qc 2)%Qc)) as Hhi.
  rewrite inject_Z_plus in Hhi.
  set (k := Qfloor (this (t * Q2Qc 2)%Qc)) in *. clearbody k.
  split; qc_unfold; change (inject_Z 1) with 1%Q in Hhi;
    generalize dependent (inject_Z k); intros x Hlo Hhi;
    change (/ 2)%Q with (1 # 2)%Q; lra.
Qed.

(** Rounding up to half a unit. *)
Lemma ceil_half (t : Qc) :
  ((Fin t <=? Num.ceil (Fin t * dec 2) / dec 2)%J = true)
  ∧ ((Num.ceil (Fin t * dec 2) / dec 2 <? Fin t + dec 0.5)%J = true).
Proof.
  unfold dec. rewrite mul_Fin. unfold Num.ceil.
  rewrite div_Fin by apply two_ne_0. rewrite add_Fin.
  unfold Num.le, Num.lt. rewrite !bool_decide_eq_true.
  pose proof (Qle_ceiling (this (t * Q2Qc 2)%Qc)) as Hhi.
  pose proof (Qceiling_lt (this (t * Q2Qc 2)%Qc)) as Hlo.
  unfold Z.sub in Hlo. rewrite inject_Z_plus in Hlo.
  set (k := Qceiling (this (t * Q2Qc 2)%Qc)) in *. clearbody k.
  split; qc_unfold; change (inject_Z (Z.opp 1)) with (-1)%Q in Hlo;
    generalize dependent (inject_Z k); intros x Hhi Hlo;
    change (/ 2)%Q with (1 # 2)%Q; lra.
Qed.

(** X17. The tensions and the required bound of a swap.  Both tensions are
    finite, the direction is up exactly when the tension rises, and the swap
    is measured against the target of the singleton's string.  A swap in range
    asks for no bound.  A tension below the target asks for the minimum at the
    half pound at or below it, less than half a pound away; any other tension
    out of range asks for the maximum at the half pound at or above it. *)
Theorem buildGaugeUsages_swap_bound
    (guitars : list Guitar) (selections : GuitarSelections)
    (u : GaugeUsageWithSwap) (swap : SwapOption) :
  u ∈ buildGaugeUsages guitars selections → swapOption u = Some swap →
  ∃ info,
    usages u = [info]
    ∧ currentTension swap
      = calcTension (g_gauge u) (g_type u) (u_scale info) (u_freq info)
    ∧ newTension swap
      = calcTension (s_gauge swap) (g_type u) (u_scale info) (u_freq info)
    ∧ tensionShift swap = (newTension swap - currentTension swap)%J
    ∧ (∃ t c, newTension swap = Fin t ∧ currentTension swap = Fin c)
    ∧ (direction swap = up
       ↔ (currentTension swap <? newTension swap)%J = true)
    ∧ (targetMin swap, targetMax swap) = u_target info
    ∧ inRange swap = isInRange (newTension swap) (u_target info)
    ∧ match requiredBound swap with
      | None => inRange swap = true
      | Some (bound_min, value) =>
          inRange swap = false
          ∧ (newTension swap <? targetMin swap)%J = true
          ∧ (value <=? newTension swap)%J = true
          ∧ (newTension swap - dec 0.5 <? value)%J = true
      | Some (bound_max, value) =>
          inRange swap = false
          ∧ (newTension swap <? targetMin swap)%J = false
          ∧ (newTension swap <=? value)%J = true
          ∧ (value <? newTension swap + dec 0.5)%J = true
      end.
Proof.
  intros Hu Hswap.
  destruct (buildGaugeUsages_swap guitars selections u swap Hu Hswap)
    as (_ & info & Hus & Hsearch).
  pose proof (swap_search_cases (collect_usages guitars selections) u info)
    as Hcases.
  rewrite Hsearch in Hcases.
  destruct Hcases as (o & _ & _ & -> & Hfin & _).
  exists info. split; [done|]. split; [done|]. split; [done|]. split; [done|].
  apply abs_lt_PInf in Hfin as [q Hq].
  unfold swap_to. cbv zeta. cbn [newTension currentTension tensionShift
    direction targetMin targetMax inRange requiredBound s_gauge].
  set (new := calcTension (g_gauge o) (g_type u) (u_scale info) (u_freq info))
    in *.
  set (current :=
         calcTension (g_gauge u) (g_type u) (u_scale info) (u_freq info))
    in *.
  destruct (sub_Fin_inv new current q Hq) as (t & c & Ht & Hc).
  split; [by exists t, c|]. split.
  { rewrite gt_sub. by destruct (current <? new)%J. }
  split; [by destruct (u_target info)|]. split; [done|].
  destruct ((new >=? (u_target info).1)%J && (new <=? (u_target info).2)%J)
    eqn:Hin; [done|].
  destruct (new <? (u_target info).1)%J eqn:Hlow.
  - split; [done|]. split; [done|]. rewrite Ht. apply floor_half.
  - split; [done|]. split; [done|]. rewrite Ht. apply ceil_half.
Qed.

End InventoryFacts.

(** * Properties of the application state *)

Lemma indexed_snoc {A} (l : list A) (x : A) :
  indexed (l ++ [x]) = indexed l ++ [(length l, x)].
Proof.
  unfold indexed. rewrite length_app. simpl.
  rewrite Nat.add_1_r, seq_S. simpl.
  rewrite zip_with_app by (by rewrite length_seq). done.
Qed.

Lemma indexed_length {A} (l : list A) : length (indexed l) = length l.
Proof. unfold indexed. rewrite length_zip_with, length_seq. lia. Qed.

Lemma tag_class_Some (tag : string) (c : StringType) :
  tag_class tag = Some c →
  tag = match c with p => "p" | w => "w" end.
Proof.
  unfold tag_class. repeat case_decide; intros [= <-]; done.
Qed.

(** The positional default of [resolveStringTypes] names a class for every
    string. *)
Lemma typed_tags_default (guitar : Guitar) :
  string_types guitar = None → typed_tags guitar.
Proof.
  intros Hnone i Hi. rewrite Hnone. unfold resolveStringTypes.
  rewrite list_lookup_fmap, lookup_seq_lt by done. simpl.
  by destruct (i <? 3)%nat.
Qed.

Section AppFacts.

Variable Math_pow : number → number → number.
Hypothesis Math_pow_square : ∀ x, Math_pow x (dec 2) = (x * x)%J.

Variable A4 : number.
Variable NOTE_INDEX : gmap string Qc.
Variable FLAT_TO_SHARP : gmap string string.
Variable PLAIN_UNIT_WEIGHTS WOUND_UNIT_WEIGHTS : gmap Qc Qc.
Variable PLAIN_GAUGES WOUND_GAUGES : list Qc.

Local Abbreviation noteToFreq :=
  (noteToFreq Math_pow A4 NOTE_INDEX FLAT_TO_SHARP).
Local Abbreviation catalog := (catalog PLAIN_GAUGES WOUND_GAUGES).
Local Abbreviation calcTension :=
  (calcTension Math_pow PLAIN_UNIT_WEIGHTS WOUND_UNIT_WEIGHTS).
Local Abbreviation recommendGauge :=
  (recommendGauge Math_pow PLAIN_UNIT_WEIGHTS WOUND_UNIT_WEIGHTS
     PLAIN_GAUGES WOUND_GAUGES).
Local Abbreviation buildGaugeUsages :=
  (buildGaugeUsages Math_pow A4 NOTE_INDEX FLAT_TO_SHARP
     PLAIN_UNIT_WEIGHTS WOUND_UNIT_WEIGHTS).
Local Abbreviation default_selection :=
  (default_selection Math_pow A4 NOTE_INDEX FLAT_TO_SHARP
     PLAIN_UNIT_WEIGHTS WOUND_UNIT_WEIGHTS PLAIN_GAUGES WOUND_GAUGES).
Local Abbreviation default_selections :=
  (default_selections Math_pow A4 NOTE_INDEX FLAT_TO_SHARP
     PLAIN_UNIT_WEIGHTS WOUND_UNIT_WEIGHTS PLAIN_GAUGES WOUND_GAUGES).
Local Abbreviation generateDefaultSelections :=
  (generateDefaultSelections Math_pow A4 NOTE_INDEX FLAT_TO_SHARP
     PLAIN_UNIT_WEIGHTS WOUND_UNIT_WEIGHTS PLAIN_GAUGES WOUND_GAUGES).
Local Abbreviation reducer :=
  (reducer Math_pow A4 NOTE_INDEX FLAT_TO_SHARP
     PLAIN_UNIT_WEIGHTS WOUND_UNIT_WEIGHTS PLAIN_GAUGES WOUND_GAUGES).
Local Abbreviation handleNStringsChange :=
  (handleNStringsChange Math_pow A4 NOTE_INDEX FLAT_TO_SHARP
     PLAIN_UNIT_WEIGHTS WOUND_UNIT_WEIGHTS PLAIN_GAUGES WOUND_GAUGES).
Local Abbreviation totalTension :=
  (totalTension Math_pow A4 NOTE_INDEX FLAT_TO_SHARP
     PLAIN_UNIT_WEIGHTS WOUND_UNIT_WEIGHTS).

(** ** Default selections *)

Local Abbreviation stocked := (stocked PLAIN_GAUGES WOUND_GAUGES).

Local Abbreviation recommended_for :=
  (recommended_for Math_pow A4 NOTE_INDEX FLAT_TO_SHARP
     PLAIN_UNIT_WEIGHTS WOUND_UNIT_WEIGHTS PLAIN_GAUGES WOUND_GAUGES).

Lemma stocked_has_gauge (sel : StringSelection) (g : Qc) :
  stocked → gauge sel = Fin g → g ∈ catalog (type sel) →
  has_gauge (Some sel).
Proof.
  intros Hstock Hg Hin. simpl. rewrite Hg. simpl.
  apply bool_decide_eq_true. intros ->.
  by destruct (Hstock (type sel)) as [_ []].
Qed.

Lemma default_selections_spec (guitar : Guitar) :
  typed_tags guitar → (∀ stype, catalog stype ≠ []) →
  ∃ l, default_selections guitar = Some l
       ∧ length l = n_strings guitar
       ∧ ∀ i, (i < n_strings guitar)%nat →
           ∃ sel, l !! i = Some (Some sel) ∧ recommended_for guitar i sel.
Proof.
  intros Htags Hcat. unfold default_selections. cbv zeta.
  set (scales := resolveScales (scale guitar) (n_strings guitar)).
  set (types := resolveStringTypes (string_types guitar) (n_strings guitar)).
  assert (∀ i, (i < n_strings guitar)%nat →
            ∃ sel, default_selection guitar scales types i = Some sel
                   ∧ recommended_for guitar i sel) as Hsel.
  { intros i Hi. destruct (Htags i Hi) as [c Hc].
    unfold default_selection. fold types in Hc. rewrite Hc. simpl.
    pose proof (recommendGauge_cases Math_pow PLAIN_UNIT_WEIGHTS
                  WOUND_UNIT_WEIGHTS PLAIN_GAUGES WOUND_GAUGES c
                  (default NaN (scales !! i))
                  (noteToFreq (note_at (tuning guitar) i))
                  (match c with
                   | p => target_plain guitar
                   | w => target_wound guitar
                   end)) as Hcases.
    destruct (recommendGauge c _ _ _) as [g|] eqn:Hrec;
      [|by destruct (Hcat c)].
    simpl. eexists. split; [done|]. split; [done|]. by exists g. }
  destruct (mapM_is_Some_2 (default_selection guitar scales types)
              (seq 0 (n_strings guitar))) as [k Hk].
  { apply Forall_forall. intros i [_ Hi]%elem_of_seq.
    destruct (Hsel i) as (sel & Hi' & _); [lia|].
    unfold compose. by rewrite Hi'. }
  rewrite Hk. simpl. exists (Some <$> k). split; [done|].
  pose proof (length_mapM _ _ _ Hk) as Hlen. rewrite length_seq in Hlen.
  split; [by rewrite length_fmap|].
  intros i Hi. destruct (Hsel i Hi) as (sel & Hdef & Hrec).
  exists sel. split; [|done]. rewrite list_lookup_fmap.
  apply mapM_Some_1 in Hk.
  destruct (Forall2_lookup_l _ _ _ i i Hk) as (sel' & -> & Hsel');
    [by apply lookup_seq_lt|].
  simpl. congruence.
Qed.

Lemma generateDefaultSelections_snoc (guitars : list Guitar) (g : Guitar) :
  generateDefaultSelections (guitars ++ [g])
  = selections ← generateDefaultSelections guitars;
    guitarSelections ← default_selections g;
    Some (<[length guitars := guitarSelections]> selections).
Proof.
  unfold generateDefaultSelections. by rewrite indexed_snoc, foldl_app.
Qed.

Lemma generateDefaultSelections_lookup (guitars : list Guitar) :
  Forall typed_tags guitars → (∀ stype, catalog stype ≠ []) →
  ∃ selections,
    generateDefaultSelections guitars = Some selections
    ∧ (∀ gIdx guitar, guitars !! gIdx = Some guitar →
         default_selections guitar = selections !! gIdx)
    ∧ (∀ gIdx, (length guitars ≤ gIdx)%nat → selections !! gIdx = None).
Proof.
  intros Htags Hcat. induction guitars as [|g guitars IH] using rev_ind.
  { exists ∅. split; [done|]. split; [by intros ? ? ?|].
    intros gIdx _. apply lookup_empty. }
  apply Forall_app in Htags as [Htags [Hg _]%Forall_cons].
  destruct (IH Htags) as (selections & Hgen & Hin & Hout).
  destruct (default_selections_spec g Hg Hcat) as (l & Hl & _).
  rewrite generateDefaultSelections_snoc, Hgen, Hl. simpl.
  eexists. split; [done|]. split.
  - intros gIdx guitar Hguitar.
    destruct (decide (gIdx = length guitars)) as [-> | Hne].
    + rewrite lookup_insert_eq, list_lookup_middle in * by done.
      by injection Hguitar as <-.
    + rewrite lookup_insert_ne by done. apply Hin.
      rewrite lookup_app_l in Hguitar; [done|].
      apply lookup_lt_Some in Hguitar. rewrite length_app in Hguitar.
      simpl in Hguitar. lia.
  - intros gIdx Hlen. rewrite length_app in Hlen. simpl in Hlen.
    rewrite lookup_insert_ne by lia. apply Hout. lia.
Qed.

(** X18. The selections that a load starts from: when the tags of every guitar
    name a class for each string and the catalogs are stocked,
    [generateDefaultSelections] gives every string of every guitar the gauge
    that [recommendGauge] returns for it, and nothing else; the inventory of
    these selections counts every string. *)
Theorem generateDefaultSelections_complete (guitars : list Guitar) :
  Forall typed_tags guitars → stocked →
  ∃ selections,
    generateDefaultSelections guitars = Some selections
    ∧ complete_selections guitars selections
    ∧ (∀ gIdx guitar i,
         guitars !! gIdx = Some guitar → (i < n_strings guitar)%nat →
         ∃ sel, selections !! gIdx ≫= (.!! i) = Some (Some sel)
                ∧ recommended_for guitar i sel)
    ∧ (∀ gIdx, (length guitars ≤ gIdx)%nat → selections !! gIdx = None)
    ∧ sum_list_with count (buildGaugeUsages guitars selections)
      = total_strings guitars.
Proof.
  intros Htags Hstock.
  assert (∀ stype, catalog stype ≠ []) as Hcat by (intros c; apply Hstock).
  destruct (generateDefaultSelections_lookup guitars Htags Hcat)
    as (selections & Hgen & Hin & Hout).
  exists selections. split; [done|].
  assert (∀ gIdx guitar, guitars !! gIdx = Some guitar →
            ∃ l, selections !! gIdx = Some l
                 ∧ length l = n_strings guitar
                 ∧ ∀ i, (i < n_strings guitar)%nat →
                     ∃ sel, l !! i = Some (Some sel)
                            ∧ recommended_for guitar i sel) as Hspec.
  { intros gIdx guitar Hguitar.
    destruct (default_selections_spec guitar) as (l & Hl & Hlen & Hsel);
      [by eapply (Forall_lookup_1 _ _ _ _ Htags) | done |].
    exists l. by rewrite <- (Hin gIdx guitar Hguitar). }
  assert (complete_selections guitars selections) as Hcomplete.
  { intros gIdx guitar Hguitar.
    destruct (Hspec gIdx guitar Hguitar) as (l & Hl & Hlen & Hsel).
    exists l. split; [done|]. split; [done|].
    apply Forall_lookup. intros i x Hx.
    destruct (Hsel i) as (sel & Hi & _ & g & Hg & Hmem & _).
    { rewrite <- Hlen. by apply lookup_lt_Some in Hx. }
    rewrite Hi in Hx. injection Hx as <-.
    by apply (stocked_has_gauge sel g). }
  split; [done|]. split.
  { intros gIdx guitar i Hguitar Hi.
    destruct (Hspec gIdx guitar Hguitar) as (l & -> & _ & Hsel).
    simpl. by apply Hsel. }
  split; [done|].
  by rewrite (buildGaugeUsages_sum Math_pow A4 NOTE_INDEX FLAT_TO_SHARP),
    counted_complete.
Qed.

(** ** The reducer *)

Local Abbreviation keeps_strings :=
  (keeps_strings PLAIN_GAUGES WOUND_GAUGES).

Lemma filter_index_from {A} (l : list A) (s k : nat) :
  (filter (λ e : nat * A, e.1 ≠ k) (zip (seq s (length l)) l)).*2
  = if decide (s ≤ k)%nat then delete (k - s)%nat l else l.
Proof.
  revert s. induction l as [|x l IH]; intros s.
  { simpl. by destruct (decide _). }
  change (zip (seq s (length (x :: l))) (x :: l))
    with ((s, x) :: zip (seq (S s) (length l)) l).
  rewrite filter_cons. cbn [fst].
  destruct (decide (s ≠ k)) as [Hne|Heq%dec_stable].
  - rewrite fmap_cons, IH. cbn [snd].
    destruct (decide (s ≤ k)%nat) as [Hle|Hgt].
    + rewrite decide_True by lia.
      replace (k - s)%nat with (S (k - S s)) by lia. done.
    + by rewrite decide_False by lia.
  - subst k. rewrite IH. rewrite decide_False by lia.
    rewrite decide_True by lia. by rewrite Nat.sub_diag.
Qed.

(** [filter((_, i) => i !== payload)] removes the element at the index. *)
Lemma filter_index_delete {A} (l : list A) (k : nat) :
  (filter (λ e : nat * A, e.1 ≠ k) (indexed l)).*2 = delete k l.
Proof.
  unfold indexed. rewrite filter_index_from.
  rewrite decide_True by lia. by rewrite Nat.sub_0_r.
Qed.

(** The re-indexing loop: the selections behind the deleted index move
    down by one. *)
Lemma reindex_fold (k : nat) (old : GuitarSelections) (n : nat) :
  let r := foldl (reindex_selection k old) (∅, 0%nat) (seq 0 n) in
  r.2 = (if decide (k < n)%nat then n - 1 else n)%nat
  ∧ ∀ j, r.1 !! j
         = if decide (j < r.2)%nat
           then old !! (if decide (j < k)%nat then j else S j)
           else None.
Proof.
  induction n as [|n IH].
  { simpl. split; [done|]. intros j. by rewrite lookup_empty. }
  rewrite seq_S, foldl_app. simpl.
  destruct (foldl _ _ (seq 0 n)) as [newSelections newIdx].
  simpl in IH. destruct IH as [-> Hlook]. unfold reindex_selection.
  destruct (decide (n ≠ k)) as [Hne|Heq%dec_stable]; simpl.
  - split; [repeat case_decide; lia|].
    intros j. destruct (decide (j = if decide (k < n)%nat
                                    then (n - 1)%nat else n)) as [-> | Hj].
    + rewrite lookup_partial_alter_eq.
      repeat case_decide; try lia; f_equal; lia.
    + rewrite lookup_partial_alter_ne by done. rewrite Hlook.
      repeat case_decide; try lia; done.
  - subst k. split; [repeat case_decide; lia|].
    intros j. rewrite Hlook. repeat case_decide; try lia; done.
Qed.

Lemma lookup_delete_index {A} (l : list A) (k j : nat) :
  delete k l !! j = l !! (if decide (j < k)%nat then j else S j).
Proof.
  destruct (decide (j < k)%nat).
  - by apply list_lookup_delete_lt.
  - apply list_lookup_delete_ge. lia.
Qed.

Lemma reducer_delete_guitar_fields (state : AppState) (payload : nat) :
  ∃ state',
    reducer state (DELETE_GUITAR payload) = Some state'
    ∧ guitars state' = delete payload (guitars state)
    ∧ (∀ j, selections state' !! j
            = if decide (j < length (guitars state'))%nat
              then selections state
                     !! (if decide (j < payload)%nat then j else S j)
              else None)
    ∧ globalTargetPlain state' = globalTargetPlain state
    ∧ globalTargetWound state' = globalTargetWound state.
Proof.
  eexists. split; [done|]. cbn [guitars selections globalTargetPlain
    globalTargetWound].
  rewrite filter_index_delete.
  destruct (reindex_fold payload (selections state)
              (length (guitars state))) as [Hidx Hlook].
  assert (length (delete payload (guitars state))
          = if decide (payload < length (guitars state))%nat
            then (length (guitars state) - 1)%nat
            else length (guitars state)) as Hlen.
  { destruct (decide _) as [Hlt|Hge].
    - rewrite length_delete; [done | by apply lookup_lt_is_Some_2].
    - rewrite delete_take_drop, take_ge, drop_ge by lia.
      by rewrite app_nil_r. }
  rewrite <- Hlen in Hidx. rewrite Hidx in Hlook. done.
Qed.

Lemma reducer_delete_guitar_complete (state : AppState) (payload : nat) :
  complete_selections (guitars state) (selections state) →
  ∃ state',
    reducer state (DELETE_GUITAR payload) = Some state'
    ∧ complete_selections (guitars state') (selections state').
Proof.
  intros Hcomplete.
  destruct (reducer_delete_guitar_fields state payload)
    as (state' & Hred & Hguitars & Hlook & _).
  exists state'. split; [done|].
  intros j guitar Hguitar. rewrite Hlook.
  rewrite decide_True by (by apply lookup_lt_Some in Hguitar).
  rewrite Hguitars, lookup_delete_index in Hguitar. by apply Hcomplete.
Qed.

(** X19. Deleting a guitar keeps every other guitar with its selections: the
    guitar at the index is gone, the guitars behind it move down by one, and
    so do their selections; the state holds no selections beyond the guitars
    that are left.  Strings that all had a gauge still all have one. *)
Theorem reducer_delete_guitar (state : AppState) (payload : nat) :
  ∃ state',
    reducer state (DELETE_GUITAR payload) = Some state'
    ∧ guitars state' = delete payload (guitars state)
    ∧ (∀ j, guitars state' !! j
            = guitars state !! (if decide (j < payload)%nat then j else S j))
    ∧ (∀ j, selections state' !! j
            = if decide (j < length (guitars state'))%nat
              then selections state
                     !! (if decide (j < payload)%nat then j else S j)
              else None)
    ∧ (complete_selections (guitars state) (selections state) →
       complete_selections (guitars state') (selections state'))
    ∧ globalTargetPlain state' = globalTargetPlain state
    ∧ globalTargetWound state' = globalTargetWound state.
Proof.
  destruct (reducer_delete_guitar_fields state payload)
    as (state' & Hred & Hguitars & Hlook & Hplain & Hwound).
  exists state'. split; [done|]. split; [done|]. split.
  { intros j. rewrite Hguitars. apply lookup_delete_index. }
  split; [done|]. split; [|done].
  intros Hcomplete.
  destruct (reducer_delete_guitar_complete state payload Hcomplete)
    as (state'' & Hred' & Hcomplete').
  rewrite Hred in Hred'. by injection Hred' as <-.
Qed.

Lemma write_selection_lookup
    (l : list (option StringSelection)) (i : nat) (x : StringSelection) :
  write_selection l i x !! i = Some (Some x)
  ∧ length (write_selection l i x) = (length l `max` S i)%nat
  ∧ ∀ j, j ≠ i →
      write_selection l i x !! j
      = if decide (j < length l)%nat then l !! j
        else if decide (j < i)%nat then Some None else None.
Proof.
  unfold write_selection. destruct (decide (i < length l)%nat) as [Hi|Hi].
  - split; [by apply list_lookup_insert_eq|].
    split; [rewrite length_insert; lia|].
    intros j Hj. rewrite list_lookup_insert_ne by done.
    destruct (decide (j < length l)%nat) as [?|Hge]; [done|].
    rewrite decide_False by lia. apply lookup_ge_None. lia.
  - split; [|split].
    + rewrite lookup_app_r by lia.
      rewrite lookup_app_r by (rewrite length_replicate; lia).
      rewrite length_replicate.
      by replace (i - length l - (i - length l))%nat with 0%nat by lia.
    + rewrite !length_app, length_replicate. simpl. lia.
    + intros j Hj. destruct (decide (j < length l)%nat) as [Hlt|Hge].
      * by rewrite lookup_app_l.
      * rewrite lookup_app_r by lia.
        destruct (decide (j < i)%nat) as [Hlt|Hge'].
        -- rewrite lookup_app_l by (rewrite length_replicate; lia).
           apply lookup_replicate. split; [done | lia].
        -- apply lookup_ge_None.
           rewrite length_app, length_replicate. simpl. lia.
Qed.

(** X20. Writing the selection of a string: the string reads the selection
    back, the other strings of the guitar and the other guitars keep theirs,
    and an array that was too short grows up to the string, with holes on the
    way. *)
Theorem reducer_update_string_selection
    (state : AppState) (guitarIdx stringIdx : nat)
    (selection : StringSelection) :
  let before := default [] (selections state !! guitarIdx) in
  ∃ state' after,
    reducer state (UPDATE_STRING_SELECTION guitarIdx stringIdx selection)
    = Some state'
    ∧ guitars state' = guitars state
    ∧ selections state' !! guitarIdx = Some after
    ∧ (∀ g, g ≠ guitarIdx → selections state' !! g = selections state !! g)
    ∧ after !! stringIdx = Some (Some selection)
    ∧ length after = (length before `max` S stringIdx)%nat
    ∧ ∀ j, j ≠ stringIdx →
        after !! j
        = if decide (j < length before)%nat then before !! j
          else if decide (j < stringIdx)%nat then Some None else None.
Proof.
  intros before.
  destruct (write_selection_lookup before stringIdx selection)
    as (Hread & Hlen & Hframe).
  eexists _, _. split; [done|]. cbn [guitars selections].
  split; [done|]. split; [apply lookup_insert_eq|].
  split; [|done]. intros g Hg. by apply lookup_insert_ne.
Qed.

(** X21. Adding a guitar appends it and gives each of its strings the
    recommended gauge, under the index of the guitar; the guitars and the
    selections that were there stay. *)
Theorem reducer_add_guitar (state : AppState) (payload : Guitar) :
  typed_tags payload → (∀ stype, catalog stype ≠ []) →
  ∃ state' guitarSelections,
    reducer state (ADD_GUITAR payload) = Some state'
    ∧ guitars state' = guitars state ++ [payload]
    ∧ selections state'
      = <[length (guitars state) := guitarSelections]> (selections state)
    ∧ length guitarSelections = n_strings payload
    ∧ ∀ i, (i < n_strings payload)%nat →
        ∃ sel, guitarSelections !! i = Some (Some sel)
               ∧ recommended_for payload i sel.
Proof.
  intros Htags Hcat.
  destruct (default_selections_spec payload Htags Hcat)
    as (l & Hl & Hlen & Hsel).
  unfold reducer. cbv zeta. rewrite Hl. simpl.
  eexists _, l. split; [done|]. cbn [guitars selections].
  split; [done|]. split; [|done].
  rewrite length_app. simpl. f_equal. lia.
Qed.

Lemma complete_selections_insert
    (guitars : list Guitar) (selections : GuitarSelections)
    (g : nat) (l : list (option StringSelection)) :
  complete_selections guitars selections →
  (∀ guitar, guitars !! g = Some guitar →
     length l = n_strings guitar ∧ Forall has_gauge l) →
  complete_selections guitars (<[g := l]> selections).
Proof.
  intros Hcomplete Hl gIdx guitar Hguitar.
  destruct (decide (gIdx = g)) as [-> | Hne].
  - rewrite lookup_insert_eq. exists l. split; [done|]. by apply Hl.
  - rewrite lookup_insert_ne by done. by apply Hcomplete.
Qed.

(** X22. Every string keeps a gauge: when each string of each guitar has a
    selection with a gauge, it still has one after any action that
    [keeps_strings] admits, and the reducer returns a state for it. *)
Theorem reducer_keeps_strings (state : AppState) (action : Action) :
  complete_selections (guitars state) (selections state) →
  keeps_strings state action →
  ∃ state',
    reducer state action = Some state'
    ∧ complete_selections (guitars state') (selections state').
Proof.
  intros Hcomplete Hkeeps.
  destruct action as [payload | payload | index guitar | gIdx sIdx selection
                     | payload | payload | plain wound | | payload | payload];
    simpl in Hkeeps.
  - by eexists.
  - by eexists.
  - destruct Hkeeps as (old & Hold & Hn).
    unfold reducer, write_guitar.
    rewrite decide_True by (by apply lookup_lt_Some in Hold). simpl.
    eexists. split; [done|]. cbn [guitars selections].
    intros gIdx guitar' Hguitar.
    destruct (decide (gIdx = index)) as [-> | Hne].
    + rewrite list_lookup_insert_eq in Hguitar
        by (by apply lookup_lt_Some in Hold).
      injection Hguitar as <-. rewrite Hn. by apply Hcomplete.
    + rewrite list_lookup_insert_ne in Hguitar by done. by apply Hcomplete.
  - destruct Hkeeps as (guitar & Hguitar & Hi & Hgauge).
    eexists. split; [done|]. cbn [guitars selections].
    apply complete_selections_insert; [done|].
    intros guitar' Hguitar'. rewrite Hguitar in Hguitar'.
    injection Hguitar' as <-.
    destruct (Hcomplete gIdx guitar Hguitar) as (l & -> & Hlen & Hall).
    simpl. unfold write_selection. rewrite decide_True by lia.
    split; [by rewrite length_insert|].
    apply Forall_insert; done.
  - destruct Hkeeps as [Htags Hstock].
    destruct (default_selections_spec payload Htags) as (l & Hl & Hlen & Hsel).
    { intros c. apply Hstock. }
    unfold reducer. cbv zeta. rewrite Hl. simpl.
    eexists. split; [done|]. cbn [guitars selections].
    rewrite length_app. simpl.
    replace (length (guitars state) + 1 - 1)%nat
      with (length (guitars state)) by lia.
    intros gIdx guitar Hguitar.
    destruct (decide (gIdx = length (guitars state))) as [-> | Hne].
    + rewrite lookup_insert_eq. rewrite list_lookup_middle in Hguitar by done.
      injection Hguitar as <-. exists l. split; [done|]. split; [done|].
      apply Forall_lookup. intros i x Hx.
      destruct (Hsel i) as (sel & Hi & _ & g & Hg & Hmem & _).
      { rewrite <- Hlen. by apply lookup_lt_Some in Hx. }
      rewrite Hi in Hx. injection Hx as <-.
      by apply (stocked_has_gauge sel g).
    + rewrite lookup_insert_ne by done. apply Hcomplete.
      rewrite lookup_app_l in Hguitar; [done|].
      apply lookup_lt_Some in Hguitar. rewrite length_app in Hguitar.
      simpl in Hguitar. lia.
  - by apply reducer_delete_guitar_complete.
  - by eexists.
  - eexists. split; [done|]. cbn [guitars selections].
    intros gIdx guitar Hguitar. rewrite list_lookup_fmap in Hguitar.
    destruct (guitars state !! gIdx) as [old|] eqn:Hold; [|done].
    injection Hguitar as <-. simpl. by apply Hcomplete.
  - by eexists.
  - by eexists.
Qed.

(** ** The guitar card *)

Hypothesis Math_pow_NaN : ∀ x, Math_pow x NaN = NaN.

(** X23. The new tuning has one note for each string, and the strings that
    stay keep their notes. *)
Theorem resize_tuning_spec (currentTuning : list string) (newNStrings : nat) :
  length (resize_tuning currentTuning newNStrings) = newNStrings
  ∧ ∀ i, (i < newNStrings)%nat → (i < length currentTuning)%nat →
      resize_tuning currentTuning newNStrings !! i = currentTuning !! i.
Proof.
  unfold resize_tuning. repeat case_decide.
  - split; [rewrite length_take; lia|]. intros i Hi _.
    by apply lookup_take_lt.
  - cbv zeta. split.
    + rewrite length_app, length_fmap, length_seq. lia.
    + intros i _ Hi. by apply lookup_app_l.
  - split; [lia | done].
Qed.

Lemma reducer_update_guitar (state : AppState) (index : nat) (guitar old : Guitar) :
  guitars state !! index = Some old →
  reducer state (UPDATE_GUITAR index guitar)
  = Some {| guitars := <[index := guitar]> (guitars state);
            selections := selections state;
            globalTargetPlain := globalTargetPlain state;
            globalTargetWound := globalTargetWound state;
            loading := loading state; error := error state |}.
Proof.
  intros Hold. unfold reducer, write_guitar.
  by rewrite decide_True by (by apply lookup_lt_Some in Hold).
Qed.

Lemma sum_list_with_insert {A} (f : A → nat) (l : list A) (i : nat) (x y : A) :
  l !! i = Some y →
  (sum_list_with f (<[i := x]> l) + f y = sum_list_with f l + f x)%nat.
Proof.
  revert i. induction l as [|z l IH]; intros [|i] Hi; try done; simpl in *.
  - injection Hi as ->. lia.
  - specialize (IH i Hi). lia.
Qed.

Lemma counted_selections_length
    (guitars guitars' : list Guitar) (selections : GuitarSelections) :
  length guitars = length guitars' →
  counted_selections guitars selections
  = counted_selections guitars' selections.
Proof.
  intros Hlen. unfold counted_selections, indexed.
  rewrite <- Hlen. generalize (seq 0 (length guitars)). intros idx.
  revert guitars' Hlen idx.
  induction guitars as [|g guitars IH]; intros [|g' guitars'] Hlen idx;
    try done.
  destruct idx as [|i idx]; [done|]. simpl. f_equal.
  apply IH. simpl in Hlen. lia.
Qed.

(** ** The total tension of a card *)

Lemma tensionFromMu_NaN_scale (mu freq : number) :
  tensionFromMu Math_pow mu NaN freq = NaN.
Proof.
  unfold tensionFromMu. rewrite Math_pow_square.
  by replace (dec 2 * NaN * freq)%J with NaN by (by destruct freq).
Qed.

Lemma tensionFromMu_NaN_frequency (mu scale : number) :
  tensionFromMu Math_pow mu scale NaN = NaN.
Proof. unfold tensionFromMu. by rewrite mul_NaN_r, Math_pow_square. Qed.

Lemma add_tension_NaN guitar scales
    (entries : list (nat * option StringSelection)) :
  foldl (add_tension Math_pow A4 NOTE_INDEX FLAT_TO_SHARP PLAIN_UNIT_WEIGHTS
           WOUND_UNIT_WEIGHTS guitar scales) NaN entries = NaN.
Proof.
  induction entries as [|[i sel] entries IH]; [done|].
  cbn [foldl]. unfold add_tension at 2. destruct sel as [sel|]; [|done].
  by destruct (negb _).
Qed.

(** One tension that is not a number makes the total not a number. *)
Lemma totalTension_NaN
    (guitar : Guitar) (cardSelections : list (option StringSelection))
    (i : nat) (sel : StringSelection) :
  cardSelections !! i = Some (Some sel) →
  Num.truthy (gauge sel) = true →
  calcTension (gauge sel) (type sel)
    (default NaN (resolveScales (scale guitar) (n_strings guitar) !! i))
    (noteToFreq (note_at (tuning guitar) i)) = NaN →
  totalTension guitar cardSelections = NaN.
Proof.
  intros Hsel%indexed_elem_of Hgauge Htension. unfold totalTension. cbv zeta.
  apply list_elem_of_split in Hsel as (pre & post & ->).
  rewrite foldl_app. cbn [foldl]. unfold add_tension at 2.
  rewrite Hgauge. cbn [negb]. cbv zeta. rewrite Htension, add_NaN_r.
  apply add_tension_NaN.
Qed.

(** X24. A string with a gauge whose note is not a valid token makes the total
    tension of its card [NaN]. *)
Theorem totalTension_invalid_note
    (guitar : Guitar) (cardSelections : list (option StringSelection))
    (i : nat) (sel : StringSelection) :
  let note := note_at (tuning guitar) i in
  cardSelections !! i = Some (Some sel) →
  Num.truthy (gauge sel) = true →
  ¬ recognized NOTE_INDEX FLAT_TO_SHARP (Str.slice note 0 (Some (-1)%Z))
  ∨ Str.parseInt (Str.slice note (-1) None) = NaN →
  totalTension guitar cardSelections = NaN.
Proof.
  intros note Hsel Hgauge Hnote.
  apply (totalTension_NaN guitar cardSelections i sel Hsel Hgauge).
  fold note. assert (noteToFreq note = NaN) as ->.
  { rewrite (noteToFreq_cut Math_pow A4 NOTE_INDEX FLAT_TO_SHARP).
    destruct Hnote as [Hname | ->].
    - by apply frequency_of_unrecognized.
    - by apply frequency_of_NaN. }
  apply tensionFromMu_NaN_frequency.
Qed.

(** A selection with a gauge that lies past the strings of the guitar has
    no scale, and makes the total tension of the card [NaN]. *)
Lemma totalTension_past_strings
    (guitar : Guitar) (cardSelections : list (option StringSelection))
    (i : nat) (sel : StringSelection) :
  cardSelections !! i = Some (Some sel) →
  Num.truthy (gauge sel) = true →
  (n_strings guitar ≤ i)%nat →
  totalTension guitar cardSelections = NaN.
Proof.
  intros Hsel Hgauge Hi.
  apply (totalTension_NaN guitar cardSelections i sel Hsel Hgauge).
  rewrite (proj2 (lookup_ge_None _ _))
    by (by rewrite (resolveScales_length (scale guitar) (n_strings guitar))).
  apply tensionFromMu_NaN_scale.
Qed.

(** X25. Lowering the number of strings of a guitar whose strings all have a
    gauge: the guitar gets the new count and a tuning of that length, and the
    selections stay as they are, those of the strings that are gone included.
    The inventory still counts every string that was there, and the total
    tension of the card is [NaN]. *)
Theorem handleNStringsChange_fewer_strings
    (state : AppState) (index : nat) (guitar : Guitar) (newNStrings : nat) :
  guitars state !! index = Some guitar →
  complete_selections (guitars state) (selections state) →
  (newNStrings < n_strings guitar)%nat →
  ∃ state',
    handleNStringsChange state index newNStrings = Some state'
    ∧ guitars state'
      = <[index := resize_guitar guitar newNStrings]> (guitars state)
    ∧ selections state' = selections state
    ∧ (total_strings (guitars state') + (n_strings guitar - newNStrings)
       = total_strings (guitars state))%nat
    ∧ sum_list_with count
        (buildGaugeUsages (guitars state') (selections state'))
      = total_strings (guitars state)
    ∧ totalTension (resize_guitar guitar newNStrings)
        (default [] (selections state' !! index)) = NaN.
Proof.
  intros Hguitar Hcomplete Hn.
  destruct (Hcomplete index guitar Hguitar) as (l & Hl & Hlen & Hall).
  unfold handleNStringsChange. rewrite Hguitar.
  cbn [mbind option_bind]. cbv zeta.
  rewrite (reducer_update_guitar state index _ guitar Hguitar).
  cbn [mbind option_bind]. rewrite Hl. cbn [default from_option id].
  replace (newNStrings - length l)%nat with 0%nat by lia. cbn [seq foldl].
  eexists. split; [done|]. cbn [guitars selections].
  split; [done|]. split; [done|]. split.
  { unfold total_strings.
    pose proof (sum_list_with_insert n_strings (guitars state) index
                  (resize_guitar guitar newNStrings) guitar Hguitar) as Hsum.
    simpl in Hsum. lia. }
  split.
  { rewrite (buildGaugeUsages_sum Math_pow A4 NOTE_INDEX FLAT_TO_SHARP).
    rewrite (counted_selections_length _ (guitars state))
      by apply length_insert.
    by apply counted_complete. }
  rewrite Hl. simpl.
  destruct (lookup_lt_is_Some_2 l newNStrings) as [x Hx]; [lia|].
  rewrite Forall_lookup in Hall. pose proof (Hall _ _ Hx) as Hgauge.
  destruct x as [sel|]; [|done]. simpl in Hgauge.
  by apply (totalTension_past_strings _ l newNStrings sel).
Qed.

(** The loop of [handleNStringsChange] over the new strings: each step
    writes the selection of the string behind the last one. *)
Lemma new_selections_fold
    (updated : Guitar) (scales : list number) (types : list string)
    (index k : nat) (state : AppState) (l : list (option StringSelection)) :
  selections state !! index = Some l →
  (∀ i, (length l ≤ i < length l + k)%nat →
     is_Some (default_selection updated scales types i)) →
  ∃ state' added,
    foldl
      (λ (state : option AppState) (i : nat),
         state ← state;
         selection ← default_selection updated scales types i;
         reducer state (UPDATE_STRING_SELECTION index i selection))
      (Some state) (seq (length l) k) = Some state'
    ∧ guitars state' = guitars state
    ∧ selections state' = <[index := l ++ (Some <$> added)]> (selections state)
    ∧ length added = k
    ∧ ∀ j, (j < k)%nat →
        default_selection updated scales types (length l + j) = added !! j.
Proof.
  revert state l. induction k as [|k IH]; intros state l Hl Hsel.
  { exists state, []. split; [done|]. split; [done|]. split.
    - simpl. by rewrite app_nil_r, insert_id.
    - split; [done|]. intros j Hj. lia. }
  cbn [seq foldl mbind option_bind].
  destruct (Hsel (length l)) as [sel Hdef]; [lia|].
  rewrite Hdef. cbn [mbind option_bind].
  set (state1 :=
         {| guitars := guitars state;
            selections :=
              <[index := l ++ [Some sel]]> (selections state);
            globalTargetPlain := globalTargetPlain state;
            globalTargetWound := globalTargetWound state;
            loading := loading state; error := error state |}).
  assert (reducer state (UPDATE_STRING_SELECTION index (length l) sel)
          = Some state1) as ->.
  { unfold reducer, state1. cbv zeta. rewrite Hl. cbn [default from_option id].
    unfold write_selection. rewrite decide_False by lia.
    by rewrite Nat.sub_diag. }
  destruct (IH state1 (l ++ [Some sel])) as (state' & added & Hfold & Hg & Hs
                                            & Hlen & Hadded).
  { apply lookup_insert_eq. }
  { intros i Hi. rewrite length_app in Hi. simpl in Hi. apply Hsel. lia. }
  rewrite length_app in Hfold. simpl in Hfold.
  rewrite Nat.add_1_r in Hfold.
  exists state', (sel :: added). split; [done|]. split; [done|]. split.
  - rewrite Hs. unfold state1. cbn [selections].
    rewrite insert_insert_eq. by rewrite <- app_assoc.
  - split; [simpl; lia|]. intros [|j] Hj.
    + by rewrite Nat.add_0_r.
    + change ((sel :: added) !! S j) with (added !! j).
      rewrite <- (Hadded j) by lia. rewrite length_app. simpl.
      f_equal. lia.
Qed.

(** X26. Raising the number of strings of a guitar whose strings all have a
    gauge: the guitar gets the new count and a tuning of that length, the
    selections that were there stay, and every new string gets the gauge that
    [recommendGauge] returns for it; every string has a gauge again. *)
Theorem handleNStringsChange_more_strings
    (state : AppState) (index : nat) (guitar : Guitar) (newNStrings : nat) :
  guitars state !! index = Some guitar →
  complete_selections (guitars state) (selections state) →
  (n_strings guitar ≤ newNStrings)%nat →
  typed_tags (resize_guitar guitar newNStrings) → stocked →
  ∃ state' before added,
    handleNStringsChange state index newNStrings = Some state'
    ∧ guitars state'
      = <[index := resize_guitar guitar newNStrings]> (guitars state)
    ∧ selections state !! index = Some before
    ∧ selections state' = <[index := before ++ added]> (selections state)
    ∧ length before = n_strings guitar
    ∧ length (before ++ added) = newNStrings
    ∧ (∀ i, (n_strings guitar ≤ i < newNStrings)%nat →
         ∃ sel, (before ++ added) !! i = Some (Some sel)
                ∧ recommended_for (resize_guitar guitar newNStrings) i sel)
    ∧ complete_selections (guitars state') (selections state').
Proof.
  intros Hguitar Hcomplete Hn Htags Hstock.
  destruct (Hcomplete index guitar Hguitar) as (l & Hl & Hlen & Hall).
  assert (∀ stype, catalog stype ≠ []) as Hcat by (intros c; apply Hstock).
  set (updated := resize_guitar guitar newNStrings) in *.
  destruct (default_selections_spec updated Htags Hcat)
    as (defaults & Hdefaults & Hdlen & Hdsel).
  assert (∀ i, (i < newNStrings)%nat →
            ∃ sel, default_selection updated
                     (resolveScales (scale guitar) newNStrings)
                     (resolveStringTypes (string_types guitar) newNStrings) i
                   = Some sel
                   ∧ recommended_for updated i sel) as Hsel.
  { intros i Hi. destruct (Hdsel i Hi) as (sel & Hi' & Hrec).
    exists sel. split; [|done].
    unfold default_selections in Hdefaults. cbv zeta in Hdefaults.
    destruct (mapM _ _) as [k|] eqn:Hk; [|done].
    simpl in Hdefaults. injection Hdefaults as <-.
    rewrite list_lookup_fmap in Hi'.
    apply mapM_Some_1 in Hk.
    destruct (Forall2_lookup_l _ _ _ i i Hk) as (sel' & Hsel' & Hdef);
      [by apply lookup_seq_lt|].
    rewrite Hsel' in Hi'. simpl in Hi'. injection Hi' as <-. exact Hdef. }
  unfold handleNStringsChange. rewrite Hguitar.
  cbn [mbind option_bind]. cbv zeta.
  rewrite (reducer_update_guitar state index _ guitar Hguitar).
  cbn [mbind option_bind]. rewrite Hl. cbn [default from_option id].
  fold updated.
  set (state0 :=
         {| guitars := <[index := updated]> (guitars state);
            selections := selections state;
            globalTargetPlain := globalTargetPlain state;
            globalTargetWound := globalTargetWound state;
            loading := loading state; error := error state |}).
  destruct (new_selections_fold updated
              (resolveScales (scale guitar) newNStrings)
              (resolveStringTypes (string_types guitar) newNStrings)
              index (newNStrings - length l) state0 l Hl)
    as (state' & added & Hfold & Hg & Hs & Hadded_len & Hadded).
  { intros i Hi. destruct (Hsel i) as (sel & -> & _); [lia | done]. }
  exists state', l, (Some <$> added).
  assert (∀ i, (n_strings guitar ≤ i < newNStrings)%nat →
            ∃ sel, (l ++ (Some <$> added)) !! i = Some (Some sel)
                   ∧ recommended_for updated i sel) as Hnew.
  { intros i Hi. destruct (Hsel i) as (sel & Hdef & Hrec); [lia|].
    exists sel. split; [|done].
    rewrite lookup_app_r by lia. rewrite list_lookup_fmap.
    rewrite <- (Hadded (i - length l)%nat) by lia.
    replace (length l + (i - length l))%nat with i by lia.
    by rewrite Hdef. }
  split; [done|]. split; [done|]. split; [done|]. split; [done|].
  split; [done|]. split.
  { rewrite length_app, length_fmap. lia. }
  split; [done|].
  rewrite Hg, Hs. unfold state0. cbn [guitars selections].
  intros gIdx guitar' Hguitar'.
  destruct (decide (gIdx = index)) as [-> | Hne].
  - rewrite list_lookup_insert_eq in Hguitar'
      by (by apply lookup_lt_Some in Hguitar).
    injection Hguitar' as <-. rewrite lookup_insert_eq.
    eexists. split; [done|]. split.
    { rewrite length_app, length_fmap. simpl. lia. }
    apply Forall_lookup. intros i x Hx.
    destruct (decide (i < length l)%nat) as [Hi|Hi].
    + rewrite lookup_app_l in Hx by done.
      by apply (Forall_lookup_1 _ _ _ _ Hall Hx).
    + destruct (Hnew i) as (sel & Hi' & _ & g & Hgauge & Hmem & _).
      { apply lookup_lt_Some in Hx.
        rewrite length_app, length_fmap in Hx. lia. }
      rewrite Hi' in Hx. injection Hx as <-.
      by apply (stocked_has_gauge sel g).
  - rewrite list_lookup_insert_ne in Hguitar' by done.
    rewrite lookup_insert_ne by done. by apply Hcomplete.
Qed.

End AppFacts.

(** * The further properties on the sample instance *)

Lemma sample_stocked : stocked Sample.PLAIN_GAUGES Sample.WOUND_GAUGES.
Proof.
  intros stype. split; [by destruct stype|].
  destruct stype; cbn; intros Hg;
    repeat (apply elem_of_cons in Hg as [Hg | Hg];
            [apply Qc_eq_Qeq in Hg; by vm_compute in Hg|]);
    by apply elem_of_nil in Hg.
Qed.

Lemma sample_one_each_complete :
  complete_selections [Sample.two_string] Sample.one_each.
Proof.
  intros [|gIdx] guitar Hguitar; [|done]. injection Hguitar as <-.
  exists [Sample.plain 0.009; Sample.plain 0.013].
  split; [done|]. split; [done|]. repeat constructor; by vm_compute.
Qed.

(** The gauge .009 is in the target [13, 15.5] of a plain string at 25.5
    inches and 330 Hz. *)
Lemma recommendGauge_in_gaugesInRange_witness :
  Q2Qc 0.009 ∈ Sample.PLAIN_GAUGES
  ∧ ∃ g, Sample.recommendGauge p (dec 25.5) (dec 330) (dec 13, dec 15.5)
         = Some g
         ∧ g ∈ gaugesInRange Sample.Math_pow Sample.PLAIN_UNIT_WEIGHTS
                 Sample.WOUND_UNIT_WEIGHTS p (dec 25.5) (dec 330)
                 (dec 13, dec 15.5).
Proof.
  assert (Q2Qc 0.009 ∈ Sample.PLAIN_GAUGES) as Hg by apply list_elem_of_here.
  split; [exact Hg|].
  apply (recommendGauge_in_gaugesInRange Sample.Math_pow
           Sample.PLAIN_UNIT_WEIGHTS Sample.WOUND_UNIT_WEIGHTS
           Sample.PLAIN_GAUGES Sample.WOUND_GAUGES p (dec 25.5) (dec 330)
           (Q2Qc 13) (Q2Qc 15.5) (Q2Qc 0.009) Hg).
  by vm_compute.
Defined.

(** "X4" is no note: the string gets the first gauge of the catalog. *)
Lemma recommendGauge_invalid_note_witness :
  ¬ Sample.recognized "X"
  ∧ Sample.recommendGauge p (dec 25.5) (Sample.noteToFreq "X4")
      (dec 13, dec 15.5) = Some (Q2Qc 0.009).
Proof.
  assert (¬ Sample.recognized "X") as HX.
  { intros [x Hx]. vm_compute in Hx. discriminate Hx. }
  split; [exact HX|].
  apply (recommendGauge_invalid_note Sample.Math_pow sample_pow_NaN
           sample_pow_square Sample.A4 Sample.NOTE_INDEX Sample.FLAT_TO_SHARP
           Sample.PLAIN_UNIT_WEIGHTS Sample.WOUND_UNIT_WEIGHTS
           Sample.PLAIN_GAUGES Sample.WOUND_GAUGES p (dec 25.5)
           (dec 13, dec 15.5) "X4").
  left. exact HX.
Defined.

(** The target [15.5, 13] has its bounds the wrong way round. *)
Lemma recommendGauge_inverted_target_witness :
  Q2Qc 13 < Q2Qc 15.5
  ∧ ∃ g, Sample.recommendGauge p (dec 25.5) (dec 330) (dec 15.5, dec 13)
         = Some g.
Proof.
  assert (Q2Qc 13 < Q2Qc 15.5) as Hinv by (by vm_compute).
  split; [exact Hinv|].
  destruct (recommendGauge_inverted_target Sample.Math_pow sample_pow_square
              Sample.PLAIN_UNIT_WEIGHTS Sample.WOUND_UNIT_WEIGHTS
              Sample.PLAIN_GAUGES Sample.WOUND_GAUGES p
              (Q2Qc 25.5) (Q2Qc 330) (Q2Qc 15.5) (Q2Qc 13) Hinv)
    as (g & Hg & _); [done | apply (sample_catalog_in_table p) |].
  by exists g.
Defined.


(** The gauge .010 is heavier than the gauge .009. *)
Lemma calcTension_monotone_witness :
  Sample.PLAIN_UNIT_WEIGHTS !! Q2Qc 0.009 = Some (Q2Qc 0.00001794)
  ∧ Sample.PLAIN_UNIT_WEIGHTS !! Q2Qc 0.010 = Some (Q2Qc 0.00002215)
  ∧ (Sample.calcTension (dec 0.009) p (dec 25.5) (dec 330)
     <=? Sample.calcTension (dec 0.010) p (dec 25.5) (dec 330))%J = true.
Proof.
  assert (Sample.PLAIN_UNIT_WEIGHTS !! Q2Qc 0.009 = Some (Q2Qc 0.00001794))
    as H1 by (by vm_compute).
  assert (Sample.PLAIN_UNIT_WEIGHTS !! Q2Qc 0.010 = Some (Q2Qc 0.00002215))
    as H2 by (by vm_compute).
  split; [exact H1|]. split; [exact H2|].
  apply (calcTension_monotone Sample.Math_pow sample_pow_square
           Sample.PLAIN_UNIT_WEIGHTS Sample.WOUND_UNIT_WEIGHTS p
           (Q2Qc 0.009) (Q2Qc 0.010) (Q2Qc 0.00001794) (Q2Qc 0.00002215)
           (Q2Qc 25.5) (Q2Qc 330) H1 H2); by vm_compute.
Defined.

(** B flat is respelled as A sharp. *)
Lemma noteToFreq_enharmonic_witness :
  Sample.FLAT_TO_SHARP !! "Bb" = Some "A#"
  ∧ Sample.FLAT_TO_SHARP !! "A#" = None
  ∧ Sample.noteToFreq "Bb3" = Sample.noteToFreq "A#3".
Proof.
  assert (Sample.FLAT_TO_SHARP !! "Bb" = Some "A#") as H1 by (by vm_compute).
  assert (Sample.FLAT_TO_SHARP !! "A#" = None) as H2 by (by vm_compute).
  split; [exact H1|]. split; [exact H2|].
  apply (noteToFreq_enharmonic Sample.Math_pow Sample.A4 Sample.NOTE_INDEX
           Sample.FLAT_TO_SHARP "Bb" "A#" "3"%char H1 H2).
Defined.

(** Three plain strings with the gauges .010, .010 and .011: the lone .011
    is offered the shared .010. *)
Lemma buildGaugeUsages_swap_target_witness :
  let groups :=
    Sample.buildGaugeUsages [Sample.six_string] Sample.two_and_one in
  let u := Sample.group_at groups 1 in
  let swap := Sample.swap_of u in
  u ∈ groups ∧ swapOption u = Some swap
  ∧ ∃ other, other ∈ groups ∧ (1 < count other)%nat
             ∧ s_gauge swap = g_gauge other.
Proof.
  intros groups u swap.
  assert (u ∈ groups) as Hu.
  { apply list_elem_of_lookup. exists 1%nat. by vm_compute. }
  assert (swapOption u = Some swap) as Hswap by (by vm_compute).
  split; [exact Hu|]. split; [exact Hswap|].
  destruct (buildGaugeUsages_swap_target Sample.Math_pow Sample.A4
              Sample.NOTE_INDEX Sample.FLAT_TO_SHARP
              Sample.PLAIN_UNIT_WEIGHTS Sample.WOUND_UNIT_WEIGHTS
              [Sample.six_string] Sample.two_and_one u swap Hu Hswap)
    as (info & other & _ & Hother & Hcount & _ & _ & Hgauge & _).
  exists other. split; [exact Hother|]. split; [exact Hcount | exact Hgauge].
Defined.

(** The same strings on a guitar whose third note is no note: the lone
    .011 has no tension, and no swap. *)
Lemma buildGaugeUsages_no_swap_witness :
  let groups :=
    Sample.buildGaugeUsages [Sample.odd_note] Sample.two_and_one in
  let u := Sample.group_at groups 1 in
  let other := Sample.group_at groups 0 in
  let info := Sample.usage_of u in
  u ∈ groups ∧ usages u = [info] ∧ swapOption u = None ∧ other ∈ groups
  ∧ swap_candidate Sample.PLAIN_UNIT_WEIGHTS Sample.WOUND_UNIT_WEIGHTS u other
  ∧ (swap_deviation Sample.Math_pow Sample.PLAIN_UNIT_WEIGHTS
       Sample.WOUND_UNIT_WEIGHTS u info other <? PInf)%J = false.
Proof.
  intros groups u other info.
  assert (u ∈ groups) as Hu.
  { apply list_elem_of_lookup. exists 1%nat. by vm_compute. }
  assert (usages u = [info]) as Hinfo by (by vm_compute).
  assert (swapOption u = None) as Hswap by (by vm_compute).
  assert (other ∈ groups) as Hother.
  { apply list_elem_of_lookup. exists 0%nat. by vm_compute. }
  assert (swap_candidate Sample.PLAIN_UNIT_WEIGHTS Sample.WOUND_UNIT_WEIGHTS
            u other) as Hcand.
  { split; [vm_compute; lia|]. split; [by vm_compute|].
    split; by vm_compute. }
  split; [exact Hu|]. split; [exact Hinfo|]. split; [exact Hswap|].
  split; [exact Hother|]. split; [exact Hcand|].
  apply (buildGaugeUsages_no_swap Sample.Math_pow Sample.A4
           Sample.NOTE_INDEX Sample.FLAT_TO_SHARP
           Sample.PLAIN_UNIT_WEIGHTS Sample.WOUND_UNIT_WEIGHTS
           [Sample.odd_note] Sample.two_and_one u other info
           Hu Hinfo Hswap Hother Hcand).
Defined.

(** The swap of the lone .011 to the shared .010 has two finite
    tensions. *)
Lemma buildGaugeUsages_swap_bound_witness :
  let groups :=
    Sample.buildGaugeUsages [Sample.six_string] Sample.two_and_one in
  let u := Sample.group_at groups 1 in
  let swap := Sample.swap_of u in
  u ∈ groups ∧ swapOption u = Some swap
  ∧ ∃ t c, newTension swap = Fin t ∧ currentTension swap = Fin c.
Proof.
  intros groups u swap.
  assert (u ∈ groups) as Hu.
  { apply list_elem_of_lookup. exists 1%nat. by vm_compute. }
  assert (swapOption u = Some swap) as Hswap by (by vm_compute).
  split; [exact Hu|]. split; [exact Hswap|].
  destruct (buildGaugeUsages_swap_bound Sample.Math_pow Sample.A4
              Sample.NOTE_INDEX Sample.FLAT_TO_SHARP
              Sample.PLAIN_UNIT_WEIGHTS Sample.WOUND_UNIT_WEIGHTS
              [Sample.six_string] Sample.two_and_one u swap Hu Hswap)
    as (info & _ & _ & _ & _ & Hfinite & _).
  exact Hfinite.
Defined.

(** The six-string guitar has the positional tags. *)
Lemma generateDefaultSelections_complete_witness :
  Forall typed_tags [Sample.six_string]
  ∧ stocked Sample.PLAIN_GAUGES Sample.WOUND_GAUGES
  ∧ ∃ selections,
      Sample.generateDefaultSelections [Sample.six_string] = Some selections
      ∧ complete_selections [Sample.six_string] selections.
Proof.
  assert (Forall typed_tags [Sample.six_string]) as Htags.
  { repeat constructor. by apply typed_tags_default. }
  split; [exact Htags|]. split; [exact sample_stocked|].
  destruct (generateDefaultSelections_complete Sample.Math_pow Sample.A4
              Sample.NOTE_INDEX Sample.FLAT_TO_SHARP
              Sample.PLAIN_UNIT_WEIGHTS Sample.WOUND_UNIT_WEIGHTS
              Sample.PLAIN_GAUGES Sample.WOUND_GAUGES [Sample.six_string]
              Htags sample_stocked)
    as (selections & Hgen & Hcomplete & _).
  exists selections. split; [exact Hgen | exact Hcomplete].
Defined.

(** The six-string guitar added to a state without guitars. *)
Lemma reducer_add_guitar_witness :
  typed_tags Sample.six_string
  ∧ ∃ state',
      Sample.reducer (Sample.state_of [] ∅) (ADD_GUITAR Sample.six_string)
      = Some state'
      ∧ guitars state' = [Sample.six_string].
Proof.
  assert (typed_tags Sample.six_string) as Htags
    by (by apply typed_tags_default).
  split; [exact Htags|].
  destruct (reducer_add_guitar Sample.Math_pow Sample.A4
              Sample.NOTE_INDEX Sample.FLAT_TO_SHARP
              Sample.PLAIN_UNIT_WEIGHTS Sample.WOUND_UNIT_WEIGHTS
              Sample.PLAIN_GAUGES Sample.WOUND_GAUGES
              (Sample.state_of [] ∅) Sample.six_string Htags)
    as (state' & l & Hred & Hguitars & _).
  { intros stype. apply sample_stocked. }
  exists state'. split; [exact Hred | exact Hguitars].
Defined.

(** The second string of the two-string guitar takes the gauge .010. *)
Lemma reducer_keeps_strings_witness :
  let state := Sample.state_of [Sample.two_string] Sample.one_each in
  let action :=
    UPDATE_STRING_SELECTION 0 1 {| gauge := dec 0.010; type := p |} in
  complete_selections (guitars state) (selections state)
  ∧ keeps_strings Sample.PLAIN_GAUGES Sample.WOUND_GAUGES state action
  ∧ ∃ state',
      Sample.reducer state action = Some state'
      ∧ complete_selections (guitars state') (selections state').
Proof.
  intros state action.
  assert (keeps_strings Sample.PLAIN_GAUGES Sample.WOUND_GAUGES state action)
    as Hkeeps.
  { exists Sample.two_string. split; [done|]. split; [simpl; lia|].
    by vm_compute. }
  split; [exact sample_one_each_complete|]. split; [exact Hkeeps|].
  apply (reducer_keeps_strings Sample.Math_pow Sample.A4
           Sample.NOTE_INDEX Sample.FLAT_TO_SHARP
           Sample.PLAIN_UNIT_WEIGHTS Sample.WOUND_UNIT_WEIGHTS
           Sample.PLAIN_GAUGES Sample.WOUND_GAUGES state action
           sample_one_each_complete Hkeeps).
Defined.

(** The third string of the guitar has the note "X4". *)
Lemma totalTension_invalid_note_witness :
  ¬ Sample.recognized "X"
  ∧ Sample.totalTension Sample.odd_note
      [Sample.plain 0.010; Sample.plain 0.010; Sample.plain 0.011] = NaN.
Proof.
  assert (¬ Sample.recognized "X") as HX.
  { intros [x Hx]. vm_compute in Hx. discriminate Hx. }
  split; [exact HX|].
  apply (totalTension_invalid_note Sample.Math_pow sample_pow_square
           Sample.A4 Sample.NOTE_INDEX Sample.FLAT_TO_SHARP
           Sample.PLAIN_UNIT_WEIGHTS Sample.WOUND_UNIT_WEIGHTS sample_pow_NaN
           Sample.odd_note
           [Sample.plain 0.010; Sample.plain 0.010; Sample.plain 0.011]
           2 {| gauge := dec 0.011; type := p |}).
  - done.
  - by vm_compute.
  - left. exact HX.
Defined.

(** The two-string guitar brought down to one string. *)
Lemma handleNStringsChange_fewer_strings_witness :
  let state := Sample.state_of [Sample.two_string] Sample.one_each in
  complete_selections (guitars state) (selections state)
  ∧ ∃ state',
      Sample.handleNStringsChange state 0 1 = Some state'
      ∧ selections state' = selections state
      ∧ Sample.totalTension (resize_guitar Sample.two_string 1)
          (default [] (selections state' !! 0%nat)) = NaN.
Proof.
  intros state. split; [exact sample_one_each_complete|].
  destruct (handleNStringsChange_fewer_strings Sample.Math_pow
              sample_pow_square Sample.A4
              Sample.NOTE_INDEX Sample.FLAT_TO_SHARP
              Sample.PLAIN_UNIT_WEIGHTS Sample.WOUND_UNIT_WEIGHTS
              Sample.PLAIN_GAUGES Sample.WOUND_GAUGES state 0
              Sample.two_string 1)
    as (state' & Hhandle & _ & Hsel & _ & _ & Htotal).
  - reflexivity.
  - exact sample_one_each_complete.
  - simpl. lia.
  - exists state'. split; [exact Hhandle|]. split; [exact Hsel|].
    exact Htotal.
Defined.

(** The two-string guitar brought up to three strings. *)
Lemma handleNStringsChange_more_strings_witness :
  let state := Sample.state_of [Sample.two_string] Sample.one_each in
  complete_selections (guitars state) (selections state)
  ∧ typed_tags (resize_guitar Sample.two_string 3)
  ∧ ∃ state',
      Sample.handleNStringsChange state 0 3 = Some state'
      ∧ complete_selections (guitars state') (selections state').
Proof.
  intros state.
  assert (typed_tags (resize_guitar Sample.two_string 3)) as Htags
    by (by apply typed_tags_default).
  split; [exact sample_one_each_complete|]. split; [exact Htags|].
  destruct (handleNStringsChange_more_strings Sample.Math_pow Sample.A4
              Sample.NOTE_INDEX Sample.FLAT_TO_SHARP
              Sample.PLAIN_UNIT_WEIGHTS Sample.WOUND_UNIT_WEIGHTS
              Sample.PLAIN_GAUGES Sample.WOUND_GAUGES state 0
              Sample.two_string 3)
    as (state' & before & added & Hhandle & _ & _ & _ & _ & _ & _ & Hcomplete).
  - reflexivity.
  - exact sample_one_each_complete.
  - simpl. lia.
  - exact Htags.
  - exact sample_stocked.
  - exists state'. split; [exact Hhandle | exact Hcomplete].
Defined.
